(** * ziplinee-ci-builder: env resolver, when-evaluator, end-of-life reporter

    A shallow embedding of the parts of the builder that its specification
    states properties of, and the proofs of what the code does there.

    Go strings are byte sequences: they are [string] here, and the byte-level
    algorithms run on [list ascii].  Go maps are [gmap string string].  Step
    pointers ([*contracts.BuildLogStep]) are addresses into an explicit heap,
    so that aliasing between the caller's log and the reporter's payload is
    visible.  Code that can panic or leave the process returns an [Outcome]. *)

From Stdlib Require Import ZArith Ascii String List Lia Bool.
From stdpp Require Import gmap strings list.

Local Open Scope Z_scope.

(** ** Go's [strings], [regexp] and [os.Expand] on bytes *)

Module GoStrings.

Definition bytes := list ascii.

Definition of_string (s : string) : bytes := list_ascii_of_string s.
Definition to_string (b : bytes) : string := string_of_list_ascii b.

Definition byte_in (lo hi c : ascii) : bool :=
  (nat_of_ascii lo <=? nat_of_ascii c)%nat && (nat_of_ascii c <=? nat_of_ascii hi)%nat.

Definition isUpper (c : ascii) : bool := byte_in "A" "Z" c.
Definition isLower (c : ascii) : bool := byte_in "a" "z" c.
Definition isDigit (c : ascii) : bool := byte_in "0" "9" c.
Definition isHyphen (c : ascii) : bool := Ascii.eqb c "-".

(** [c < utf8.RuneSelf] *)
Definition isASCIIByte (c : ascii) : bool := (nat_of_ascii c <? 128)%nat.

(** [c += 'a' - 'A'] on an upper-case byte. *)
Definition lowerByte (c : ascii) : ascii :=
  if isUpper c then ascii_of_nat (nat_of_ascii c + 32) else c.

(** [strings.HasPrefix] *)
Fixpoint HasPrefix (s prefix : bytes) {struct prefix} : bool :=
  match prefix, s with
  | [], _ => true
  | p :: prefix', c :: s' => Ascii.eqb c p && HasPrefix s' prefix'
  | _ :: _, [] => false
  end.

(** [strings.Replace(s, old, new, -1)] for a non-empty [old]: a left to
    right scan that replaces every non-overlapping occurrence.  [skip] is
    the number of bytes of the occurrence just replaced that the scan still
    has to step over. *)
Fixpoint Replace_go (old new : bytes) (skip : nat) (s : bytes) : bytes :=
  match s with
  | [] => []
  | c :: t =>
      match skip with
      | S k => Replace_go old new k t
      | O =>
          if HasPrefix s old
          then new ++ Replace_go old new (List.length old - 1) t
          else c :: Replace_go old new O t
      end
  end.

Definition Replace (s old new : bytes) : bytes := Replace_go old new O s.

(** [strings.TrimLeft], [strings.TrimRight] and [strings.Trim] with a
    one-byte ASCII cutset. *)
Fixpoint TrimLeft (s : bytes) (cut : ascii) : bytes :=
  match s with
  | c :: t => if Ascii.eqb c cut then TrimLeft t cut else s
  | [] => []
  end.

Fixpoint TrimRight (s : bytes) (cut : ascii) : bytes :=
  match s with
  | [] => []
  | c :: t =>
      match TrimRight t cut with
      | [] => if Ascii.eqb c cut then [] else [c]
      | t' => c :: t'
      end
  end.

Definition Trim (s : bytes) (cut : ascii) : bytes :=
  TrimRight (TrimLeft s cut) cut.

(** [strings.ToLower]: the ASCII fast path is the code of the Go library;
    a string with a byte outside ASCII goes through the Unicode tables
    ([strings.Map(unicode.ToLower, s)]), which are a parameter here. *)
Definition ToLower (unicodeLower : bytes -> bytes) (s : bytes) : bytes :=
  if forallb isASCIIByte s then map lowerByte s else unicodeLower s.

(** The character class [[a-z0-9-]]. *)
Definition isLabelByte (c : ascii) : bool := isLower c || isDigit c || isHyphen c.

(** [regexp.MustCompile(`[^a-z0-9-]+`).ReplaceAllString(s, "-")]: every
    maximal run of bytes outside the class becomes one hyphen.  A rune
    outside ASCII is made of bytes outside ASCII only, so runs of runes
    and runs of bytes coincide. *)
Fixpoint replaceInvalidRuns_go (inRun : bool) (s : bytes) : bytes :=
  match s with
  | [] => []
  | c :: t =>
      if isLabelByte c then c :: replaceInvalidRuns_go false t
      else if inRun then replaceInvalidRuns_go true t
      else "-"%char :: replaceInvalidRuns_go true t
  end.

Definition replaceInvalidRuns (s : bytes) : bytes := replaceInvalidRuns_go false s.

(** [regexp.MustCompile(`^[0-9-]+`).ReplaceAllString(s, "")] *)
Fixpoint stripLeadingDigitsHyphens (s : bytes) : bytes :=
  match s with
  | c :: t => if isDigit c || isHyphen c then stripLeadingDigitsHyphens t else s
  | [] => []
  end.

(** *** [os.Expand] *)

Definition isShellSpecialVar (c : ascii) : bool :=
  existsb (Ascii.eqb c) (list_ascii_of_string "*#$@!?-0123456789").

Definition isAlphaNum (c : ascii) : bool :=
  Ascii.eqb c "_" || isDigit c || isLower c || isUpper c.

(** Index of the first [c] in [s] ([strings.IndexByte]). *)
Fixpoint IndexByte (s : bytes) (c : ascii) : option nat :=
  match s with
  | [] => None
  | x :: t => if Ascii.eqb x c then Some O else S <$> IndexByte t c
  end.

Fixpoint scanAlphaNum (s : bytes) : bytes :=
  match s with
  | c :: t => if isAlphaNum c then c :: scanAlphaNum t else []
  | [] => []
  end.

(** [getShellName(s)] for a non-empty [s]: the name that follows a dollar
    sign and the number of bytes it takes up. *)
Definition getShellName (s : bytes) : bytes * nat :=
  match s with
  | [] => ([], O)
  | c :: t =>
      if Ascii.eqb c "{" then
        if match t with
           | c1 :: c2 :: _ => isShellSpecialVar c1 && Ascii.eqb c2 "}"
           | _ => false
           end
        then (firstn 1 t, 3%nat)
        else
          (* scan to closing brace *)
          match IndexByte t "}" with
          | Some O => ([], 2%nat)                  (* bad syntax; eat "${}" *)
          | Some k => (firstn k t, (k + 2)%nat)
          | None => ([], 1%nat)                    (* bad syntax; eat "${" *)
          end
      else if isShellSpecialVar c then ([c], 1%nat)
      else
        (* scan alphanumerics *)
        let name := scanAlphaNum s in (name, List.length name)
  end.

(** [os.Expand(s, mapping)]; [skip] counts the bytes of the reference just
    handled that the scan still steps over ([j += w]). *)
Fixpoint Expand_go (mapping : bytes -> bytes) (skip : nat) (s : bytes) : bytes :=
  match s with
  | [] => []
  | c :: t =>
      match skip with
      | S k => Expand_go mapping k t
      | O =>
          if Ascii.eqb c "$" && negb (Nat.eqb (List.length t) 0)
          then
            let '(name, w) := getShellName t in
            match name, w with
            | [], S _ => []          (* invalid syntax; eat the characters *)
            | [], O => [c]           (* no name; leave the dollar untouched *)
            | _ :: _, _ => mapping name
            end ++ Expand_go mapping w t
          else c :: Expand_go mapping O t
      end
  end.

Definition Expand (s : bytes) (mapping : bytes -> bytes) : bytes :=
  Expand_go mapping O s.

(** No byte of [s] is [c]. *)
Definition noByte (c : ascii) (s : bytes) : Prop := Forall (fun x => x <> c) s.

End GoStrings.

(** ** The env resolver ([envvarHelper]) *)

Module Envvar.
Import GoStrings.

Section DNS.
(** The Unicode branch of [strings.ToLower]. *)
Variable unicodeLower : bytes -> bytes.

Definition makeDNSLabelSafeBytes (value : bytes) : bytes :=
  (* ensure the label is lowercase *)
  let value := ToLower unicodeLower value in
  (* replace all invalid characters with a hyphen *)
  let value := replaceInvalidRuns value in
  (* replace double hyphens with a single one *)
  let value := Replace value ["-"; "-"]%char ["-"]%char in
  (* trim hyphens from start and end *)
  let value := Trim value "-" in
  (* ensure it starts with a letter, not a digit or hyphen *)
  let value := stripLeadingDigitsHyphens value in
  let value := if (63 <? List.length value)%nat then firstn 63 value else value in
  (* trim hyphens from start and end *)
  Trim value "-".

Definition makeDNSLabelSafe (value : string) : string :=
  to_string (makeDNSLabelSafeBytes (of_string value)).
End DNS.

(** [^[a-z]([a-z0-9-]{0,61}[a-z0-9])?$] *)
Definition matchesDNSLabel (s : bytes) : bool :=
  match s with
  | [] => false
  | c :: rest =>
      isLower c &&
      match rest with
      | [] => true
      | _ :: _ =>
          (List.length rest <=? 62)%nat &&
          forallb isLabelByte (removelast rest) &&
          (let z := List.last rest "-"%char in isLower z || isDigit z)
      end
  end.

(** Every byte is in the class [[a-z0-9-]]. *)
Definition LabelBytes (s : bytes) : Prop := Forall (fun c => isLabelByte c = true) s.

(** *** The process environment *)

(** [os.Environ]: the variables of the process. *)
Abbreviation Environ := (gmap string string).

(** [os.Getenv]: the value, or the empty string when the variable is
    absent. *)
Definition Getenv (env : Environ) (key : string) : string :=
  default "" (env !! key).

Definition hasByte (c : ascii) (s : string) : bool :=
  existsb (Ascii.eqb c) (of_string s).

(** [os.Setenv] refuses ([EINVAL]) an empty key, a key with [=] or NUL in
    it, and a value with NUL in it. *)
Definition setenvValid (key value : string) : bool :=
  negb (String.eqb key "") && negb (hasByte "="%char key) &&
  negb (hasByte zero key) && negb (hasByte zero value).

Inductive error := EINVAL | ErrorString (msg : string).

Definition Setenv (key value : string) (env : Environ) : Environ * option error :=
  if setenvValid key value then (<[key := value]> env, None) else (env, Some EINVAL).

(** An assignment that [os.Setenv] accepts. *)
Definition validAssignment (kv : string * string) : Prop := setenvValid kv.1 kv.2 = true.

Section Helper.
(** [h.prefix] *)
Variable prefix : string.

Definition getZiplineeEnvvarName (key : string) : string :=
  to_string (Replace (of_string key) (of_string "ZIPLINEE_") (of_string prefix)).

Definition getZiplineeEnv (env : Environ) (key : string) : string :=
  let key := getZiplineeEnvvarName key in
  if HasPrefix (of_string key) (of_string prefix) then Getenv env key
  else "${" +:+ key +:+ "}".

Definition setZiplineeEnv (key value : string) (env : Environ) : Environ * option error :=
  let key := getZiplineeEnvvarName key in
  Setenv key value env.

(** *** Trigger events *)

(** What [reflect] shows of a field of a trigger payload: a string, or a
    value of another kind together with its [json.Marshal] text. *)
Inductive PropertyValue :=
| PString (s : string)
| POther (json : string).

(** A payload struct as [reflect] walks it: the fields in declaration
    order. *)
Definition Payload := list (string * PropertyValue).

(** [manifest.ZiplineeEvent]: [Name], [Fired], and one pointer field per
    trigger kind ([Pipeline], [Release], [Git], [Cron], [Manual], ...),
    nil when the event is of another kind.  [Name] and [Fired] are not of
    pointer kind, so the reflective walk steps over them. *)
Record ZiplineeEvent := {
  Name : string;
  Fired : bool;
  Triggers : list (string * option Payload)
}.

(** [foundation.ToUpperSnakeCase] *)
Variable ToUpperSnakeCase : string -> string.

(** The double quote, byte 34. *)
Definition quoteByte : ascii := ascii_of_nat 34.

Definition propertyEnvvarValue (v : PropertyValue) : string :=
  match v with
  | PString s => s
  | POther json => to_string (Trim (of_string json) quoteByte)
  end.

(** The body of the loop over [j]. *)
Fixpoint setPropertyEnvvars (e : ZiplineeEvent) (triggerField : string)
    (properties : Payload) (env : Environ) : Environ * option error :=
  match properties with
  | [] => (env, None)
  | (triggerPropertyField, triggerPropertyValue) :: rest =>
      let envvarName := "ZIPLINEE_TRIGGER_" +:+ ToUpperSnakeCase triggerField +:+ "_"
                        +:+ ToUpperSnakeCase triggerPropertyField in
      let envvarValue := propertyEnvvarValue triggerPropertyValue in
      let '(env, err) :=
        if Fired e then setZiplineeEnv envvarName envvarValue env else (env, None) in
      match err with
      | Some _ => (env, err)
      | None =>
          let '(env, err) :=
            if negb (String.eqb (Name e) "") then
              (* set envvar for named trigger/event, in order to have upstream
                 pipelines and release when they're not fired as well *)
              let envvarName := "ZIPLINEE_TRIGGER_" +:+ ToUpperSnakeCase (Name e) +:+ "_"
                                +:+ ToUpperSnakeCase triggerPropertyField in
              setZiplineeEnv envvarName envvarValue env
            else (env, None) in
          match err with
          | Some _ => (env, err)
          | None => setPropertyEnvvars e triggerField rest env
          end
      end
  end.

(** The body of the loop over [i]. *)
Fixpoint setTriggerEnvvars (e : ZiplineeEvent)
    (fields : list (string * option Payload)) (env : Environ) : Environ * option error :=
  match fields with
  | [] => (env, None)
  | (triggerField, triggerValue) :: rest =>
      match triggerValue with
      | None => setTriggerEnvvars e rest env      (* nil: continue *)
      | Some properties =>
          let '(env, err) := setPropertyEnvvars e triggerField properties env in
          match err with
          | Some _ => (env, err)
          | None => setTriggerEnvvars e rest env
          end
      end
  end.

Fixpoint setZiplineeEventEnvvars (events : list ZiplineeEvent) (env : Environ)
    : Environ * option error :=
  match events with
  | [] => (env, None)
  | e :: rest =>
      let '(env, err) := setTriggerEnvvars e (Triggers e) env in
      match err with
      | Some _ => (env, err)
      | None => setZiplineeEventEnvvars rest env
      end
  end.

(** The variables the code names for a payload field: what
    [setZiplineeEnv] makes of the two [envvarName]s of the loop body. *)
Definition kindVariable (kind field : string) : string :=
  getZiplineeEnvvarName
    ("ZIPLINEE_TRIGGER_" +:+ ToUpperSnakeCase kind +:+ "_" +:+ ToUpperSnakeCase field).

Definition nameVariable (e : ZiplineeEvent) (field : string) : string :=
  getZiplineeEnvvarName
    ("ZIPLINEE_TRIGGER_" +:+ ToUpperSnakeCase (Name e) +:+ "_" +:+ ToUpperSnakeCase field).

(** From the specification: the variables it names for a payload field,
    [<PREFIX>_TRIGGER_<KIND>_<FIELD>] and [<PREFIX>_TRIGGER_<NAME>_<FIELD>],
    where the prefix carries its underscore. *)
Definition claimedKindVariable (kind field : string) : string :=
  prefix +:+ "TRIGGER_" +:+ ToUpperSnakeCase kind +:+ "_" +:+ ToUpperSnakeCase field.

Definition claimedNameVariable (e : ZiplineeEvent) (field : string) : string :=
  prefix +:+ "TRIGGER_" +:+ ToUpperSnakeCase (Name e) +:+ "_" +:+ ToUpperSnakeCase field.

(** The [os.Setenv] calls that the loops come to for one field of a
    payload, in order: the kind variable when the event fired, then the name
    variable when the event has a name. *)
Definition fieldAssignments (e : ZiplineeEvent) (kind : string)
    (p : string * PropertyValue) : list (string * string) :=
  (if Fired e then [(kindVariable kind p.1, propertyEnvvarValue p.2)] else []) ++
  (if decide (Name e = "") then []
   else [(nameVariable e p.1, propertyEnvvarValue p.2)]).

Definition eventAssignments (e : ZiplineeEvent) : list (string * string) :=
  flat_map (fun f : string * option Payload =>
              match f.2 with
              | None => []
              | Some properties => flat_map (fieldAssignments e f.1) properties
              end) (Triggers e).

Definition triggerAssignments (events : list ZiplineeEvent) : list (string * string) :=
  flat_map eventAssignments events.

Definition assign (env : Environ) (kv : string * string) : Environ :=
  <[kv.1 := kv.2]> env.
End Helper.

(** A run of [os.Setenv] calls that ends at the first call refused, with
    its error. *)
Fixpoint setenvAll (l : list (string * string)) (env : Environ) : Environ * option error :=
  match l with
  | [] => (env, None)
  | kv :: rest =>
      let '(env, err) := Setenv kv.1 kv.2 env in
      match err with
      | Some _ => (env, err)
      | None => setenvAll rest env
      end
  end.

(** *** [OverrideEnvvars] *)

(** Go maps are references: [MapHeap] holds the maps of the program, a
    [MapRef] is nil or the address of one of them. *)
Abbreviation MapHeap := (list (gmap string string)).
Abbreviation MapRef := (option nat).

(** Reading through a reference; ranging over a nil map visits nothing. *)
Definition readMap (h : MapHeap) (r : MapRef) : gmap string string :=
  match r with
  | None => ∅
  | Some a => default ∅ (h !! a)
  end.

(** [for k, v := range envvarMap { envvars[k] = v }], writing through the
    address [dst].  Go visits the entries in no fixed order; the keys of one
    map are distinct, so every order writes the same map. *)
Definition copyInto (dst : nat) (src : gmap string string) (h : MapHeap) : MapHeap :=
  foldr (fun kv h => alter (fun m => <[kv.1 := kv.2]> m) dst h) h (map_to_list src).

Fixpoint overrideLoop (dst : nat) (envvarMaps : list MapRef) (h : MapHeap) : MapHeap :=
  match envvarMaps with
  | [] => h
  | r :: rest => overrideLoop dst rest (copyInto dst (readMap h r) h)
  end.

(** [envvars = make(map[string]string)] allocates a fresh map; the result is
    its address and the heap after the loops. *)
Definition OverrideEnvvars (envvarMaps : list MapRef) (h : MapHeap) : nat * MapHeap :=
  let envvars := List.length h in
  (envvars, overrideLoop envvars envvarMaps (h ++ [∅])).

(** A reference is nil or the address of a map of the heap. *)
Definition validRef (h : MapHeap) (r : MapRef) : Prop :=
  match r with
  | None => True
  | Some a => (a < List.length h)%nat
  end.

(** The merge of the maps read so far, the later ones on the left of the
    left-biased union. *)
Definition merged (h : MapHeap) (refs : list MapRef) (acc : gmap string string)
    : gmap string string :=
  foldl (fun acc r => readMap h r ∪ acc) acc refs.

End Envvar.

(** ** The when-evaluator ([whenEvaluator]) *)

Module When.
Import GoStrings Envvar.

(** A Go [interface{}] as the expression library hands it back. *)
Inductive GoValue :=
| VNil
| VBool (b : bool)
| VFloat64 (bits : Z)
| VString (s : string)
| VOther.

Definition errEmpty : error := ErrorString "When expression is empty".
Definition errNotBoolean : error :=
  ErrorString "Result of evaluating when expression is not of type boolean".

Section Evaluator.
(** [we.envvarHelper]: its prefix and the process environment it reads. *)
Variable prefix : string.
Variable env : Environ.

(** The expression library ([govaluate]). *)
Variable EvaluableExpression : Type.
Variable NewEvaluableExpression : string -> EvaluableExpression + error.
Variable ExpressionEvaluate :
  EvaluableExpression -> gmap string GoValue -> GoValue * option error.

(** [os.Expand(input, we.envvarHelper.getZiplineeEnv)] *)
Definition expandInput (input : string) : string :=
  to_string (Expand (of_string input)
               (fun name => of_string (getZiplineeEnv prefix env (to_string name)))).

Definition Evaluate (pipelineName input : string) (parameters : gmap string GoValue)
    : bool * option error :=
  if String.eqb input "" then (false, Some errEmpty)
  else
    (* replace ziplinee envvars in when clause *)
    let input := expandInput input in
    match NewEvaluableExpression input with
    | inr err => (false, Some err)
    | inl expression =>
        let '(r, err) := ExpressionEvaluate expression parameters in
        match r with
        | VBool result => (result, err)
        | _ => (false, Some errNotBoolean)
        end
    end.
End Evaluator.

(** An expression cut into literal text and [${VAR}] references. *)
Inductive Segment :=
| Lit (text : string)
| Ref (name : string).

Definition renderSegment (seg : Segment) : bytes :=
  match seg with
  | Lit text => of_string text
  | Ref name => "$"%char :: "{"%char :: of_string name ++ ["}"%char]
  end.

Definition render (segs : list Segment) : string :=
  to_string (concat (map renderSegment segs)).

(** Literal text has no dollar sign; a name is not empty and has no closing
    brace. *)
Definition wfSegment (seg : Segment) : bool :=
  match seg with
  | Lit text => negb (hasByte "$" text)
  | Ref name => negb (String.eqb name "") && negb (hasByte "}" name)
  end.

(** What a segment of the expression becomes once expanded. *)
Definition expandSegment (prefix : string) (env : Environ) (seg : Segment) : bytes :=
  match seg with
  | Lit text => of_string text
  | Ref name => of_string (getZiplineeEnv prefix env name)
  end.

End When.

(** ** The end-of-life reporter ([endOfLifeHelper]) *)

Module Reporter.
Import Envvar.

(** [time.Time] without a monotonic reading, in nanoseconds since the
    epoch. *)
Abbreviation Time := Z.

(** [err.Error()] *)
Definition Error (e : error) : string :=
  match e with
  | EINVAL => "invalid argument"
  | ErrorString msg => msg
  end.

(** Modelled from the spec: the log records of the contracts library, which
    is not part of this repository.  [LogStatus] is a string type; the code
    writes the failed status as the literal ["FAILED"]. *)
Abbreviation LogStatus := string.
Definition LogStatusSucceeded : LogStatus := "SUCCEEDED".
Definition LogStatusFailed : LogStatus := "FAILED".

Record BuildLogLine := {
  LineNumber : Z;
  Timestamp : Time;
  StreamType : string;
  Text : string
}.

(** A step pointer ([*contracts.BuildLogStep]) is an address into the heap
    of steps; an address outside the heap stands for nil. *)
Abbreviation StepPtr := nat.

Record BuildLogStep := {
  Step : string;
  Depth : Z;
  LogLines : list BuildLogLine;
  ExitCode : Z;
  Status : LogStatus;
  NestedSteps : list StepPtr
}.

Record BuildLog := {
  ID : string;
  RepoSource : string;
  RepoOwner : string;
  RepoName : string;
  RepoBranch : string;
  RepoRevision : string;
  Steps : list StepPtr;
  InsertedAt : Time
}.

Inductive JobType := JobTypeBuild | JobTypeRelease | JobTypeBot | JobTypeUnknown.

Record CIServerConfig := {
  BaseURL : string;
  BuilderEventsURL : string;
  PostLogsURL : string;
  CancelJobURL : string;
  JWT : string;
  JWTExpiry : Time
}.

(** The fields of [contracts.BuilderConfig] that the reporter reads;
    pointers are options. *)
Record BuilderConfig := {
  ConfigJobType : JobType;
  JobName : option string;
  CIServer : option CIServerConfig;
  ReleaseID : option string;     (* [config.Release], by its [ID] *)
  BotID : option string          (* [config.Bot], by its [ID] *)
}.

Inductive BuildEventType := BuildEventTypeUpdateStatus | BuildEventTypeClean.

(** The three envelopes of the logs endpoint. *)
Inductive LogEnvelope :=
| BuildLogEnvelope
| ReleaseLogEnvelope (releaseID : string)
| BotLogEnvelope (botID : string).

(** The body of a logs request is the JSON of the log with every step
    pointer followed: it is determined by the log and the heap of steps at
    the time of [json.Marshal]. *)
Record LogPayload := {
  envelope : LogEnvelope;
  log : BuildLog;
  memory : list BuildLogStep
}.

(** The entries of [Steps] of a payload, in order; a nil pointer marshals
    as [null].  These are the steps listed at the top of the log: the steps
    nested under them are reached through [NestedSteps]. *)
Definition listedSteps (p : LogPayload) : list (option BuildLogStep) :=
  map (fun a => memory p !! a) (Steps (log p)).

(** The steps that a log with the entries [roots] holds in the heap [h]:
    the entries themselves and, under every step held, the steps its
    [NestedSteps] point to.  [json.Marshal] writes them all. *)
Inductive reaches (h : list BuildLogStep) (roots : list StepPtr) : StepPtr -> Prop :=
| reaches_listed a : a ∈ roots -> reaches h roots a
| reaches_nested a s b :
    reaches h roots a -> h !! a = Some s -> b ∈ NestedSteps s -> reaches h roots b.

(** Every step of a payload, nested ones included. *)
Definition carries (p : LogPayload) (a : StepPtr) : Prop :=
  reaches (memory p) (Steps (log p)) a.

(** A request handed to the HTTP client. *)
Inductive Request :=
| PostEvent (eventType : BuildEventType) (status : LogStatus) (jobName podName : string)
| PostLogs (payload : LogPayload)
| DeleteJob.

(** What the reporter can change: the heap of steps, the requests made so
    far, and the number of clock readings taken. *)
Record World := {
  heap : list BuildLogStep;
  requests : list Request;
  ticks : nat
}.

(** A call returns, panics (nil dereference), or ends the process. *)
Inductive Outcome (A : Type) :=
| Returned (a : A) (w : World)
| Panicked (w : World)
| Exited (code : Z) (w : World).
Arguments Returned {A} a w.
Arguments Panicked {A} w.
Arguments Exited {A} code w.

Definition M (A : Type) := World -> Outcome A.

Definition ret {A} (a : A) : M A := fun w => Returned a w.

Definition bind {A B} (m : M A) (k : A -> M B) : M B :=
  fun w =>
    match m w with
    | Returned a w' => k a w'
    | Panicked w' => Panicked w'
    | Exited code w' => Exited code w'
    end.

#[global] Instance M_ret : MRet M := @ret.
#[global] Instance M_bind : MBind M := fun A B k m => bind m k.

Definition panic {A} : M A := fun w => Panicked w.
Definition osExit {A} (code : Z) : M A := fun w => Exited code w.

(** Dereference of a pointer of the configuration. *)
Definition deref {A} (p : option A) : M A :=
  match p with
  | Some a => ret a
  | None => panic
  end.

Definition load (a : StepPtr) : M BuildLogStep :=
  fun w => match heap w !! a with
           | Some s => Returned s w
           | None => Panicked w
           end.

Definition store (a : StepPtr) (s : BuildLogStep) : M unit :=
  fun w => Returned tt {| heap := <[a := s]> (heap w); requests := requests w; ticks := ticks w |}.

(** [&fatalStep]: the step moves to the heap. *)
Definition alloc (s : BuildLogStep) : M StepPtr :=
  fun w => Returned (List.length (heap w))
             {| heap := heap w ++ [s]; requests := requests w; ticks := ticks w |}.

Definition snapshot : M (list BuildLogStep) := fun w => Returned (heap w) w.

Definition setLogLines (s : BuildLogStep) (lines : list BuildLogLine) : BuildLogStep :=
  {| Step := Step s; Depth := Depth s; LogLines := lines; ExitCode := ExitCode s;
     Status := Status s; NestedSteps := NestedSteps s |}.

Definition setSteps (l : BuildLog) (steps : list StepPtr) : BuildLog :=
  {| ID := ID l; RepoSource := RepoSource l; RepoOwner := RepoOwner l;
     RepoName := RepoName l; RepoBranch := RepoBranch l; RepoRevision := RepoRevision l;
     Steps := steps; InsertedAt := InsertedAt l |}.

Definition truncationMarker : string :=
  "Truncated logs for reducing total log size; to prevent this use less verbose logging".

(** *** Vocabulary of the statements about the reporter *)

(** The world with another heap, with one more request, with more requests. *)
Definition withHeap (w : World) (h : list BuildLogStep) : World :=
  {| heap := h; requests := requests w; ticks := ticks w |}.

Definition withRequest (w : World) (r : Request) : World :=
  {| heap := heap w; requests := requests w ++ [r]; ticks := ticks w |}.

Definition withRequests (w : World) (rs : list Request) : World :=
  {| heap := heap w; requests := requests w ++ rs; ticks := ticks w |}.

(** The line that stands for the lines of a succeeded step. *)
Definition markerLine (first : BuildLogLine) : BuildLogLine :=
  {| LineNumber := LineNumber first; Timestamp := Timestamp first;
     StreamType := "stdout"; Text := truncationMarker |}.

(** What one pass of the loop does to the step it visits. *)
Definition slimStep (s : BuildLogStep) : BuildLogStep :=
  if String.eqb (Status s) LogStatusSucceeded then
    match LogLines s with
    | first :: _ => setLogLines s [markerLine first]
    | [] => s
    end
  else s.

(** The heap after the loop has visited [steps]. *)
Definition slimHeap (h : list BuildLogStep) (steps : list StepPtr) : list BuildLogStep :=
  foldl (fun h a => alter slimStep a h) h steps.

(** No step pointer is nil. *)
Definition validPtrs (w : World) (steps : list StepPtr) : Prop :=
  Forall (fun a => (a < List.length (heap w))%nat) steps.

(** The logs request made for [buildLog] in the world [w]. *)
Definition logsRequest (env : LogEnvelope) (buildLog : BuildLog) (w : World) : Request :=
  PostLogs {| envelope := env; log := buildLog; memory := heap w |}.

(** A logs request that carries the steps of [buildLog]. *)
Definition isLogsRequestOf (buildLog : BuildLog) (r : Request) : Prop :=
  exists p, r = PostLogs p /\ Steps (log p) = Steps buildLog.

(** A call that never ends the process, and one that never returns to its
    caller. *)
Definition neverExits {A} (m : M A) : Prop :=
  forall w code w', m w <> Exited code w'.

Definition neverReturns {A} (m : M A) : Prop :=
  forall w a w', m w <> Returned a w'.

(** The synthetic step of [HandleFatal]. *)
Definition fatalStepOf (logLines : list BuildLogLine) : BuildLogStep :=
  {| Step := "init"; Depth := 0; LogLines := logLines; ExitCode := -1;
     Status := LogStatusFailed; NestedSteps := [] |}.

Section Helper.
(** The fields of [endOfLifeHelper]. *)
Variable runAsJob : bool.
Variable config : BuilderConfig.
Variable podName : string.

(** The network: whether creating and performing a request fails, given
    the requests made before it. *)
Variable httpDo : list Request -> Request -> option error.
(** The clock: the successive readings of [time.Now().UTC()]. *)
Variable timeNow : nat -> Time.

Definition now : M Time :=
  fun w => Returned (timeNow (ticks w))
             {| heap := heap w; requests := requests w; ticks := S (ticks w) |}.

Definition perform (r : Request) : M (option error) :=
  fun w => Returned (httpDo (requests w) r)
             {| heap := heap w; requests := requests w ++ [r]; ticks := ticks w |}.

Definition nonEmpty (s : string) : bool := negb (String.eqb s "").

Definition sendBuilderEvent (buildStatus : LogStatus) (buildEventType : BuildEventType)
    : M (option error) :=
  ci ← deref (CIServer config);
  let ciServerBuilderEventsURL := BuilderEventsURL ci in
  let jwt := JWT ci in
  jobName ← deref (JobName config);
  if nonEmpty ciServerBuilderEventsURL && nonEmpty jwt && nonEmpty jobName
  then perform (PostEvent buildEventType buildStatus jobName podName)
  else ret None.


Definition SendBuildFinishedEvent (buildStatus : LogStatus) : M (option error) :=
  sendBuilderEvent buildStatus BuildEventTypeUpdateStatus.

Definition SendBuildCleanEvent (buildStatus : LogStatus) : M (option error) :=
  sendBuilderEvent buildStatus BuildEventTypeClean.

Definition SendBuildJobLogEventCore (buildLog : BuildLog) : M (option error) :=
  ci ← deref (CIServer config);
  let ciServerBuilderPostLogsURL := PostLogsURL ci in
  let jwt := JWT ci in
  jobName ← deref (JobName config);
  if nonEmpty ciServerBuilderPostLogsURL && nonEmpty jwt && nonEmpty jobName
  then
    env ← match ConfigJobType config with
           | JobTypeRelease =>
               (* copy buildLog to releaseLog and marshal that *)
               id ← deref (ReleaseID config); ret (ReleaseLogEnvelope id)
           | JobTypeBot =>
               (* copy buildLog to botLog and marshal that *)
               id ← deref (BotID config); ret (BotLogEnvelope id)
           | _ => ret BuildLogEnvelope
           end;
    mem ← snapshot;
    perform (PostLogs {| envelope := env; log := buildLog; memory := mem |})
  else ret None.

(** The loop that strips log lines from successful steps.  [slimBuildLogStep]
    is the pointer [s] itself, so the assignment writes the caller's step. *)
Fixpoint slimLoop (steps : list StepPtr) (slimSteps : list StepPtr) : M (list StepPtr) :=
  match steps with
  | [] => ret slimSteps
  | s :: rest =>
      let slimBuildLogStep := s in
      step ← load s;
      (if String.eqb (Status step) LogStatusSucceeded then
         match LogLines step with
         | first :: _ =>
             store slimBuildLogStep
               (setLogLines step
                  [ {| LineNumber := LineNumber first;
                       Timestamp := Timestamp first;
                       StreamType := "stdout";
                       Text := truncationMarker |} ])
         | [] => ret tt
         end
       else ret tt) ;;
      slimLoop rest (slimSteps ++ [slimBuildLogStep])
  end.

Definition SendBuildJobLogEvent (buildLog : BuildLog) : M (option error) :=
  err ← SendBuildJobLogEventCore buildLog;
  match err with
  | None => ret None
  | Some _ =>
      (* strip log lines from successful steps to reduce size of the logs
         and still keep the useful information *)
      steps ← slimLoop (Steps buildLog) [];
      let slimBuildLog := setSteps buildLog steps in
      SendBuildJobLogEventCore slimBuildLog
  end.


Definition stderrLine (lineNumber : Z) (t : Time) (text : string) : BuildLogLine :=
  {| LineNumber := lineNumber; Timestamp := t; StreamType := "stderr"; Text := text |}.

Definition HandleFatal (buildLog : BuildLog) (err : option error) (message : string)
    : M unit :=
  (* add error messages as step to show in logs *)
  let lineNumber := 1 in
  '(logLines, lineNumber) ←
    match err with
    | Some e => t ← now; ret ([stderrLine lineNumber t (Error e)], lineNumber + 1)
    | None => ret ([], lineNumber)
    end;
  logLines ←
    (if nonEmpty message
     then t ← now; ret (logLines ++ [stderrLine lineNumber t message])
     else ret logLines);
  fatalStep ← alloc {| Step := "init"; Depth := 0; LogLines := logLines;
                        ExitCode := -1; Status := "FAILED"; NestedSteps := [] |};
  let buildLog := setSteps buildLog (Steps buildLog ++ [fatalStep]) in
  SendBuildFinishedEvent LogStatusFailed ;;
  SendBuildJobLogEvent buildLog ;;
  SendBuildCleanEvent LogStatusFailed ;;
  if runAsJob then osExit 0      (* os.Exit(0) *)
  else osExit 1.                 (* log.Fatal *)

(** The configuration lets the logs endpoint be used, with this
    envelope. *)
Definition sendsLogs (env : LogEnvelope) : Prop :=
  exists ci jobName,
    CIServer config = Some ci /\ JobName config = Some jobName /\
    nonEmpty (PostLogsURL ci) && nonEmpty (JWT ci) && nonEmpty jobName = true /\
    match ConfigJobType config with
    | JobTypeRelease => exists id, ReleaseID config = Some id /\ env = ReleaseLogEnvelope id
    | JobTypeBot => exists id, BotID config = Some id /\ env = BotLogEnvelope id
    | _ => env = BuildLogEnvelope
    end.

(** No pointer of the configuration that the reporter follows is nil. *)
Definition wfConfig : Prop :=
  is_Some (CIServer config) /\ is_Some (JobName config) /\
  (ConfigJobType config = JobTypeRelease -> is_Some (ReleaseID config)) /\
  (ConfigJobType config = JobTypeBot -> is_Some (BotID config)).

(** The request of a lifecycle event, or none when the events endpoint is
    not configured. *)
Definition eventRequests (buildEventType : BuildEventType) (buildStatus : LogStatus)
    : list Request :=
  match CIServer config, JobName config with
  | Some ci, Some jobName =>
      if nonEmpty (BuilderEventsURL ci) && nonEmpty (JWT ci) && nonEmpty jobName
      then [PostEvent buildEventType buildStatus jobName podName]
      else []
  | _, _ => []
  end.

(** The lines of the synthetic step, given the clock readings taken. *)
Definition fatalLogLines (err : option error) (message : string) (tick : nat)
    : list BuildLogLine :=
  match err with
  | Some e =>
      stderrLine 1 (timeNow tick) (Error e) ::
      (if nonEmpty message then [stderrLine 2 (timeNow (S tick)) message] else [])
  | None =>
      if nonEmpty message then [stderrLine 1 (timeNow tick) message] else []
  end.

End Helper.

End Reporter.

(** ** Fragments of [RunZiplineeBuildJob] *)

Module CIBuilder.

(** *** The timer that cancels the job before the token expires *)

Abbreviation Time := Z.
Abbreviation Duration := Z.

Definition Minute : Duration := 60 * 1000000000.
Definition minDuration : Duration := - 2 ^ 63.
Definition maxDuration : Duration := 2 ^ 63 - 1.

(** [t.Add(d)]: a new time; [t] itself is a value and does not change. *)
Definition Add (t : Time) (d : Duration) : Time := t + d.

(** [t.Sub(u)], which saturates at the ends of [Duration]. *)
Definition Sub (t u : Time) : Duration :=
  Z.max minDuration (Z.min maxDuration (t - u)).

(** The duration the cancellation timer is armed with. *)
Definition cancelTimerDuration (jwtExpiry now : Time) : Duration :=
  (* cancel 15 minutes before jwt expires *)
  let expiryTime := jwtExpiry in
  let _ := Add expiryTime (-15 * Minute) in      (* the result is dropped *)
  let expiryDuration := Sub expiryTime now in
  expiryDuration.

(** What the comment in the code and the specification ask for. *)
Definition intendedTimerDuration (jwtExpiry now : Time) : Duration :=
  Sub (Add jwtExpiry (-15 * Minute)) now.

(** *** The guard around [CreateDockerClient] *)

(** Modelled from the spec: the builder type of the manifest library, a
    string type, and its constant for Kubernetes. *)
Abbreviation BuilderType := string.
Definition BuilderTypeKubernetes : BuilderType := "kubernetes".
Definition BuilderTypeDocker : BuilderType := "docker".

Record ZiplineeManifest := { BuilderBuilderType : BuilderType }.

(** Go's [a || b]: [b] is evaluated only when [a] is false.  [None] is a
    nil-pointer panic. *)
Definition orElse (a : bool) (b : unit -> option bool) : option bool :=
  if a then Some true else b tt.

Definition andAlso (a : bool) (b : unit -> option bool) : option bool :=
  if a then b tt else Some false.

(** [builderConfig.Manifest.Builder.BuilderType != manifest.BuilderTypeKubernetes] *)
Definition notKubernetes (m : option ZiplineeManifest) : option bool :=
  match m with
  | Some m => Some (negb (String.eqb (BuilderBuilderType m) BuilderTypeKubernetes))
  | None => None
  end.

(** The condition of the [if] around [containerRunner.CreateDockerClient()]:
    [builderConfig.Manifest != nil || builderConfig.Manifest.Builder.BuilderType != manifest.BuilderTypeKubernetes]. *)
Definition createDockerClientGuard (m : option ZiplineeManifest) : option bool :=
  orElse (bool_decide (m <> None)) (fun _ => notKubernetes m).

(** The guard the specification asks for: short-circuit on a nil manifest,
    and create the client unless the builder type is Kubernetes. *)
Definition intendedGuard (m : option ZiplineeManifest) : option bool :=
  andAlso (bool_decide (m <> None)) (fun _ => notKubernetes m).

(** A manifest that asks for the Kubernetes builder. *)
Definition kubernetesManifest : ZiplineeManifest :=
  {| BuilderBuilderType := BuilderTypeKubernetes |}.

End CIBuilder.

(** ** Inputs used to run the model *)

Module Examples.
Import GoStrings Envvar When Reporter.

(** A stand-in for the expression library, enough to run [Evaluate]. *)
Definition toyEvaluate (expression : string) (_ : gmap string GoValue)
    : GoValue * option error :=
  if String.eqb expression "'main' == 'main'" then (VBool true, None)
  else (VString expression, None).

(** The events of the tests: a fired pipeline trigger, and a named one that
    did not fire.  The stand-in for [ToUpperSnakeCase] leaves names, given
    in upper snake case here, as they are. *)
Definition firedPipeline : ZiplineeEvent :=
  {| Name := ""; Fired := true;
     Triggers := [("PIPELINE", Some [("BRANCH", PString "main");
                                      ("STATUS", PString "succeeded")]);
                  ("RELEASE", None)] |}.

(** An upstream pipeline named after its repository, which did not fire. *)
Definition ciApiPipeline : ZiplineeEvent :=
  {| Name := "ZIPLINEE_CI_API"; Fired := false;
     Triggers := [("PIPELINE", Some [("BRANCH", PString "main")])] |}.

(** A fired git trigger whose repository name has a NUL byte in it. *)
Definition gitWithNul : ZiplineeEvent :=
  {| Name := ""; Fired := true;
     Triggers := [("GIT", Some [("EVENT", PString "push");
                                 ("REPOSITORY", PString (String zero "repo"));
                                 ("BRANCH", PString "main")])] |}.

Definition namedPipeline : ZiplineeEvent :=
  {| Name := "UPSTREAM"; Fired := false;
     Triggers := [("PIPELINE", Some [("BRANCH", PString "main");
                                      ("TIME", POther (String quoteByte
                                                         ("2009-11-17T20:34:58Z" +:+
                                                          String quoteByte "")))]);
                  ("RELEASE", None)] |}.

Definition exampleConfig : BuilderConfig :=
  {| ConfigJobType := JobTypeBuild;
     JobName := Some "build-ziplinee-ci-builder";
     CIServer := Some {| BaseURL := "https://ci.example.com";
                         BuilderEventsURL := "https://ci.example.com/api/commands";
                         PostLogsURL := "https://ci.example.com/api/logs";
                         CancelJobURL := "https://ci.example.com/api/cancel";
                         JWT := "token";
                         JWTExpiry := 3600 |};
     ReleaseID := None;
     BotID := None |}.

(** Every logs request fails; every other request goes through. *)
Definition logsEndpointDown (_ : list Request) (r : Request) : option error :=
  match r with
  | PostLogs _ => Some (ErrorString "context deadline exceeded")
  | _ => None
  end.

Definition line (n : Z) (text : string) : BuildLogLine :=
  {| LineNumber := n; Timestamp := 1000 + n; StreamType := "stdout"; Text := text |}.

Definition buildStep : BuildLogStep :=
  {| Step := "build"; Depth := 0; LogLines := [line 1 "go build"; line 2 "ok"];
     ExitCode := 0; Status := LogStatusSucceeded; NestedSteps := [] |}.

Definition testStep : BuildLogStep :=
  {| Step := "test"; Depth := 0; LogLines := [line 1 "FAIL"];
     ExitCode := 1; Status := LogStatusFailed; NestedSteps := [] |}.

(** A step that succeeded without printing anything. *)
Definition quietStep : BuildLogStep :=
  {| Step := "quiet"; Depth := 0; LogLines := [];
     ExitCode := 0; Status := LogStatusSucceeded; NestedSteps := [] |}.

Definition exampleWorld : World :=
  {| heap := [buildStep; testStep; quietStep]; requests := []; ticks := O |}.

Definition exampleLog : BuildLog :=
  {| ID := ""; RepoSource := "github.com"; RepoOwner := "ziplineeci";
     RepoName := "ziplinee-ci-builder"; RepoBranch := "main"; RepoRevision := "f00d";
     Steps := [0; 1; 2]%nat; InsertedAt := 0 |}.

Definition exampleClock (tick : nat) : Time := 5000 + Z.of_nat tick.

(** A stage with a nested step: both succeeded, and the nested one holds
    three lines.  The log lists the stage only. *)
Definition parentStep : BuildLogStep :=
  {| Step := "stage"; Depth := 0; LogLines := [line 1 "running 1 nested step"];
     ExitCode := 0; Status := LogStatusSucceeded; NestedSteps := [1%nat] |}.

Definition childStep : BuildLogStep :=
  {| Step := "lint"; Depth := 1;
     LogLines := [line 1 "go vet ./..."; line 2 "golint ./..."; line 3 "ok"];
     ExitCode := 0; Status := LogStatusSucceeded; NestedSteps := [] |}.

Definition nestedWorld : World :=
  {| heap := [parentStep; childStep]; requests := []; ticks := O |}.

Definition nestedLog : BuildLog :=
  {| ID := ""; RepoSource := "github.com"; RepoOwner := "ziplineeci";
     RepoName := "ziplinee-ci-builder"; RepoBranch := "main"; RepoRevision := "f00d";
     Steps := [0%nat]; InsertedAt := 0 |}.

End Examples.

(** ** The remote origin of a checkout *)

Module Origin.
Import GoStrings.

(** The longest prefix of [s] whose bytes satisfy [p], and the rest: what a
    greedy [[...]+] takes when the byte after it cannot belong to the
    class. *)
Fixpoint span (p : ascii -> bool) (s : bytes) : bytes * bytes :=
  match s with
  | c :: t =>
      if p c then let '(taken, rest) := span p t in (c :: taken, rest)
      else ([], s)
  | [] => ([], [])
  end.

Definition isColon (c : ascii) : bool := Ascii.eqb c ":".
Definition isSlash (c : ascii) : bool := Ascii.eqb c "/".

(** [[^:\/]] and [[^\/]] *)
Definition notColonSlash (c : ascii) : bool := negb (isColon c || isSlash c).
Definition notSlash (c : ascii) : bool := negb (isSlash c).

Definition dotGit : bytes := of_string ".git".

(** [([^\/]+)\.git] inside a run of bytes that are not slashes: the greedy
    group gives back bytes until [.git] follows it, so it ends at the last
    [.git] of the run that has at least one byte before it. *)
Fixpoint splitLastDotGit (run : bytes) : option bytes :=
  match run with
  | [] => None
  | c :: t =>
      match splitLastDotGit t with
      | Some name => Some (c :: name)
      | None => if HasPrefix t dotGit then Some [c] else None
      end
  end.

(** [(git@|https://)] at the start of the text. *)
Definition matchScheme (origin : bytes) : option (bytes * bytes) :=
  if HasPrefix origin (of_string "git@")
  then Some (of_string "git@", drop 4 origin)
  else if HasPrefix origin (of_string "https://")
  then Some (of_string "https://", drop 8 origin)
  else None.

(** [regexp.MustCompile(`^(git@|https://)([^:\/]+)(:|/)([^\/]+)/([^\/]+)\.git`).FindStringSubmatch(origin)]
    without the whole match: the five groups, or [None] when the text does
    not match.  Each class excludes the byte that has to follow it, so the
    first four groups have one way to match. *)
Definition FindOriginSubmatch (origin : bytes) : option (list bytes) :=
  match matchScheme origin with
  | None => None
  | Some (scheme, rest) =>
      let '(host, rest) := span notColonSlash rest in
      match host, rest with
      | _ :: _, sep :: rest =>
          if isColon sep || isSlash sep then
            let '(owner, rest) := span notSlash rest in
            match owner, rest with
            | _ :: _, slash :: rest =>
                if isSlash slash then
                  let '(run, _) := span notSlash rest in
                  match splitLastDotGit run with
                  | Some name => Some [scheme; host; [sep]; owner; name]
                  | None => None
                  end
                else None
            | _, _ => None
            end
          else None
      | _, _ => None
      end
  end.

(** [match[i]] for [i] from 1 to 5, after the test [len(match) < 6]. *)
Definition originGroup (i : nat) (origin : string) : string :=
  match FindOriginSubmatch (of_string origin) with
  | None => ""
  | Some groups => to_string (nth (i - 1) groups [])
  end.

Definition getSourceFromOrigin (origin : string) : string := originGroup 2 origin.
Definition getOwnerFromOrigin (origin : string) : string := originGroup 4 origin.
Definition getNameFromOrigin (origin : string) : string := originGroup 5 origin.

End Origin.

(** ** More of the env resolver: collecting, unsetting, labels, secrets *)

Module EnvvarHelper.
Import GoStrings Envvar.

(** [os.Unsetenv]: on Unix it has no way to fail. *)
Definition Unsetenv (key : string) (env : Environ) : Environ * option error :=
  (delete key env, None).

(** [os.Environ]: one string [key=value] per variable. *)
Definition osEnviron (env : Environ) : list string :=
  (fun kv : string * string => kv.1 +:+ "=" +:+ kv.2) <$> map_to_list env.

(** [strings.SplitN(s, sep, 2)] for a separator of one byte: the text before
    the first separator and the text behind it, or the text alone. *)
Definition SplitN2 (s : bytes) (sep : ascii) : list bytes :=
  match IndexByte s sep with
  | Some i => [take i s; drop (S i) s]
  | None => [s]
  end.

(** [for k, v := range m]: Go visits the entries of a map in an order of its
    choice; [rangeOrder m visited] holds of the orders it can choose. *)
Definition rangeOrder (m : gmap string string) (visited : list (string * string)) : Prop :=
  visited ≡ₚ map_to_list m.

(** No name of a variable has an equals sign in it, as in every
    environment a process is started with on Unix and [os.Setenv] keeps. *)
Definition wfEnviron (env : Environ) : Prop :=
  forall k v, env !! k = Some v -> hasByte "=" k = false.

Section Helper.
(** [h.prefix] *)
Variable prefix : string.
(** [foundation.ToUpperSnakeCase] *)
Variable ToUpperSnakeCase : string -> string.
(** [h.secretHelper.DecryptAllEnvelopes] *)
Variable DecryptAllEnvelopes : string -> string -> string * option error.

(** The name starts with the prefix ([strings.HasPrefix]). *)
Definition scoped (name : string) : bool :=
  HasPrefix (of_string name) (of_string prefix).

(** The body of the loop of [collectZiplineeEnvvars]. *)
Definition collectEntry (envvars : gmap string string) (e : string) : gmap string string :=
  let kvPair := SplitN2 (of_string e) "=" in
  match kvPair with
  | [envvarName; envvarValue] =>
      if HasPrefix envvarName (of_string prefix)
      then <[to_string envvarName := to_string envvarValue]> envvars
      else envvars
  | _ => envvars
  end.

Definition collectZiplineeEnvvars (env : Environ) : gmap string string :=
  foldl collectEntry ∅ (osEnviron env).

Definition unsetZiplineeEnv (key : string) (env : Environ) : Environ * option error :=
  let key := getZiplineeEnvvarName prefix key in
  Unsetenv key env.

(** The loop of [UnsetZiplineeEnvvars] over the keys in the order visited;
    an error is logged and the loop goes on. *)
Fixpoint unsetLoop (visited : list (string * string)) (env : Environ) : Environ :=
  match visited with
  | [] => env
  | (key, _) :: rest =>
      let '(env, err) := unsetZiplineeEnv key env in
      unsetLoop rest env
  end.

(** [visited] is the order in which the loop ranges over
    [envvarsToUnset]. *)
Definition UnsetZiplineeEnvvars (visited : list (string * string)) (env : Environ) : Environ :=
  unsetLoop visited env.

(** [m.Labels] of the manifest; a nil map and an empty map are both the
    empty map here, and the code treats them alike. *)
Record ZiplineeManifest := {
  Labels : gmap string string
}.

(** The variable of a label. *)
Definition labelVariable (key : string) : string :=
  getZiplineeEnvvarName prefix ("ZIPLINEE_LABEL_" +:+ ToUpperSnakeCase key).

(** The [os.Setenv] calls of the loop over the labels, in the order
    visited. *)
Definition labelAssignments (visited : list (string * string)) : list (string * string) :=
  (fun kv : string * string => (labelVariable kv.1, kv.2)) <$> visited.

Fixpoint initLabelsLoop (visited : list (string * string)) (env : Environ)
    : Environ * option error :=
  match visited with
  | [] => (env, None)
  | (key, value) :: rest =>
      let envvarName := "ZIPLINEE_LABEL_" +:+ ToUpperSnakeCase key in
      let '(env, err) := setZiplineeEnv prefix envvarName value env in
      match err with
      | Some _ => (env, err)
      | None => initLabelsLoop rest env
      end
  end.

(** [visited] is the order in which the loop ranges over [m.Labels]. *)
Definition initLabels (m : ZiplineeManifest) (visited : list (string * string))
    (env : Environ) : Environ * option error :=
  (* set labels as envvars *)
  if negb (Nat.eqb (size (Labels m)) 0) then initLabelsLoop visited env
  else (env, None).

(** The map returned is nil (here [None]) when an error is. *)
Definition CollectZiplineeEnvvarsAndLabels (m : ZiplineeManifest)
    (visited : list (string * string)) (env : Environ)
    : Environ * option (gmap string string) * option error :=
  (* set labels as envvars *)
  let '(env, err) := initLabels m visited env in
  match err with
  | Some _ => (env, None, err)
  | None =>
      (* return all envvars starting with ZIPLINEE_ *)
      (env, Some (collectZiplineeEnvvars env), None)
  end.

Definition decryptSecret (encryptedValue pipeline : string) : string :=
  let '(decryptedValue, err) := DecryptAllEnvelopes encryptedValue pipeline in
  match err with
  | Some _ => encryptedValue       (* a warning is logged *)
  | None => decryptedValue
  end.

(** [decryptSecrets] on the heap of maps: the argument itself comes back
    when it is nil or empty, a map made afresh otherwise.  The entries of
    one map have distinct keys, so every order of the loop writes the same
    map. *)
Definition decryptSecrets (encryptedEnvvars : MapRef) (pipeline : string) (h : MapHeap)
    : MapRef * MapHeap :=
  if Nat.eqb (size (readMap h encryptedEnvvars)) 0 then (encryptedEnvvars, h)
  else
    let envvars := List.length h in
    (Some envvars,
     foldr (fun kv h => alter (fun m => <[kv.1 := decryptSecret kv.2 pipeline]> m) envvars h)
           (h ++ [∅]) (map_to_list (readMap h encryptedEnvvars))).

End Helper.

End EnvvarHelper.

(** ** The parameters of a when clause *)

Module WhenParameters.
Import GoStrings Envvar When.

Section Evaluator.
(** [we.envvarHelper]: its prefix, the process environment it reads, and
    its [ciServer] field. *)
Variable prefix : string.
Variable env : Environ.
Variable ciServer : string.

(** The map is made afresh and filled key by key, in this order. *)
Definition GetParameters : gmap string GoValue :=
  let parameters : gmap string GoValue := ∅ in
  let parameters :=
    <["branch" := VString (getZiplineeEnv prefix env "ZIPLINEE_GIT_BRANCH")]> parameters in
  let parameters :=
    <["trigger" := VString (getZiplineeEnv prefix env "ZIPLINEE_TRIGGER")]> parameters in
  let parameters :=
    <["status" := VString (getZiplineeEnv prefix env "ZIPLINEE_BUILD_STATUS")]> parameters in
  let parameters :=
    <["action" := VString (getZiplineeEnv prefix env "ZIPLINEE_RELEASE_ACTION")]> parameters in
  let parameters := <["server" := VString ciServer]> parameters in
  parameters.
End Evaluator.

End WhenParameters.

(** ** The stages of a local build *)

Module LocalBuild.
Import Envvar.

(** [strings.Join] *)
Fixpoint Join (elems : list string) (sep : string) : string :=
  match elems with
  | [] => ""
  | [e] => e
  | e :: rest => e +:+ sep +:+ Join rest sep
  end.

Section Stages.
(** [*manifest.ZiplineeStage], with its [Name]. *)
Variable Stage : Type.
Variable StageName : Stage -> string.
(** [foundation.StringArrayContains] *)
Variable StringArrayContains : list string -> string -> bool.

(** The body of the loop over [mft.Stages]. *)
Definition selectStage (stagesToRun : list string) (acc : list Stage * list string)
    (s : Stage) : list Stage * list string :=
  let '(stages, stageNames) := acc in
  let stageNames := stageNames ++ [StageName s] in
  if StringArrayContains stagesToRun (StageName s)
  then (stages ++ [s], stageNames)
  else (stages, stageNames).

(** The start of [RunLocalBuild] after the manifest has been read: the
    stages to run, or the error that lists the stages to choose from. *)
Definition selectStages (mftStages : list Stage) (stagesToRun : list string)
    : list Stage + error :=
  (* select configured stages to run *)
  let '(stages, stageNames) := foldl (selectStage stagesToRun) ([], []) mftStages in
  if Nat.eqb (List.length stages) 0
  then inr (ErrorString ("Choose one of the following stages: " +:+ Join stageNames ","))
  else inl stages.
End Stages.

End LocalBuild.

(** ** The env resolver at work: global variables, the pipeline name, the
    variables of a builder configuration *)

Module EnvvarRun.
Import GoStrings Envvar Origin.

(** What these functions read and change: the process environment, the
    commands run so far (oldest first) and the number of clock readings
    taken. *)
Record Sys := {
  environ : Environ;
  executed : list (list string);
  clock : nat
}.

(** A call returns a value, returns an error to its caller (every caller
    here hands it on at once: [if err != nil { return err }]), panics on a
    nil pointer, or ends the process through [log.Fatal]. *)
Inductive Result (A : Type) :=
| Ok (a : A) (s : Sys)
| Err (e : error) (s : Sys)
| NilPanic (s : Sys)
| Fatal (s : Sys).
Arguments Ok {A} a s.
Arguments Err {A} e s.
Arguments NilPanic {A} s.
Arguments Fatal {A} s.

Definition E (A : Type) := Sys -> Result A.

Definition ret {A} (a : A) : E A := fun s => Ok a s.

Definition bind {A B} (m : E A) (k : A -> E B) : E B :=
  fun s =>
    match m s with
    | Ok a s' => k a s'
    | Err e s' => Err e s'
    | NilPanic s' => NilPanic s'
    | Fatal s' => Fatal s'
    end.

#[global] Instance E_ret : MRet E := @ret.
#[global] Instance E_bind : MBind E := fun A B k m => bind m k.

Definition nilPanic {A} : E A := fun s => NilPanic s.
(** [log.Fatal] *)
Definition logFatal {A} : E A := fun s => Fatal s.

(** Dereference of a pointer of the configuration. *)
Definition derefE {A} (p : option A) : E A :=
  match p with
  | Some a => ret a
  | None => nilPanic
  end.

Definition withEnviron (s : Sys) (env : Environ) : Sys :=
  {| environ := env; executed := executed s; clock := clock s |}.

(** [contracts.BuilderConfig], by the fields the env resolver reads;
    pointers are options, [int] is [Z]. *)
Record GitConfig := {
  RepoSource : string;
  RepoOwner : string;
  RepoName : string;
  RepoBranch : string;
  RepoRevision : string
}.

Record VersionConfig := {
  Version : string;
  Major : option Z;
  Minor : option Z;
  AutoIncrement : option Z;
  Label : option string;
  CurrentCounter : Z;
  MaxCounter : Z;
  MaxCounterCurrentBranch : Z
}.

Record ReleaseConfig := {
  ReleaseName : string;
  ReleaseAction : string;
  ReleaseID : string
}.

Record BotConfig := {
  BotName : string;
  BotID : string
}.

Record BuilderConfig := {
  ConfigGit : option GitConfig;
  ConfigVersion : option VersionConfig;
  ConfigBuildID : option string;        (* [builderConfig.Build], by its [ID] *)
  ConfigRelease : option ReleaseConfig;
  ConfigEvents : list ZiplineeEvent;
  ConfigBot : option BotConfig;
  ConfigCIServerBaseURL : option string (* [builderConfig.CIServer], by its [BaseURL] *)
}.

(** The first entry of an association list with this key. *)
Fixpoint assoc {A} (key : string) (l : list (string * A)) : option A :=
  match l with
  | [] => None
  | (k, v) :: rest => if String.eqb k key then Some v else assoc key rest
  end.

(** [e.Manual], nil or the payload of a manual trigger, and its
    [UserID]. *)
Definition eventManual (e : ZiplineeEvent) : option Payload :=
  match assoc "Manual" (Triggers e) with
  | Some (Some payload) => Some payload
  | _ => None
  end.

Definition manualUserID (payload : Payload) : string :=
  match assoc "UserID" payload with
  | Some (PString userID) => userID
  | _ => ""
  end.

(** The loop over [builderConfig.Events] that finds who triggered a
    release. *)
Definition triggeredByLoop (triggeredBy : string) (e : ZiplineeEvent) : string :=
  match eventManual e with
  | Some manual => manualUserID manual
  | None => triggeredBy
  end.

Section Helper.
(** The fields of [envvarHelper]. *)
Variable prefix : string.
Variable ciServer : string.
(** The Unicode branch of [strings.ToLower], [foundation.ToUpperSnakeCase],
    [strings.TrimSpace] and [strconv.Itoa]. *)
Variable unicodeLower : bytes -> bytes.
Variable ToUpperSnakeCase : string -> string.
Variable TrimSpace : string -> string.
Variable Itoa : Z -> string.
(** [exec.Command(name, arg...).Output()], given the commands run before. *)
Variable commandOutput : list (list string) -> list string -> string * option error.
(** [time.Now().UTC().Format(time.RFC3339)] at the successive readings of
    the clock. *)
Variable nowRFC3339 : nat -> string.

Definition getCommandOutput (name : string) (arg : list string) : E string :=
  fun s =>
    let s' := {| environ := environ s; executed := executed s ++ [name :: arg];
                 clock := clock s |} in
    match commandOutput (executed s) (name :: arg) with
    | (_, Some err) => Err err s'
    | (out, None) => Ok (TrimSpace out) s'
    end.

Definition timeNow : E string :=
  fun s => Ok (nowRFC3339 (clock s))
              {| environ := environ s; executed := executed s; clock := S (clock s) |}.

Definition getEnv (key : string) : E string :=
  fun s => Ok (getZiplineeEnv prefix (environ s) key) s.

Definition setEnv (key value : string) : E unit :=
  fun s =>
    let '(env, err) := setZiplineeEnv prefix key value (environ s) in
    match err with
    | Some e => Err e (withEnviron s env)
    | None => Ok tt (withEnviron s env)
    end.

(** [h.setZiplineeEventEnvvars] on the environment of the process. *)
Definition setEventEnvvars (events : list ZiplineeEvent) : E unit :=
  fun s =>
    let '(env, err) := setZiplineeEventEnvvars prefix ToUpperSnakeCase events (environ s) in
    match err with
    | Some e => Err e (withEnviron s env)
    | None => Ok tt (withEnviron s env)
    end.

Definition getGitOrigin : E string :=
  getCommandOutput "git" ["config"; "--get"; "remote.origin.url"].

Definition initGitSource : E unit :=
  v ← getEnv "ZIPLINEE_GIT_SOURCE";
  if String.eqb v "" then
    origin ← getGitOrigin;
    let source := getSourceFromOrigin origin in
    setEnv "ZIPLINEE_GIT_SOURCE" source
  else ret tt.

Definition initGitOwner : E unit :=
  v ← getEnv "ZIPLINEE_GIT_OWNER";
  if String.eqb v "" then
    origin ← getGitOrigin;
    let owner := getOwnerFromOrigin origin in
    setEnv "ZIPLINEE_GIT_OWNER" owner
  else ret tt.

Definition initGitName : E unit :=
  v ← getEnv "ZIPLINEE_GIT_NAME";
  if String.eqb v "" then
    origin ← getGitOrigin;
    let name := getNameFromOrigin origin in
    setEnv "ZIPLINEE_GIT_NAME" name
  else ret tt.

Definition initGitFullName : E unit :=
  v ← getEnv "ZIPLINEE_GIT_FULLNAME";
  if String.eqb v "" then
    origin ← getGitOrigin;
    let owner := getOwnerFromOrigin origin in
    let name := getNameFromOrigin origin in
    setEnv "ZIPLINEE_GIT_FULLNAME" (owner +:+ "/" +:+ name)
  else ret tt.

Definition initGitRevision : E unit :=
  v ← getEnv "ZIPLINEE_GIT_REVISION";
  if String.eqb v "" then
    revision ← getCommandOutput "git" ["rev-parse"; "HEAD"];
    setEnv "ZIPLINEE_GIT_REVISION" revision
  else ret tt.

Definition initGitBranch : E unit :=
  v ← getEnv "ZIPLINEE_GIT_BRANCH";
  if String.eqb v "" then
    branch ← getCommandOutput "git" ["rev-parse"; "--abbrev-ref"; "HEAD"];
    setEnv "ZIPLINEE_GIT_BRANCH" branch
  else ret tt.

Definition initBuildDatetime : E unit :=
  v ← getEnv "ZIPLINEE_BUILD_DATETIME";
  if String.eqb v "" then
    t ← timeNow;
    setEnv "ZIPLINEE_BUILD_DATETIME" t
  else ret tt.

Definition initBuildStatus : E unit :=
  setEnv "ZIPLINEE_BUILD_STATUS" "succeeded".

Definition SetZiplineeGlobalEnvvars : E unit :=
  (* initialize build datetime envvar *)
  initBuildDatetime ;;
  (* initialize build status envvar *)
  initBuildStatus ;;
  (* remaining envvars are only set for gocd agent runs *)
  if negb (String.eqb ciServer "gocd") then ret tt
  else
    initGitSource ;;
    initGitOwner ;;
    initGitName ;;
    initGitFullName ;;
    initGitRevision ;;
    initGitBranch.

Definition SetPipelineName (builderConfig : BuilderConfig) : E unit :=
  match ConfigGit builderConfig with
  | None =>
      initGitSource ;;
      initGitOwner ;;
      initGitName
  | Some git =>
      setEnv "ZIPLINEE_GIT_SOURCE" (RepoSource git) ;;
      setEnv "ZIPLINEE_GIT_OWNER" (RepoOwner git) ;;
      setEnv "ZIPLINEE_GIT_NAME" (RepoName git)
  end.

Definition GetPipelineName : E string :=
  source ← getEnv "ZIPLINEE_GIT_SOURCE";
  owner ← getEnv "ZIPLINEE_GIT_OWNER";
  name ← getEnv "ZIPLINEE_GIT_NAME";
  if String.eqb source "" || String.eqb owner "" || String.eqb name ""
  then logFatal
  else ret (source +:+ "/" +:+ owner +:+ "/" +:+ name).

(** [if p != nil { body }] *)
Definition whenSome {A} (p : option A) (body : A -> E unit) : E unit :=
  match p with
  | Some a => body a
  | None => ret tt
  end.

Definition SetZiplineeBuilderConfigEnvvars (builderConfig : BuilderConfig) : E unit :=
  (* set envvars that can be used by any container *)
  git ← derefE (ConfigGit builderConfig);
  setEnv "ZIPLINEE_GIT_SOURCE" (RepoSource git) ;;
  setEnv "ZIPLINEE_GIT_OWNER" (RepoOwner git) ;;
  setEnv "ZIPLINEE_GIT_NAME" (RepoName git) ;;
  setEnv "ZIPLINEE_GIT_FULLNAME" (RepoOwner git +:+ "/" +:+ RepoName git) ;;
  setEnv "ZIPLINEE_GIT_BRANCH" (RepoBranch git) ;;
  (* set dns safe version *)
  setEnv "ZIPLINEE_GIT_BRANCH_DNS_SAFE" (makeDNSLabelSafe unicodeLower (RepoBranch git)) ;;
  setEnv "ZIPLINEE_GIT_REVISION" (RepoRevision git) ;;
  version ← derefE (ConfigVersion builderConfig);
  setEnv "ZIPLINEE_BUILD_VERSION" (Version version) ;;
  whenSome (ConfigVersion builderConfig) (fun version =>
    whenSome (Major version) (fun major =>
      setEnv "ZIPLINEE_BUILD_VERSION_MAJOR" (Itoa major))) ;;
  whenSome (ConfigVersion builderConfig) (fun version =>
    whenSome (Minor version) (fun minor =>
      setEnv "ZIPLINEE_BUILD_VERSION_MINOR" (Itoa minor))) ;;
  whenSome (ConfigVersion builderConfig) (fun version =>
    whenSome (AutoIncrement version) (fun autoIncrement =>
      setEnv "ZIPLINEE_BUILD_VERSION_PATCH" (Itoa autoIncrement))) ;;
  whenSome (ConfigVersion builderConfig) (fun version =>
    whenSome (Label version) (fun label =>
      setEnv "ZIPLINEE_BUILD_VERSION_LABEL" label)) ;;
  (* set counters to enable release locking for older revisions inside extensions *)
  whenSome (ConfigVersion builderConfig) (fun version =>
    setEnv "ZIPLINEE_BUILD_CURRENT_COUNTER" (Itoa (CurrentCounter version)) ;;
    setEnv "ZIPLINEE_BUILD_MAX_COUNTER" (Itoa (MaxCounter version)) ;;
    setEnv "ZIPLINEE_BUILD_MAX_COUNTER_CURRENT_BRANCH"
      (Itoa (MaxCounterCurrentBranch version))) ;;
  whenSome (ConfigBuildID builderConfig) (fun buildID =>
    setEnv "ZIPLINEE_BUILD_ID" buildID) ;;
  whenSome (ConfigRelease builderConfig) (fun release =>
    setEnv "ZIPLINEE_RELEASE_NAME" (ReleaseName release) ;;
    setEnv "ZIPLINEE_RELEASE_ACTION" (ReleaseAction release) ;;
    setEnv "ZIPLINEE_RELEASE_ID" (ReleaseID release) ;;
    let triggeredBy := foldl triggeredByLoop "" (ConfigEvents builderConfig) in
    setEnv "ZIPLINEE_RELEASE_TRIGGERED_BY" triggeredBy) ;;
  whenSome (ConfigBot builderConfig) (fun bot =>
    setEnv "ZIPLINEE_BOT_NAME" (BotName bot) ;;
    setEnv "ZIPLINEE_BOT_ID" (BotID bot)) ;;
  whenSome (ConfigCIServerBaseURL builderConfig) (fun baseURL =>
    setEnv "ZIPLINEE_CI_SERVER_BASE_URL" baseURL) ;;
  setEventEnvvars (ConfigEvents builderConfig).

End Helper.

End EnvvarRun.

(** ** Facts about the string functions *)

Module StringProofs.
Import GoStrings.

Lemma of_to_string b : of_string (to_string b) = b.
Proof. apply list_ascii_of_string_of_list_ascii. Qed.

Lemma to_of_string s : to_string (of_string s) = s.
Proof. apply string_of_list_ascii_of_string. Qed.

Lemma of_string_app (a b : string) : of_string (a +:+ b) = of_string a ++ of_string b.
Proof. induction a as [|c a IH]; simpl; [done|]. by rewrite <- IH. Qed.

Lemma to_string_inj (a b : bytes) : to_string a = to_string b -> a = b.
Proof. intros H. by rewrite <- (of_to_string a), H, of_to_string. Qed.

Lemma of_string_inj (a b : string) : of_string a = of_string b -> a = b.
Proof. intros H. by rewrite <- (to_of_string a), H, to_of_string. Qed.

Lemma HasPrefix_app (p rest : bytes) : HasPrefix (p ++ rest) p = true.
Proof.
  induction p as [|c p IH]; simpl; [done|].
  by rewrite Ascii.eqb_refl.
Qed.

Lemma HasPrefix_true (s p : bytes) : HasPrefix s p = true -> s = p ++ drop (List.length p) s.
Proof.
  revert s. induction p as [|c p IH]; intros s; simpl; [done|].
  destruct s as [|x s]; [done|].
  intros [Hc Hp]%andb_true_iff. apply Ascii.eqb_eq in Hc as ->.
  simpl. f_equal. by apply IH.
Qed.

Lemma Replace_go_skip old new k s :
  Replace_go old new k s = Replace_go old new O (drop k s).
Proof.
  revert k. induction s as [|c t IH]; intros k.
  - by destruct k.
  - destruct k as [|k]; [done|]. cbn [Replace_go drop]. apply IH.
Qed.

(** Replacing a non-empty string by itself changes nothing. *)
Lemma Replace_same (s old : bytes) : old <> [] -> Replace s old old = s.
Proof.
  intros Hold. unfold Replace.
  induction s as [s IH] using (induction_ltof1 _ (@List.length ascii)).
  unfold ltof in IH.
  destruct s as [|c t]; [done|]. cbn [Replace_go].
  destruct (HasPrefix (c :: t) old) eqn:Hp.
  - apply HasPrefix_true in Hp.
    destruct old as [|o old']; [done|].
    simpl in Hp. injection Hp as -> Ht.
    rewrite Replace_go_skip.
    replace (List.length (o :: old') - 1)%nat with (List.length old') by (simpl; lia).
    rewrite IH.
    + simpl. f_equal. symmetry. exact Ht.
    + rewrite length_drop. simpl. lia.
  - f_equal. apply IH. simpl. lia.
Qed.

(** *** [os.Expand] on literal text and on braced references *)

Lemma existsb_eqb_false c (s : bytes) :
  existsb (Ascii.eqb c) s = false -> noByte c s.
Proof.
  induction s as [|x s IH]; simpl; [constructor|].
  intros [Hx Hs]%orb_false_iff. constructor; [|by apply IH].
  apply Ascii.eqb_neq in Hx. congruence.
Qed.

Lemma Expand_go_skip f k s : Expand_go f k s = Expand_go f O (drop k s).
Proof.
  revert k. induction s as [|c t IH]; intros k.
  - by destruct k.
  - destruct k as [|k]; [done|]. cbn [Expand_go drop]. apply IH.
Qed.

Lemma Expand_go_literal f (lit rest : bytes) :
  noByte "$" lit -> Expand_go f O (lit ++ rest) = lit ++ Expand_go f O rest.
Proof.
  induction 1 as [|c lit Hc _ IH]; [done|].
  cbn [app Expand_go].
  apply Ascii.eqb_neq in Hc. rewrite Hc. simpl. by rewrite IH.
Qed.

Lemma IndexByte_first (name rest : bytes) c :
  noByte c name -> IndexByte (name ++ c :: rest) c = Some (List.length name).
Proof.
  induction 1 as [|x name Hx _ IH]; simpl.
  - by rewrite Ascii.eqb_refl.
  - apply Ascii.eqb_neq in Hx. by rewrite Hx, IH.
Qed.

Lemma getShellName_braced (name rest : bytes) :
  name <> [] -> noByte "}" name ->
  getShellName ("{"%char :: name ++ "}"%char :: rest) = (name, (List.length name + 2)%nat).
Proof.
  intros Hne Hno. unfold getShellName.
  change (Ascii.eqb "{" "{") with true. cbv iota.
  rewrite (IndexByte_first name rest "}" Hno).
  assert (firstn (List.length name) (name ++ "}"%char :: rest) = name) as Htake.
  { by rewrite take_app_length. }
  destruct name as [|c1 name']; [done|].
  destruct name' as [|c2 name''].
  - simpl. by destruct (isShellSpecialVar c1).
  - apply Forall_cons in Hno as [_ Hno]. apply Forall_cons in Hno as [Hc2 _].
    apply Ascii.eqb_neq in Hc2.
    simpl in Htake |- *. rewrite Hc2, andb_false_r.
    by rewrite Htake.
Qed.

Lemma Expand_go_dollar f (t : bytes) :
  t <> [] ->
  Expand_go f O ("$"%char :: t)
  = (let '(name, w) := getShellName t in
     match name, w with
     | [], S _ => []
     | [], O => ["$"%char]
     | _ :: _, _ => f name
     end ++ Expand_go f w t).
Proof. destruct t; [done|]. reflexivity. Qed.

Lemma Expand_go_reference f (name rest : bytes) :
  name <> [] -> noByte "}" name ->
  Expand_go f O ("$"%char :: "{"%char :: name ++ "}"%char :: rest)
  = f name ++ Expand_go f O rest.
Proof.
  intros Hne Hno.
  rewrite Expand_go_dollar by done.
  rewrite getShellName_braced by done.
  destruct name as [|c name'] eqn:E; [done|]. rewrite <- E.
  f_equal. rewrite Expand_go_skip. f_equal.
  replace (List.length name + 2)%nat with (S (List.length (name ++ ["}"%char])))
    by (rewrite length_app; simpl; lia).
  cbn [drop].
  rewrite (assoc_L (++) name ["}"%char] rest : name ++ "}"%char :: rest = _).
  apply drop_app_length.
Qed.

End StringProofs.

(** ** Shape of DNS-safe labels *)

Module DNSProofs.
Import GoStrings Envvar StringProofs.

Lemma replaceInvalidRuns_go_label inRun s :
  LabelBytes (replaceInvalidRuns_go inRun s).
Proof.
  revert inRun. induction s as [|c t IH]; intros inRun; simpl.
  - constructor.
  - destruct (isLabelByte c) eqn:Hc.
    + constructor; [exact Hc | apply IH].
    + destruct inRun; [apply IH|].
      constructor; [reflexivity | apply IH].
Qed.

Lemma Replace_go_label old new skip s :
  LabelBytes new -> LabelBytes s -> LabelBytes (Replace_go old new skip s).
Proof.
  intros Hnew. revert skip.
  induction s as [|c t IH]; intros skip Hs; cbn [Replace_go]; [constructor|].
  apply Forall_cons in Hs as [Hc Ht].
  destruct skip as [|k]; [|by apply IH].
  destruct (HasPrefix (c :: t) old).
  - apply Forall_app. split; [exact Hnew | by apply IH].
  - constructor; [exact Hc | by apply IH].
Qed.

Lemma TrimLeft_suffix s cut : TrimLeft s cut `suffix_of` s.
Proof.
  induction s as [|c t IH]; simpl; [done|].
  destruct (Ascii.eqb c cut); [|done].
  by apply suffix_cons_r.
Qed.

Lemma TrimLeft_id s cut :
  (forall c t, s = c :: t -> c <> cut) -> TrimLeft s cut = s.
Proof.
  destruct s as [|c t]; simpl; [done|]. intros H.
  destruct (Ascii.eqb c cut) eqn:E; [|done].
  apply Ascii.eqb_eq in E. by destruct (H c t eq_refl).
Qed.

Lemma TrimRight_prefix s cut : TrimRight s cut `prefix_of` s.
Proof.
  induction s as [|c t IH]; simpl; [done|].
  destruct (TrimRight t cut) as [|x xs] eqn:E.
  - destruct (Ascii.eqb c cut); [apply prefix_nil|].
    by apply prefix_cons, prefix_nil.
  - by apply prefix_cons.
Qed.

Lemma TrimRight_last s cut d :
  TrimRight s cut <> [] -> List.last (TrimRight s cut) d <> cut.
Proof.
  induction s as [|c t IH]; simpl; [done|].
  destruct (TrimRight t cut) as [|x xs] eqn:E.
  - destruct (Ascii.eqb c cut) eqn:Hc; [done|].
    intros _. simpl. by apply Ascii.eqb_neq.
  - intros _. change (List.last (x :: xs) d <> cut). by apply IH.
Qed.

Lemma strip_suffix s : stripLeadingDigitsHyphens s `suffix_of` s.
Proof.
  induction s as [|c t IH]; simpl; [done|].
  destruct (isDigit c || isHyphen c); [|done].
  by apply suffix_cons_r.
Qed.

Lemma strip_head s c t :
  stripLeadingDigitsHyphens s = c :: t -> isDigit c || isHyphen c = false.
Proof.
  induction s as [|x xs IH]; simpl; [done|].
  destruct (isDigit x || isHyphen x) eqn:E; [exact IH|].
  intros [= <- _]. exact E.
Qed.

Lemma LabelBytes_prefix s1 s2 : s1 `prefix_of` s2 -> LabelBytes s2 -> LabelBytes s1.
Proof. intros [k ->] H. by apply Forall_app in H as [? _]. Qed.

Lemma LabelBytes_suffix s1 s2 : s1 `suffix_of` s2 -> LabelBytes s2 -> LabelBytes s1.
Proof. intros [k ->] H. by apply Forall_app in H as [_ ?]. Qed.

Lemma LabelBytes_last s d : s <> [] -> LabelBytes s -> isLabelByte (List.last s d) = true.
Proof.
  intros Hne Hs. induction Hs as [|c t Hc Ht IH]; [done|].
  destruct t as [|x xs]; [exact Hc|].
  change (isLabelByte (List.last (x :: xs) d) = true). by apply IH.
Qed.

Lemma LabelBytes_removelast s : LabelBytes s -> LabelBytes (removelast s).
Proof.
  induction 1 as [|c t Hc Ht IH]; simpl; [constructor|].
  destruct t; [constructor|]. by constructor.
Qed.

Lemma isHyphen_eq c : isHyphen c = true <-> c = "-"%char.
Proof. apply Ascii.eqb_eq. Qed.

(** A non-empty string of label bytes, at most 63 long, that starts with a
    letter and does not end in a hyphen matches the expression. *)
Lemma matchesDNSLabel_intro c rest :
  LabelBytes (c :: rest) -> (List.length (c :: rest) <= 63)%nat ->
  isDigit c || isHyphen c = false ->
  List.last (c :: rest) "-"%char <> "-"%char ->
  matchesDNSLabel (c :: rest) = true.
Proof.
  intros Hl Hlen Hc Hlast. simpl.
  apply Forall_cons in Hl as [Hc' Hrest].
  assert (isLower c = true) as ->.
  { unfold isLabelByte in Hc'. apply orb_false_iff in Hc as [Hd Hh].
    rewrite Hd, Hh in Hc'. by destruct (isLower c). }
  destruct rest as [|x xs]; [done|]. simpl andb.
  apply andb_true_iff; split; [apply andb_true_iff; split|].
  - apply Nat.leb_le. simpl in *. lia.
  - apply forallb_forall, List.Forall_forall.
    by apply (LabelBytes_removelast (x :: xs)).
  - change (List.last (c :: x :: xs) "-"%char) with (List.last (x :: xs) "-"%char) in Hlast.
    pose proof (LabelBytes_last (x :: xs) "-"%char ltac:(done) Hrest) as Hz.
    unfold isLabelByte in Hz.
    destruct (isHyphen (List.last (x :: xs) "-"%char)) eqn:Hh.
    + by apply isHyphen_eq in Hh.
    + by rewrite orb_false_r in Hz.
Qed.

Section Shape.
Variable unicodeLower : bytes -> bytes.

(** Whatever the input, and whatever the Unicode tables do, the output is
    empty or matches [^[a-z]([a-z0-9-]{0,61}[a-z0-9])?$]. *)
Lemma makeDNSLabelSafeBytes_shape value :
  makeDNSLabelSafeBytes unicodeLower value = [] \/
  matchesDNSLabel (makeDNSLabelSafeBytes unicodeLower value) = true.
Proof.
  unfold makeDNSLabelSafeBytes.
  set (v2 := replaceInvalidRuns _).
  set (v3 := Replace v2 _ _).
  set (v4 := Trim v3 _).
  set (v5 := stripLeadingDigitsHyphens v4).
  set (v6 := if (63 <? List.length v5)%nat then firstn 63 v5 else v5).
  assert (LabelBytes v5) as H5.
  { apply (LabelBytes_suffix _ v4); [apply strip_suffix|].
    apply (LabelBytes_prefix _ (TrimLeft v3 "-")); [apply TrimRight_prefix|].
    apply (LabelBytes_suffix _ v3); [apply TrimLeft_suffix|].
    apply Replace_go_label; [by repeat constructor|].
    apply replaceInvalidRuns_go_label. }
  assert (v6 `prefix_of` v5) as H65.
  { unfold v6. destruct (63 <? List.length v5)%nat; [apply prefix_take | done]. }
  assert (List.length v6 <= 63)%nat as Hlen.
  { unfold v6. destruct (63 <? List.length v5)%nat eqn:E.
    - rewrite length_take. lia.
    - apply Nat.ltb_ge in E. lia. }
  assert (forall c t, v6 = c :: t -> isDigit c || isHyphen c = false) as Hhd.
  { intros c t E. destruct H65 as [k Hk]. rewrite E in Hk.
    by apply (strip_head v4 c (t ++ k)). }
  assert (TrimLeft v6 "-" = v6) as Hleft.
  { apply TrimLeft_id. intros c t E ->.
    specialize (Hhd _ _ E). by rewrite orb_true_r in Hhd. }
  unfold Trim. rewrite Hleft.
  destruct (TrimRight v6 "-") as [|c rest] eqn:E; [by left|right].
  pose proof (TrimRight_prefix v6 "-") as Hpre. rewrite E in Hpre.
  apply matchesDNSLabel_intro.
  - apply (LabelBytes_prefix _ v6); [done|]. by apply (LabelBytes_prefix _ v5).
  - apply prefix_length in Hpre. lia.
  - destruct Hpre as [k Hk]. by apply (Hhd c (rest ++ k)).
  - rewrite <- E. apply TrimRight_last. by rewrite E.
Qed.

(** X15. Whatever the input, and whatever the Unicode tables of
    [strings.ToLower] do, the output of [makeDNSLabelSafe] is the empty
    string or matches [^[a-z]([a-z0-9-]{0,61}[a-z0-9])?$]. *)
Lemma makeDNSLabelSafe_shape value :
  makeDNSLabelSafe unicodeLower value = "" \/
  matchesDNSLabel (of_string (makeDNSLabelSafe unicodeLower value)) = true.
Proof.
  unfold makeDNSLabelSafe. rewrite of_to_string.
  destruct (makeDNSLabelSafeBytes_shape (of_string value)) as [-> | H]; [by left | by right].
Qed.
End Shape.

(** *** Where a second application changes nothing *)

Lemma labelByte_ascii c :
  isLabelByte c = true -> isASCIIByte c = true /\ isUpper c = false.
Proof.
  destruct c as [[] [] [] [] [] [] [] []]; vm_compute; intros H;
    try discriminate H; split; reflexivity.
Qed.

Lemma lower_not_digit_hyphen c : isLower c = true -> isDigit c || isHyphen c = false.
Proof.
  destruct c as [[] [] [] [] [] [] [] []]; vm_compute; intros H;
    try discriminate H; reflexivity.
Qed.

Lemma digit_not_hyphen c : isDigit c = true -> isHyphen c = false.
Proof.
  destruct c as [[] [] [] [] [] [] [] []]; vm_compute; intros H;
    try discriminate H; reflexivity.
Qed.

Lemma ToLower_label unicodeLower s : LabelBytes s -> ToLower unicodeLower s = s.
Proof.
  intros Hs. unfold ToLower.
  assert (forallb isASCIIByte s = true /\ map lowerByte s = s) as [-> Hmap]; [|done].
  induction Hs as [|c t Hc _ [IH1 IH2]]; [done|].
  destruct (labelByte_ascii c Hc) as [Ha Hu]. simpl.
  rewrite Ha, IH1, IH2. unfold lowerByte. by rewrite Hu.
Qed.

Lemma replaceInvalidRuns_go_id inRun s :
  LabelBytes s -> replaceInvalidRuns_go inRun s = s.
Proof.
  intros Hs. revert inRun. induction Hs as [|c t Hc _ IH]; intros inRun; simpl; [done|].
  by rewrite Hc, IH.
Qed.

Lemma TrimRight_id s cut d : s <> [] -> List.last s d <> cut -> TrimRight s cut = s.
Proof.
  induction s as [|c t IH]; [done|]. intros _ Hlast. simpl.
  destruct t as [|x xs].
  - simpl in *. apply Ascii.eqb_neq in Hlast. by rewrite Hlast.
  - rewrite IH; [done|done|exact Hlast].
Qed.

Lemma matchesDNSLabel_inv s :
  matchesDNSLabel s = true ->
  exists c rest, s = c :: rest /\ isLower c = true /\ LabelBytes s /\
                 (List.length s <= 63)%nat /\ List.last s "-"%char <> "-"%char.
Proof.
  destruct s as [|c rest]; [done|]. simpl.
  intros [Hc Hrest]%andb_true_iff. exists c, rest. split; [done|]. split; [done|].
  assert (isLabelByte c = true) as Hlc by (unfold isLabelByte; by rewrite Hc).
  destruct rest as [|x xs].
  - split; [by repeat constructor|]. split; [simpl; lia|].
    simpl. intros ->. discriminate Hc.
  - apply andb_true_iff in Hrest as [[Hlen Hmid]%andb_true_iff Hz].
    apply Nat.leb_le in Hlen.
    assert (isHyphen (List.last (x :: xs) "-"%char) = false) as Hnh.
    { apply orb_true_iff in Hz as [El|Ed].
      - apply lower_not_digit_hyphen in El. by apply orb_false_iff in El as [_ ?].
      - by apply digit_not_hyphen. }
    split; [|split].
    + constructor; [done|].
      rewrite (app_removelast_last (l := x :: xs) "-"%char) by done.
      apply Forall_app. split.
      * apply List.Forall_forall. by apply forallb_forall.
      * constructor; [|constructor]. unfold isLabelByte.
        apply orb_true_iff. left. exact Hz.
    + simpl in *. lia.
    + change (List.last (c :: x :: xs) "-"%char) with (List.last (x :: xs) "-"%char).
      intros E. rewrite E in Hnh. discriminate Hnh.
Qed.

Section Fixed.
Variable unicodeLower : bytes -> bytes.

(** A label in which no two hyphens are adjacent is left alone. *)
Lemma makeDNSLabelSafeBytes_fixed r :
  r = [] \/ matchesDNSLabel r = true ->
  Replace r ["-"; "-"]%char ["-"]%char = r ->
  makeDNSLabelSafeBytes unicodeLower r = r.
Proof.
  intros [->|Hm] Hrep; [reflexivity|].
  destruct (matchesDNSLabel_inv r Hm) as (c & rest & -> & Hc & Hl & Hlen & Hlast).
  assert (Trim (c :: rest) "-" = c :: rest) as Htrim.
  { unfold Trim. rewrite TrimLeft_id.
    - by apply (TrimRight_id _ _ "-"%char).
    - intros c' t [= <- _] ->. discriminate Hc. }
  unfold makeDNSLabelSafeBytes.
  rewrite (ToLower_label _ _ Hl). unfold replaceInvalidRuns.
  rewrite (replaceInvalidRuns_go_id _ _ Hl), Hrep, Htrim.
  assert (stripLeadingDigitsHyphens (c :: rest) = c :: rest) as ->.
  { simpl. by rewrite (lower_not_digit_hyphen c Hc). }
  assert ((63 <? List.length (c :: rest))%nat = false) as ->.
  { apply Nat.ltb_ge. exact Hlen. }
  exact Htrim.
Qed.

(** [makeDNSLabelSafe] repeats itself on every input whose label has no two
    adjacent hyphens left. *)
Lemma makeDNSLabelSafeBytes_idempotent_without_double_hyphen value :
  let label := makeDNSLabelSafeBytes unicodeLower value in
  Replace label ["-"; "-"]%char ["-"]%char = label ->
  makeDNSLabelSafeBytes unicodeLower label = label.
Proof.
  intros label Hrep. apply makeDNSLabelSafeBytes_fixed; [|exact Hrep].
  apply makeDNSLabelSafeBytes_shape.
Qed.
End Fixed.

End DNSProofs.

Module EnvvarExamples.
Import GoStrings Envvar.

Example dns_test_safe :
  makeDNSLabelSafe id "dns-safe-value" = "dns-safe-value".
Proof. reflexivity. Qed.

Example dns_test_upper :
  makeDNSLabelSafe id "DNS-safe-value" = "dns-safe-value".
Proof. reflexivity. Qed.

Example dns_test_dot :
  makeDNSLabelSafe id "dns-safe.value" = "dns-safe-value".
Proof. reflexivity. Qed.

Example dns_test_double :
  makeDNSLabelSafe id "dns-safe--value" = "dns-safe-value".
Proof. reflexivity. Qed.

Example dns_test_digits :
  makeDNSLabelSafe id "10-dns-safe-value" = "dns-safe-value".
Proof. reflexivity. Qed.

Example dns_test_trim :
  makeDNSLabelSafe id "-dns-safe-value-" = "dns-safe-value".
Proof. reflexivity. Qed.

Example dns_test_63 :
  makeDNSLabelSafe id "abcdefghijklmnopqrstuvwxyzabcdefghijklmnopqrstuvwxyzabcdefghijkl"
  = "abcdefghijklmnopqrstuvwxyzabcdefghijklmnopqrstuvwxyzabcdefghijk".
Proof. reflexivity. Qed.

Example dns_test_63_trim :
  makeDNSLabelSafe id "abcdefghijklmnopqrstuvwxyzabcdefghijklmnopqrstuvwxyzabcdefghij-l"
  = "abcdefghijklmnopqrstuvwxyzabcdefghijklmnopqrstuvwxyzabcdefghij".
Proof. reflexivity. Qed.

Example dns_three_hyphens :
  makeDNSLabelSafe id "a---b" = "a--b" /\ makeDNSLabelSafe id "a--b" = "a-b".
Proof. split; reflexivity. Qed.
Example envvarName_test :
  getZiplineeEnvvarName "TESTPREFIX_" "ZIPLINEE_KEY" = "TESTPREFIX_KEY".
Proof. reflexivity. Qed.

Example getZiplineeEnv_test_value :
  getZiplineeEnv "TESTPREFIX_" {[ "TESTPREFIX_BUILD_STATUS" := "succeeded" ]}
    "TESTPREFIX_BUILD_STATUS" = "succeeded".
Proof. reflexivity. Qed.

Example getZiplineeEnv_test_placeholder :
  getZiplineeEnv "TESTPREFIX_" {[ "HOME" := "/root" ]} "HOME" = "${HOME}".
Proof. reflexivity. Qed.

Example expand_unbraced :
  When.expandInput "ZIPLINEE_" {[ "ZIPLINEE_GIT_BRANCH" := "main" ]}
    "branch == '$ZIPLINEE_GIT_BRANCH' && user == '$USER'"
  = "branch == 'main' && user == '${USER}'".
Proof. reflexivity. Qed.

Example expand_bad_syntax :
  When.expandInput "ZIPLINEE_" ∅ "a${}b${c" = "abc" /\
  When.expandInput "ZIPLINEE_" ∅ "cost in $" = "cost in $" /\
  When.expandInput "ZIPLINEE_" ∅ "$ 5" = "$ 5".
Proof. repeat split; reflexivity. Qed.

Example override_test_combines :
  let res := OverrideEnvvars [Some 0; Some 1]%nat
               [ {[ "ENVVAR1" := "value1" ]}; {[ "ENVVAR2" := "value2" ]} ] in
  size (readMap res.2 (Some res.1)) = 2%nat.
Proof. reflexivity. Qed.

Example override_test_overrides :
  let res := OverrideEnvvars [Some 0; Some 1]%nat
               [ {[ "ENVVAR1" := "value1" ]}; {[ "ENVVAR1" := "value2" ]} ] in
  size (readMap res.2 (Some res.1)) = 1%nat /\
  readMap res.2 (Some res.1) !! "ENVVAR1" = Some "value2".
Proof. split; reflexivity. Qed.

End EnvvarExamples.

(** ** [OverrideEnvvars]: the rightmost map wins *)

Module OverrideProofs.
Import Envvar.

Lemma foldr_insert_union (l : list (string * string)) (m : gmap string string) :
  foldr (fun kv m => <[kv.1 := kv.2]> m) m l = list_to_map l ∪ m.
Proof.
  induction l as [|[k v] l IH]; simpl.
  - by rewrite (left_id_L ∅ (∪)).
  - by rewrite IH, insert_union_l.
Qed.

Lemma foldr_alter_insert dst (l : list (string * string)) (h : MapHeap) :
  foldr (fun kv h => alter (fun m => <[kv.1 := kv.2]> m) dst h) h l
  = alter (fun m => list_to_map l ∪ m) dst h.
Proof.
  apply list_eq. intros a.
  destruct (decide (a = dst)) as [->|Hne].
  - rewrite list_lookup_alter_eq.
    induction l as [|[k v] l IH]; simpl.
    + destruct (h !! dst) as [m|]; simpl; [|done].
      by rewrite (left_id_L ∅ (∪)).
    + rewrite list_lookup_alter_eq, IH.
      destruct (h !! dst) as [m|]; simpl; [|done].
      by rewrite insert_union_l.
  - rewrite list_lookup_alter_ne by done.
    induction l as [|[k v] l IH]; simpl; [done|].
    by rewrite list_lookup_alter_ne.
Qed.

Lemma copyInto_alter dst src (h : MapHeap) :
  copyInto dst src h = alter (fun m => src ∪ m) dst h.
Proof.
  unfold copyInto. rewrite foldr_alter_insert.
  by rewrite list_to_map_to_list.
Qed.

Lemma copyInto_length dst src (h : MapHeap) :
  List.length (copyInto dst src h) = List.length h.
Proof. rewrite copyInto_alter. apply length_alter. Qed.

Lemma readMap_copyInto dst src (h : MapHeap) r :
  r <> Some dst -> readMap (copyInto dst src h) r = readMap h r.
Proof.
  intros Hne. destruct r as [a|]; simpl; [|done].
  rewrite copyInto_alter, list_lookup_alter_ne; [done|congruence].
Qed.

Lemma merged_alter f dst (h : MapHeap) refs acc :
  Forall (fun r => r <> Some dst) refs ->
  merged (alter f dst h) refs acc = merged h refs acc.
Proof.
  unfold merged. intros Hrefs. revert acc.
  induction Hrefs as [|r refs Hr _ IH]; intros acc; simpl; [done|].
  rewrite IH. do 2 f_equal.
  destruct r as [a|]; simpl; [|done].
  rewrite list_lookup_alter_ne; [done|congruence].
Qed.

Lemma merged_app (h k : MapHeap) refs acc :
  Forall (validRef h) refs -> merged (h ++ k) refs acc = merged h refs acc.
Proof.
  unfold merged. intros Hrefs. revert acc.
  induction Hrefs as [|r refs Hr _ IH]; intros acc; simpl; [done|].
  rewrite IH. do 2 f_equal.
  destruct r as [a|]; simpl; [|done]. by rewrite lookup_app_l.
Qed.

Lemma overrideLoop_spec dst refs (h : MapHeap) acc :
  h !! dst = Some acc -> Forall (fun r => r <> Some dst) refs ->
  overrideLoop dst refs h = <[dst := merged h refs acc]> h.
Proof.
  revert h acc. induction refs as [|r refs IH]; intros h acc Hdst Hrefs; simpl.
  - by rewrite list_insert_id.
  - apply Forall_cons in Hrefs as [Hr Hrefs].
    rewrite (IH _ (readMap h r ∪ acc)); [|
      by rewrite copyInto_alter, list_lookup_alter_eq, Hdst | done].
    rewrite copyInto_alter.
    rewrite merged_alter by done.
    apply list_eq. intros a.
    destruct (decide (a = dst)) as [->|Hne].
    + assert (dst < List.length h)%nat by (by eapply lookup_lt_Some).
      rewrite !list_lookup_insert_eq; [done | done | by rewrite length_alter].
    + by rewrite !list_lookup_insert_ne, list_lookup_alter_ne.
Qed.

Lemma validRef_fresh (h : MapHeap) r : validRef h r -> r <> Some (List.length h).
Proof. destruct r as [a|]; simpl; [|done]. intros ? [= ->]. lia. Qed.

Lemma readMap_app (h : MapHeap) k r : validRef h r -> readMap (h ++ k) r = readMap h r.
Proof.
  destruct r as [a|]; simpl; [|done]. intros Ha. by rewrite lookup_app_l.
Qed.

(** The variadic merge: the result is a fresh map holding the union of the
    arguments, and the heap that existed before the call is as it was. *)
Lemma OverrideEnvvars_merged (h : MapHeap) refs :
  Forall (validRef h) refs ->
  OverrideEnvvars refs h = (List.length h, h ++ [merged h refs ∅]).
Proof.
  intros Hv. unfold OverrideEnvvars. f_equal.
  rewrite (overrideLoop_spec _ _ _ ∅).
  - rewrite merged_app by done.
    apply list_eq. intros a.
    destruct (decide (a = List.length h)) as [->|Hne].
    + rewrite list_lookup_insert_eq by (rewrite length_app; simpl; lia).
      by rewrite lookup_app_r, Nat.sub_diag.
    + rewrite list_lookup_insert_ne by done.
      destruct (decide (a < List.length h)%nat).
      * by rewrite !lookup_app_l.
      * rewrite !lookup_app_r by lia.
        destruct (a - List.length h)%nat as [|j] eqn:E; [lia|done].
  - by rewrite lookup_app_r, Nat.sub_diag.
  - eapply Forall_impl; [exact Hv|]. intros r. apply validRef_fresh.
Qed.

Lemma merged_snoc2 (h : MapHeap) refs a b :
  merged h (refs ++ [a; b]) ∅ = readMap h b ∪ (readMap h a ∪ merged h refs ∅).
Proof. unfold merged. by rewrite foldl_app. Qed.

(** C8. [OverrideEnvvars] is a merge in which the rightmost map wins: with
    [b] the last argument and [a] the one before it, every key of [b] has
    [b]'s value in the result, every key of [a] that [b] lacks has [a]'s
    value, the result is a freshly made map, and every map that existed
    before the call, the arguments among them, is unchanged. *)
Theorem OverrideEnvvars_right_wins (h : MapHeap) (refs : list MapRef) (a b : MapRef) :
  Forall (validRef h) (refs ++ [a; b]) ->
  let envvars := (OverrideEnvvars (refs ++ [a; b]) h).1 in
  let h' := (OverrideEnvvars (refs ++ [a; b]) h).2 in
  (forall k v, readMap h b !! k = Some v -> readMap h' (Some envvars) !! k = Some v) /\
  (forall k v, readMap h b !! k = None -> readMap h a !! k = Some v ->
               readMap h' (Some envvars) !! k = Some v) /\
  envvars = List.length h /\
  (forall r, validRef h r -> readMap h' r = readMap h r) /\
  (forall i, (i < List.length h)%nat -> h' !! i = h !! i).
Proof.
  intros Hv. rewrite (OverrideEnvvars_merged h _ Hv). simpl.
  rewrite lookup_app_r, Nat.sub_diag by done. simpl.
  rewrite merged_snoc2.
  repeat split.
  - intros k v Hb. by apply lookup_union_Some_l.
  - intros k v Hb Ha. rewrite lookup_union_r by done. by apply lookup_union_Some_l.
  - intros [i|] Hr; simpl in *; [|done]. by rewrite lookup_app_l.
  - intros i Hi. by rewrite lookup_app_l.
Qed.

Lemma OverrideEnvvars_right_wins_witness :
  let h : MapHeap := [ {[ "ENVVAR1" := "value1"; "ENVVAR2" := "kept" ]};
                       {[ "ENVVAR1" := "value2" ]} ] in
  let res := OverrideEnvvars [Some 0%nat; Some 1%nat] h in
  readMap res.2 (Some res.1) !! "ENVVAR1" = Some "value2" /\
  readMap res.2 (Some res.1) !! "ENVVAR2" = Some "kept" /\
  readMap res.2 (Some 0%nat) = readMap h (Some 0%nat).
Proof.
  intros h res.
  assert (Forall (validRef h) ([] ++ [Some 0%nat; Some 1%nat])) as Hv.
  { repeat constructor; simpl; lia. }
  destruct (OverrideEnvvars_right_wins h [] (Some 0%nat) (Some 1%nat) Hv)
    as (Hb & Ha & _ & Hin & _).
  split; [|split].
  - apply Hb. reflexivity.
  - apply Ha; reflexivity.
  - apply Hin. simpl. lia.
Defined.

End OverrideProofs.

(** ** The when-evaluator and the placeholder of [getZiplineeEnv] *)

Module WhenProofs.
Import GoStrings Envvar When Examples StringProofs.

Lemma of_string_nonempty (s : string) : String.eqb s "" = false -> of_string s <> [].
Proof. by destruct s. Qed.

Lemma expandInput_segments prefix env (segs : list Segment) :
  forallb wfSegment segs = true ->
  expandInput prefix env (render segs)
  = to_string (concat (map (expandSegment prefix env) segs)).
Proof.
  intros Hwf. unfold expandInput, render, Expand. rewrite of_to_string. f_equal.
  induction segs as [|seg segs IH]; [done|].
  apply andb_true_iff in Hwf as [Hseg Hsegs].
  cbn [map concat]. rewrite <- (IH Hsegs).
  destruct seg as [text|name]; cbn [renderSegment expandSegment].
  - apply Expand_go_literal, existsb_eqb_false.
    unfold wfSegment, hasByte in Hseg. by apply negb_true_iff.
  - apply andb_true_iff in Hseg as [Hne Hno].
    apply negb_true_iff in Hne, Hno.
    cbn [app]. rewrite <- (assoc_L (++)). cbn [app].
    rewrite Expand_go_reference.
    + by rewrite to_of_string.
    + by apply of_string_nonempty.
    + by apply existsb_eqb_false.
Qed.

Lemma getZiplineeEnvvarName_production (key : string) :
  getZiplineeEnvvarName "ZIPLINEE_" key = key.
Proof.
  unfold getZiplineeEnvvarName. rewrite Replace_same by done. apply to_of_string.
Qed.

(** C6. [Evaluate] fails on the empty expression, fails when the expression
    evaluates to something that is not a boolean, returns the boolean when
    it evaluates to one, and what it parses and evaluates is the input with
    every [${VAR}] reference replaced by what [getZiplineeEnv] returns for
    [VAR]. *)
Theorem Evaluate_spec (prefix : string) (env : Environ)
    (EvaluableExpression : Type)
    (NewEvaluableExpression : string -> EvaluableExpression + error)
    (ExpressionEvaluate : EvaluableExpression -> gmap string GoValue -> GoValue * option error)
    (pipelineName : string) (parameters : gmap string GoValue) :
  let evaluate := Evaluate prefix env EvaluableExpression NewEvaluableExpression
                    ExpressionEvaluate pipelineName in
  evaluate "" parameters = (false, Some errEmpty) /\
  (forall input expression r err,
      input <> "" ->
      NewEvaluableExpression (expandInput prefix env input) = inl expression ->
      ExpressionEvaluate expression parameters = (r, err) ->
      (forall b, r <> VBool b) ->
      evaluate input parameters = (false, Some errNotBoolean)) /\
  (forall input expression b err,
      input <> "" ->
      NewEvaluableExpression (expandInput prefix env input) = inl expression ->
      ExpressionEvaluate expression parameters = (VBool b, err) ->
      evaluate input parameters = (b, err)) /\
  (forall segs,
      forallb wfSegment segs = true ->
      expandInput prefix env (render segs)
      = to_string (concat (map (expandSegment prefix env) segs))).
Proof.
  intros evaluate. unfold evaluate, Evaluate.
  split; [done|]. split; [|split].
  - intros input expression r err Hne Hparse Heval Hr.
    apply String.eqb_neq in Hne. rewrite Hne, Hparse, Heval.
    destruct r; try done. by destruct (Hr b).
  - intros input expression b err Hne Hparse Heval.
    apply String.eqb_neq in Hne. by rewrite Hne, Hparse, Heval.
  - apply expandInput_segments.
Qed.

Lemma Evaluate_spec_witness :
  let env : Environ := {[ "ZIPLINEE_GIT_BRANCH" := "main" ]} in
  let evaluate := Evaluate "ZIPLINEE_" env string inl toyEvaluate "pipeline" in
  evaluate "'${ZIPLINEE_GIT_BRANCH}' == 'main'" ∅ = (true, None) /\
  evaluate "'${ZIPLINEE_GIT_BRANCH}'" ∅ = (false, Some errNotBoolean) /\
  expandInput "ZIPLINEE_" env "'${ZIPLINEE_GIT_BRANCH}' == '${HOME}'" = "'main' == '${HOME}'".
Proof.
  intros env evaluate.
  destruct (Evaluate_spec "ZIPLINEE_" env string inl toyEvaluate "pipeline" ∅)
    as (_ & Hnb & Hb & Hexp).
  split; [|split].
  - apply (Hb _ "'main' == 'main'" true None); [done|reflexivity|reflexivity].
  - apply (Hnb _ "'main'" (VString "'main'") None);
      [done|reflexivity|reflexivity|done].
  - apply (Hexp [Lit "'"; Ref "ZIPLINEE_GIT_BRANCH"; Lit "' == '"; Ref "HOME"; Lit "'"]).
    reflexivity.
Defined.

(** C9, as stated, fails for a helper whose prefix is not [ZIPLINEE_]: the
    placeholder carries the prefix-mapped name, not the key, and the
    expansion rewrites the reference. *)
Lemma getZiplineeEnv_placeholder_counterexample :
  HasPrefix (of_string (getZiplineeEnvvarName "TESTPREFIX_" "MY_ZIPLINEE_KEY"))
            (of_string "TESTPREFIX_") = false /\
  getZiplineeEnv "TESTPREFIX_" ∅ "MY_ZIPLINEE_KEY" = "${MY_TESTPREFIX_KEY}" /\
  getZiplineeEnv "TESTPREFIX_" ∅ "MY_ZIPLINEE_KEY" <> "${MY_ZIPLINEE_KEY}" /\
  expandInput "TESTPREFIX_" ∅ "${MY_ZIPLINEE_KEY} == 'x'" <> "${MY_ZIPLINEE_KEY} == 'x'".
Proof. repeat split; try reflexivity; discriminate. Qed.

(** C9, amended. When the prefix-mapped name of a key does not start with
    the prefix, [getZiplineeEnv] returns the placeholder of the mapped name;
    under the prefix [ZIPLINEE_] the mapped name is the key itself, so the
    placeholder is [${key}].  The when-evaluator's expansion then replaces
    a reference by the value of the environment only when its mapped name
    is prefix-scoped, and under [ZIPLINEE_] it leaves every other reference
    as the text it was. *)
Theorem getZiplineeEnv_placeholder (prefix : string) (env : Environ) :
  (forall key,
      HasPrefix (of_string (getZiplineeEnvvarName prefix key)) (of_string prefix) = false ->
      getZiplineeEnv prefix env key = "${" +:+ getZiplineeEnvvarName prefix key +:+ "}") /\
  (forall key,
      HasPrefix (of_string (getZiplineeEnvvarName prefix key)) (of_string prefix) = true ->
      getZiplineeEnv prefix env key = Getenv env (getZiplineeEnvvarName prefix key)) /\
  (forall key,
      HasPrefix (of_string key) (of_string "ZIPLINEE_") = false ->
      getZiplineeEnv "ZIPLINEE_" env key = "${" +:+ key +:+ "}") /\
  (forall segs,
      forallb wfSegment segs = true ->
      expandInput "ZIPLINEE_" env (render segs)
      = to_string (concat (map (fun seg =>
          match seg with
          | Lit text => of_string text
          | Ref name =>
              if HasPrefix (of_string name) (of_string "ZIPLINEE_")
              then of_string (Getenv env name)
              else renderSegment (Ref name)
          end) segs))).
Proof.
  split; [|split; [|split]].
  - intros key H. unfold getZiplineeEnv. by rewrite H.
  - intros key H. unfold getZiplineeEnv. by rewrite H.
  - intros key H. unfold getZiplineeEnv.
    by rewrite getZiplineeEnvvarName_production, H.
  - intros segs Hwf. rewrite expandInput_segments by done.
    do 2 f_equal. apply map_ext. intros [text|name]; [done|].
    cbn [expandSegment renderSegment]. unfold getZiplineeEnv.
    rewrite getZiplineeEnvvarName_production.
    destruct (HasPrefix (of_string name) (of_string "ZIPLINEE_")); [done|].
    rewrite !of_string_app. reflexivity.
Qed.

Lemma getZiplineeEnv_placeholder_witness :
  let env : Environ := {[ "HOME" := "/root"; "TESTPREFIX_BUILD_STATUS" := "succeeded" ]} in
  getZiplineeEnv "TESTPREFIX_" env "HOME" = "${HOME}" /\
  getZiplineeEnv "TESTPREFIX_" env "ZIPLINEE_BUILD_STATUS" = "succeeded" /\
  getZiplineeEnv "ZIPLINEE_" env "HOME" = "${HOME}" /\
  expandInput "ZIPLINEE_" env "status == '${HOME}'" = "status == '${HOME}'".
Proof.
  intros env.
  destruct (getZiplineeEnv_placeholder "TESTPREFIX_" env) as (Hp & Hv & _ & _).
  destruct (getZiplineeEnv_placeholder "ZIPLINEE_" env) as (_ & _ & Hz & Hexp).
  split; [|split; [|split]].
  - apply (Hp "HOME"). reflexivity.
  - apply (Hv "ZIPLINEE_BUILD_STATUS"). reflexivity.
  - apply (Hz "HOME"). reflexivity.
  - apply (Hexp [Lit "status == '"; Ref "HOME"; Lit "'"]). reflexivity.
Defined.

End WhenProofs.

(** ** Trigger variables *)

Module EventProofs.
Import GoStrings Envvar Examples StringProofs.

Lemma to_string_app (a b : bytes) : to_string (a ++ b) = to_string a +:+ to_string b.
Proof.
  unfold to_string. induction a as [|c a IH]; [done|].
  cbn [app string_of_list_ascii String.app]. by rewrite IH.
Qed.

(** An occurrence at the start of the text is replaced, and the scan goes
    on behind it. *)
Lemma Replace_prefix (old new rest : bytes) :
  old <> [] -> Replace (old ++ rest) old new = new ++ Replace rest old new.
Proof.
  intros Hold. unfold Replace.
  destruct old as [|o old']; [done|].
  pose proof (HasPrefix_app (o :: old') rest) as Hp.
  cbn [app] in Hp |- *. cbn [Replace_go]. rewrite Hp. f_equal.
  rewrite Replace_go_skip. f_equal.
  replace (List.length (o :: old') - 1)%nat with (List.length old') by (simpl; lia).
  apply drop_app_length.
Qed.

(** No occurrence starts inside [TRIGGER_]. *)
Lemma Replace_TRIGGER (new rest : bytes) :
  Replace (of_string "TRIGGER_" ++ rest) (of_string "ZIPLINEE_") new
  = of_string "TRIGGER_" ++ Replace rest (of_string "ZIPLINEE_") new.
Proof. reflexivity. Qed.

Lemma setenvAll_app (l1 l2 : list (string * string)) (env : Environ) :
  setenvAll (l1 ++ l2) env
  = match setenvAll l1 env with
    | (env', None) => setenvAll l2 env'
    | (env', Some e) => (env', Some e)
    end.
Proof.
  revert env. induction l1 as [|kv l1 IH]; intros env; [done|].
  cbn [app setenvAll]. destruct (Setenv kv.1 kv.2 env) as [env' [e|]]; [done|].
  apply IH.
Qed.

Lemma setenvAll_accepted (l : list (string * string)) (env : Environ) :
  Forall validAssignment l -> setenvAll l env = (foldl assign env l, None).
Proof.
  revert env. induction l as [|kv l IH]; intros env Hv; [done|].
  apply Forall_cons in Hv as [Hkv Hv].
  cbn [setenvAll foldl]. unfold Setenv. unfold validAssignment in Hkv. rewrite Hkv.
  by apply IH.
Qed.

Lemma setenvAll_refused (accepted rest : list (string * string)) kv (env : Environ) :
  Forall validAssignment accepted -> ~ validAssignment kv ->
  setenvAll (accepted ++ kv :: rest) env = (foldl assign env accepted, Some EINVAL).
Proof.
  intros Hacc Hkv. rewrite setenvAll_app, setenvAll_accepted by done.
  cbn [setenvAll]. unfold Setenv. unfold validAssignment in Hkv.
  by destruct (setenvValid kv.1 kv.2).
Qed.

Section Events.
Variable prefix : string.
Variable ToUpperSnakeCase : string -> string.

Lemma setKindVariable kind field value env :
  setZiplineeEnv prefix
    ("ZIPLINEE_TRIGGER_" +:+ ToUpperSnakeCase kind +:+ "_" +:+ ToUpperSnakeCase field)
    value env
  = Setenv (kindVariable prefix ToUpperSnakeCase kind field) value env.
Proof. unfold setZiplineeEnv, kindVariable. cbv zeta. exact eq_refl. Qed.

Lemma setNameVariable e field value env :
  setZiplineeEnv prefix
    ("ZIPLINEE_TRIGGER_" +:+ ToUpperSnakeCase (Name e) +:+ "_" +:+ ToUpperSnakeCase field)
    value env
  = Setenv (nameVariable prefix ToUpperSnakeCase e field) value env.
Proof. unfold setZiplineeEnv, nameVariable. cbv zeta. exact eq_refl. Qed.

(** The loop over [j] is the run of the calls of its fields. *)
Lemma setPropertyEnvvars_run e kind properties env :
  setPropertyEnvvars prefix ToUpperSnakeCase e kind properties env
  = setenvAll (flat_map (fieldAssignments prefix ToUpperSnakeCase e kind) properties) env.
Proof.
  revert env. induction properties as [|[field value] rest IH]; intros env; [done|].
  cbn [setPropertyEnvvars flat_map]. rewrite setenvAll_app.
  set (tail := flat_map (fieldAssignments prefix ToUpperSnakeCase e kind) rest) in *.
  clearbody tail.
  unfold fieldAssignments. cbn [fst snd].
  destruct (Fired e); destruct (decide (Name e = "")) as [Hn|Hn].
  - rewrite Hn. cbn [String.eqb negb app setenvAll fst snd].
    rewrite setKindVariable.
    destruct (Setenv _ _ env) as [env1 [e1|]]; [done|]. apply IH.
  - apply String.eqb_neq in Hn. rewrite Hn. cbn [negb app setenvAll fst snd].
    rewrite setKindVariable.
    destruct (Setenv _ _ env) as [env1 [e1|]]; [done|].
    rewrite setNameVariable.
    destruct (Setenv _ _ env1) as [env2 [e2|]]; [done|]. apply IH.
  - rewrite Hn. cbn [String.eqb negb app setenvAll]. apply IH.
  - apply String.eqb_neq in Hn. rewrite Hn. cbn [negb app setenvAll fst snd].
    rewrite setNameVariable.
    destruct (Setenv _ _ env) as [env1 [e1|]]; [done|]. apply IH.
Qed.

(** The loop over [i]. *)
Lemma setTriggerEnvvars_run e (fields : list (string * option Payload)) env :
  setTriggerEnvvars prefix ToUpperSnakeCase e fields env
  = setenvAll
      (flat_map (fun f : string * option Payload =>
                   match f.2 with
                   | None => []
                   | Some properties =>
                       flat_map (fieldAssignments prefix ToUpperSnakeCase e f.1) properties
                   end) fields) env.
Proof.
  revert env.
  induction fields as [|[kind [properties|]] rest IH]; intros env; [done| |].
  - cbn [flat_map fst snd setTriggerEnvvars].
    rewrite setenvAll_app, setPropertyEnvvars_run.
    destruct (setenvAll _ env) as [env1 [e1|]]; [done|]. apply IH.
  - cbn [flat_map fst snd app setTriggerEnvvars]. apply IH.
Qed.

(** The loop over the events. *)
Lemma setZiplineeEventEnvvars_run events env :
  setZiplineeEventEnvvars prefix ToUpperSnakeCase events env
  = setenvAll (triggerAssignments prefix ToUpperSnakeCase events) env.
Proof.
  revert env. induction events as [|e rest IH]; intros env; [done|].
  unfold triggerAssignments. cbn [flat_map setZiplineeEventEnvvars].
  rewrite setenvAll_app. unfold eventAssignments at 1.
  rewrite setTriggerEnvvars_run.
  destruct (setenvAll _ env) as [env1 [e1|]]; [done|]. apply IH.
Qed.

(** The name the code gives a variable: the prefix, [TRIGGER_], and the
    rest of the pattern with every [ZIPLINEE_] in it replaced by the
    prefix. *)
Lemma mapped_trigger_name (rest : string) :
  getZiplineeEnvvarName prefix ("ZIPLINEE_TRIGGER_" +:+ rest)
  = prefix +:+ "TRIGGER_" +:+ getZiplineeEnvvarName prefix rest.
Proof.
  unfold getZiplineeEnvvarName. rewrite of_string_app.
  change (of_string "ZIPLINEE_TRIGGER_")
    with (of_string "ZIPLINEE_" ++ of_string "TRIGGER_").
  rewrite <- (app_assoc (of_string "ZIPLINEE_")).
  rewrite Replace_prefix by done.
  rewrite Replace_TRIGGER.
  by rewrite !to_string_app, !to_of_string.
Qed.

Lemma kindVariable_mapped kind field :
  kindVariable prefix ToUpperSnakeCase kind field
  = prefix +:+ "TRIGGER_" +:+
    getZiplineeEnvvarName prefix (ToUpperSnakeCase kind +:+ "_" +:+ ToUpperSnakeCase field).
Proof. apply mapped_trigger_name. Qed.

Lemma nameVariable_mapped e field :
  nameVariable prefix ToUpperSnakeCase e field
  = prefix +:+ "TRIGGER_" +:+
    getZiplineeEnvvarName prefix
      (ToUpperSnakeCase (Name e) +:+ "_" +:+ ToUpperSnakeCase field).
Proof. apply mapped_trigger_name. Qed.

End Events.

Lemma foldl_assign_is_Some (l : list (string * string)) (env : Environ) k :
  is_Some (env !! k) \/ In k (map fst l) -> is_Some (foldl assign env l !! k).
Proof.
  revert env. induction l as [|kv l IH]; intros env H; simpl in *.
  - by destruct H.
  - apply IH. unfold assign.
    destruct (decide (kv.1 = k)) as [E|E].
    + left. rewrite E, lookup_insert_eq. eauto.
    + destruct H as [H|[H|H]]; [|done|by right].
      left. by rewrite lookup_insert_ne.
Qed.

Lemma foldl_assign_frame (l : list (string * string)) (env : Environ) k :
  ~ In k (map fst l) -> foldl assign env l !! k = env !! k.
Proof.
  revert env. induction l as [|kv l IH]; intros env H; simpl in *; [done|].
  rewrite IH by tauto. unfold assign. rewrite lookup_insert_ne; [done|tauto].
Qed.

Lemma foldl_assign_last (l1 l2 : list (string * string)) (env : Environ) k v :
  ~ In k (map fst l2) -> foldl assign env (l1 ++ (k, v) :: l2) !! k = Some v.
Proof.
  intros H. rewrite foldl_app. simpl. rewrite foldl_assign_frame by done.
  unfold assign. simpl. by rewrite lookup_insert_eq.
Qed.

(** Under the prefix [ZIPLINEE_] the variables carry the pattern of the
    specification to the letter. *)
Lemma kindVariable_production (U : string -> string) kind field :
  kindVariable "ZIPLINEE_" U kind field = claimedKindVariable "ZIPLINEE_" U kind field.
Proof.
  unfold kindVariable, claimedKindVariable, getZiplineeEnvvarName.
  rewrite Replace_same by done. apply to_of_string.
Qed.

Lemma nameVariable_production (U : string -> string) e field :
  nameVariable "ZIPLINEE_" U e field = claimedNameVariable "ZIPLINEE_" U e field.
Proof.
  unfold nameVariable, claimedNameVariable, getZiplineeEnvvarName.
  rewrite Replace_same by done. apply to_of_string.
Qed.

(** C7, as stated, fails in two ways.  Under the prefix [TESTPREFIX_] an
    event named [ZIPLINEE_CI_API] gets its name variable under another name
    than the pattern: the [ZIPLINEE_] inside the name is replaced as well,
    and the variable of the pattern stays unset.  And a value that
    [os.Setenv] refuses ends the loops: the fields after it get no
    variable, although the event fired. *)
Lemma setZiplineeEventEnvvars_spec_counterexample :
  (let res := setZiplineeEventEnvvars "TESTPREFIX_" id [ciApiPipeline] ∅ in
   Name ciApiPipeline <> "" /\
   res.2 = None /\
   claimedNameVariable "TESTPREFIX_" id ciApiPipeline "BRANCH"
   = "TESTPREFIX_TRIGGER_ZIPLINEE_CI_API_BRANCH" /\
   res.1 !! claimedNameVariable "TESTPREFIX_" id ciApiPipeline "BRANCH" = None /\
   res.1 !! "TESTPREFIX_TRIGGER_TESTPREFIX_CI_API_BRANCH" = Some "main") /\
  (let res := setZiplineeEventEnvvars "ZIPLINEE_" id [gitWithNul] ∅ in
   Fired gitWithNul = true /\
   res.2 = Some EINVAL /\
   res.1 !! "ZIPLINEE_TRIGGER_GIT_EVENT" = Some "push" /\
   claimedKindVariable "ZIPLINEE_" id "GIT" "BRANCH" = "ZIPLINEE_TRIGGER_GIT_BRANCH" /\
   res.1 !! claimedKindVariable "ZIPLINEE_" id "GIT" "BRANCH" = None).
Proof.
  split.
  - cbv zeta. split; [discriminate|]. vm_compute. repeat split.
  - cbv zeta. vm_compute. repeat split.
Qed.

(** C7, amended. [setZiplineeEventEnvvars] makes, in order, the calls of
    [os.Setenv] that the fields of the non-nil payloads ask for: per field
    the kind variable exactly when the event fired, then the name variable
    exactly when the event has a name, fired or not.  The names of the
    variables are [<PREFIX>_TRIGGER_<KIND>_<FIELD>] and
    [<PREFIX>_TRIGGER_<NAME>_<FIELD>] with every [ZIPLINEE_] inside
    [<KIND>_<FIELD>] and [<NAME>_<FIELD>] replaced by the prefix: the
    pattern itself under the prefix [ZIPLINEE_].  When no call is refused
    the function returns no error, all these variables are set and no other
    variable changes.  When a call is refused the function returns its
    error [EINVAL]: the calls before it have been made, no later one is. *)
Theorem setZiplineeEventEnvvars_spec (prefix : string) (U : string -> string)
    (events : list ZiplineeEvent) (env : Environ) :
  let attempted := triggerAssignments prefix U events in
  let res := setZiplineeEventEnvvars prefix U events env in
  res = setenvAll attempted env /\
  (forall e kind properties field value,
      In e events -> In (kind, Some properties) (Triggers e) ->
      In (field, value) properties ->
      fieldAssignments prefix U e kind (field, value)
      = (if Fired e
         then [(kindVariable prefix U kind field, propertyEnvvarValue value)] else []) ++
        (if decide (Name e = "") then []
         else [(nameVariable prefix U e field, propertyEnvvarValue value)]) /\
      kindVariable prefix U kind field
      = prefix +:+ "TRIGGER_" +:+ getZiplineeEnvvarName prefix (U kind +:+ "_" +:+ U field) /\
      nameVariable prefix U e field
      = prefix +:+ "TRIGGER_" +:+ getZiplineeEnvvarName prefix (U (Name e) +:+ "_" +:+ U field) /\
      (prefix = "ZIPLINEE_" ->
       kindVariable prefix U kind field = claimedKindVariable prefix U kind field /\
       nameVariable prefix U e field = claimedNameVariable prefix U e field) /\
      (Forall validAssignment attempted ->
       (Fired e = true -> is_Some (res.1 !! kindVariable prefix U kind field)) /\
       (Name e <> "" -> is_Some (res.1 !! nameVariable prefix U e field)))) /\
  (Forall validAssignment attempted ->
   res = (foldl assign env attempted, None) /\
   forall var, ~ In var (map fst attempted) -> res.1 !! var = env !! var) /\
  (forall accepted kv rest,
      attempted = accepted ++ kv :: rest ->
      Forall validAssignment accepted -> ~ validAssignment kv ->
      res = (foldl assign env accepted, Some EINVAL)).
Proof.
  intros attempted res.
  assert (res = setenvAll attempted env) as Hrun
    by apply setZiplineeEventEnvvars_run.
  split; [exact Hrun|]. split; [|split].
  - intros e kind properties field value He Hk Hf.
    split; [reflexivity|].
    split; [apply kindVariable_mapped|].
    split; [apply nameVariable_mapped|].
    split.
    { intros ->. split; [apply kindVariable_production|apply nameVariable_production]. }
    intros Hv. rewrite Hrun, setenvAll_accepted by done. cbn [fst].
    assert (forall kv, In kv (fieldAssignments prefix U e kind (field, value)) ->
                       In kv attempted) as Hsub.
    { intros kv Hkv. apply in_flat_map. exists e. split; [assumption|].
      apply in_flat_map. exists (kind, Some properties). split; [assumption|].
      cbn [snd fst]. apply in_flat_map. exists (field, value). split; assumption. }
    unfold fieldAssignments in Hsub. cbn [fst snd] in Hsub.
    split.
    + intros Hfired. apply foldl_assign_is_Some. right.
      apply in_map_iff.
      exists (kindVariable prefix U kind field, propertyEnvvarValue value).
      split; [reflexivity|]. apply Hsub. rewrite Hfired.
      apply in_or_app. left. apply in_eq.
    + intros Hname. apply foldl_assign_is_Some. right.
      apply in_map_iff.
      exists (nameVariable prefix U e field, propertyEnvvarValue value).
      split; [reflexivity|]. apply Hsub.
      apply in_or_app. right. destruct (decide (Name e = "")); [contradiction|].
      apply in_eq.
  - intros Hv. rewrite Hrun, setenvAll_accepted by done.
    split; [reflexivity|]. intros var Hvar. cbn [fst]. by apply foldl_assign_frame.
  - intros accepted kv rest Hsplit Hacc Hkv.
    rewrite Hrun, Hsplit. by apply setenvAll_refused.
Qed.

Lemma setZiplineeEventEnvvars_spec_witness :
  (let res := setZiplineeEventEnvvars "TESTPREFIX_" id [firedPipeline; namedPipeline] ∅ in
   res.2 = None /\
   res.1 !! "TESTPREFIX_TRIGGER_PIPELINE_BRANCH" = Some "main" /\
   res.1 !! "TESTPREFIX_TRIGGER_PIPELINE_STATUS" = Some "succeeded" /\
   res.1 !! "TESTPREFIX_TRIGGER_UPSTREAM_BRANCH" = Some "main" /\
   res.1 !! "TESTPREFIX_TRIGGER_UPSTREAM_TIME" = Some "2009-11-17T20:34:58Z" /\
   res.1 !! "TESTPREFIX_TRIGGER_PIPELINE_TIME" = None) /\
  setZiplineeEventEnvvars "ZIPLINEE_" id [gitWithNul] ∅
  = ({[ "ZIPLINEE_TRIGGER_GIT_EVENT" := "push" ]}, Some EINVAL).
Proof.
  split.
  - intros res.
    destruct (setZiplineeEventEnvvars_spec "TESTPREFIX_" id
                [firedPipeline; namedPipeline] ∅) as (_ & _ & Hok & _).
    destruct Hok as [Heq _].
    { vm_compute. repeat (constructor; [reflexivity|]). constructor. }
    fold res in Heq. rewrite Heq. vm_compute. repeat split.
  - destruct (setZiplineeEventEnvvars_spec "ZIPLINEE_" id [gitWithNul] ∅)
      as (_ & _ & _ & Hrefused).
    rewrite (Hrefused [("ZIPLINEE_TRIGGER_GIT_EVENT", "push")]
               ("ZIPLINEE_TRIGGER_GIT_REPOSITORY", String zero "repo")
               [("ZIPLINEE_TRIGGER_GIT_BRANCH", "main")]).
    + reflexivity.
    + vm_compute. reflexivity.
    + repeat constructor.
    + vm_compute. discriminate.
Defined.

End EventProofs.

(** ** The reporter: slim logs and fatal errors *)

Module ReporterProofs.
Import Envvar Reporter.

Lemma slimStep_idem s : slimStep (slimStep s) = slimStep s.
Proof.
  unfold slimStep. destruct (String.eqb (Status s) LogStatusSucceeded) eqn:E.
  - destruct (LogLines s) as [|first rest] eqn:El.
    + by rewrite E, El.
    + cbn [setLogLines Status LogLines]. by rewrite E.
  - by rewrite E.
Qed.

Lemma slimStep_Status s : Status (slimStep s) = Status s.
Proof.
  unfold slimStep. destruct (String.eqb (Status s) LogStatusSucceeded); [|done].
  by destruct (LogLines s).
Qed.

Lemma slimStep_NestedSteps s : NestedSteps (slimStep s) = NestedSteps s.
Proof.
  unfold slimStep. destruct (String.eqb (Status s) LogStatusSucceeded); [|done].
  by destruct (LogLines s).
Qed.

Lemma alter_lookup_insert {A} (f : A -> A) (h : list A) a x :
  h !! a = Some x -> alter f a h = <[a := f x]> h.
Proof.
  intros Hx. apply list_eq. intros i.
  assert (a < List.length h)%nat by (by eapply lookup_lt_Some).
  destruct (decide (i = a)) as [->|Hne].
  - by rewrite list_lookup_alter_eq, list_lookup_insert_eq, Hx.
  - by rewrite list_lookup_alter_ne, list_lookup_insert_ne.
Qed.

Lemma slimHeap_length h steps : List.length (slimHeap h steps) = List.length h.
Proof.
  unfold slimHeap. revert h. induction steps as [|a steps IH]; intros h; simpl; [done|].
  by rewrite IH, length_alter.
Qed.

Lemma slimHeap_lookup h steps (a : StepPtr) :
  slimHeap h steps !! a
  = if decide (a ∈ steps) then slimStep <$> h !! a else h !! a.
Proof.
  unfold slimHeap. revert h. induction steps as [|x steps IH]; intros h; cbn [foldl].
  - by rewrite decide_False by apply not_elem_of_nil.
  - rewrite IH. destruct (decide (x = a)) as [->|Hne].
    + rewrite list_lookup_alter_eq.
      rewrite (decide_True (P := a ∈ a :: steps)) by apply list_elem_of_here.
      destruct (decide (a ∈ steps)); [|done].
      destruct (h !! a) as [s|]; simpl; [|done]. by rewrite slimStep_idem.
    + rewrite list_lookup_alter_ne by done.
      destruct (decide (a ∈ steps)) as [Hin|Hin].
      * by rewrite decide_True by (by apply list_elem_of_further).
      * rewrite decide_False; [done|]. intros [?|?]%elem_of_cons; congruence.
Qed.

(** Heaps whose steps point to the same nested steps hold the same steps
    for a log. *)
Lemma reaches_nested_ext (h h' : list BuildLogStep) roots a :
  (forall b, NestedSteps <$> h' !! b = NestedSteps <$> h !! b) ->
  reaches h roots a -> reaches h' roots a.
Proof.
  intros Hext. induction 1 as [a Ha|a s b _ IH Hs Hb].
  - by apply reaches_listed.
  - pose proof (Hext a) as Hn. rewrite Hs in Hn.
    destruct (h' !! a) as [s'|] eqn:Hs'; [|done].
    simpl in Hn. injection Hn as Hn.
    apply (reaches_nested h' roots a s' b); [exact IH|exact Hs'|by rewrite Hn].
Qed.

Lemma slimHeap_NestedSteps h steps (a : StepPtr) :
  NestedSteps <$> slimHeap h steps !! a = NestedSteps <$> h !! a.
Proof.
  rewrite slimHeap_lookup. destruct (decide (a ∈ steps)); [|done].
  destruct (h !! a) as [s|]; [|done]. simpl. by rewrite slimStep_NestedSteps.
Qed.

(** Slimming does not change which steps a log holds. *)
Lemma reaches_slimHeap h steps roots a :
  reaches (slimHeap h steps) roots a <-> reaches h roots a.
Proof.
  split; apply reaches_nested_ext; intros b.
  - symmetry. apply slimHeap_NestedSteps.
  - apply slimHeap_NestedSteps.
Qed.

Section Helper.
Variable runAsJob : bool.
Variable config : BuilderConfig.
Variable podName : string.
Variable httpDo : list Request -> Request -> option error.
Variable timeNow : nat -> Time.

Abbreviation Core := (SendBuildJobLogEventCore config httpDo).
Abbreviation SendLogs := (SendBuildJobLogEvent config httpDo).

Lemma slimLoop_run steps acc w :
  validPtrs w steps ->
  slimLoop steps acc w = Returned (acc ++ steps) (withHeap w (slimHeap (heap w) steps)).
Proof.
  revert acc w. induction steps as [|a steps IH]; intros acc w Hv.
  - simpl. rewrite app_nil_r. by destruct w.
  - apply Forall_cons in Hv as [Ha Hv].
    destruct (lookup_lt_is_Some_2 _ _ Ha) as [s Hs].
    cbn [slimLoop]. unfold mbind, M_bind, bind, load. rewrite Hs.
    assert (forall w', heap w' = alter slimStep a (heap w) ->
              requests w' = requests w -> ticks w' = ticks w ->
              slimLoop steps (acc ++ [a]) w'
              = Returned (acc ++ a :: steps)
                  (withHeap w (slimHeap (heap w) (a :: steps)))) as Hnext.
    { intros w' Hh Hr Ht. rewrite IH.
      - rewrite <- (assoc_L (++)). simpl. f_equal.
        unfold withHeap. by rewrite Hh, Hr, Ht.
      - unfold validPtrs. rewrite Hh, length_alter. exact Hv. }
    rewrite (alter_lookup_insert _ _ _ _ Hs) in Hnext.
    unfold slimStep in Hnext.
    destruct (String.eqb (Status s) LogStatusSucceeded).
    + destruct (LogLines s) as [|first rest]; simpl.
      * apply Hnext; [|done..]. by rewrite list_insert_id.
      * by apply Hnext.
    + simpl. apply Hnext; [|done..]. by rewrite list_insert_id.
Qed.

Lemma Core_sends env buildLog w :
  sendsLogs config env ->
  Core buildLog w
  = Returned (httpDo (requests w) (logsRequest env buildLog w))
             (withRequest w (logsRequest env buildLog w)).
Proof.
  intros (ci & jobName & Hci & Hjn & Hne & Henv).
  unfold SendBuildJobLogEventCore, mbind, M_bind, bind, mret, M_ret.
  rewrite Hci, Hjn. simpl. rewrite Hne.
  destruct (ConfigJobType config).
  - by subst env.
  - destruct Henv as (id & -> & ->). reflexivity.
  - destruct Henv as (id & -> & ->). reflexivity.
  - by subst env.
Qed.

Lemma Core_failed buildLog w e w1 :
  Core buildLog w = Returned (Some e) w1 -> exists env, sendsLogs config env.
Proof.
  unfold SendBuildJobLogEventCore, mbind, M_bind, bind, mret, M_ret.
  destruct (CIServer config) as [ci|] eqn:Hci; [|done].
  destruct (JobName config) as [jobName|] eqn:Hjn; [|done]. simpl.
  destruct (nonEmpty (PostLogsURL ci) && nonEmpty (JWT ci) && nonEmpty jobName) eqn:Hne;
    [|done].
  destruct (ConfigJobType config) eqn:Hjt.
  - intros _. exists BuildLogEnvelope, ci, jobName. by rewrite Hjt.
  - destruct (ReleaseID config) as [id|] eqn:Hid; [|done].
    intros _. exists (ReleaseLogEnvelope id), ci, jobName. rewrite Hjt. eauto 10.
  - destruct (BotID config) as [id|] eqn:Hid; [|done].
    intros _. exists (BotLogEnvelope id), ci, jobName. rewrite Hjt. eauto 10.
  - intros _. exists BuildLogEnvelope, ci, jobName. by rewrite Hjt.
Qed.

(** The whole of [SendBuildJobLogEvent] after a failed first attempt. *)
Lemma SendLogs_after_failure env buildLog w e :
  sendsLogs config env -> validPtrs w (Steps buildLog) ->
  httpDo (requests w) (logsRequest env buildLog w) = Some e ->
  let w1 := withRequest w (logsRequest env buildLog w) in
  let w2 := withHeap w1 (slimHeap (heap w) (Steps buildLog)) in
  let second := logsRequest env (setSteps buildLog (Steps buildLog)) w2 in
  SendLogs buildLog w = Returned (httpDo (requests w2) second) (withRequest w2 second).
Proof.
  intros Hcfg Hv Hfail w1 w2 second.
  unfold SendBuildJobLogEvent, mbind, M_bind, bind.
  rewrite (Core_sends env) by done. rewrite Hfail.
  rewrite slimLoop_run by done. simpl app.
  by rewrite (Core_sends env).
Qed.

(** When the first attempt goes through there is one request and no step
    is touched. *)
Lemma SendLogs_after_success env buildLog w :
  sendsLogs config env ->
  httpDo (requests w) (logsRequest env buildLog w) = None ->
  SendLogs buildLog w = Returned None (withRequest w (logsRequest env buildLog w)).
Proof.
  intros Hcfg Hok. unfold SendBuildJobLogEvent, mbind, M_bind, bind.
  rewrite (Core_sends env) by done. by rewrite Hok.
Qed.

(** C1, amended. When the first attempt to send the log fails, a second
    request is made.  In its payload every step listed in [buildLog.Steps]
    that had succeeded and had at least one line carries exactly one line,
    the truncation marker with the number and the timestamp of the step's
    first line, and every listed step whose status is not succeeded is as
    it was.  The loop does not follow [NestedSteps]: the second payload
    carries the same steps as the first, and every step that is not itself
    an entry of [buildLog.Steps], so every step that is only nested under
    another one, is sent as it was, whatever its status. *)
Theorem SendBuildJobLogEvent_slim_fallback (buildLog : BuildLog) (w w1 : World) (e : error) :
  validPtrs w (Steps buildLog) ->
  Core buildLog w = Returned (Some e) w1 ->
  exists first second result w',
    SendLogs buildLog w = Returned result w' /\
    requests w' = requests w ++ [PostLogs first; PostLogs second] /\
    log first = buildLog /\ memory first = heap w /\
    Steps (log second) = Steps buildLog /\
    (forall i a s,
      Steps buildLog !! i = Some a -> heap w !! a = Some s ->
      exists s',
        listedSteps second !! i = Some (Some s') /\
        Step s' = Step s /\ Status s' = Status s /\
        NestedSteps s' = NestedSteps s /\
        (Status s = LogStatusSucceeded ->
         forall l rest, LogLines s = l :: rest ->
           LogLines s' = [ {| LineNumber := LineNumber l; Timestamp := Timestamp l;
                              StreamType := "stdout"; Text := truncationMarker |} ]) /\
        (Status s <> LogStatusSucceeded -> s' = s)) /\
    (forall a, carries second a <-> carries first a) /\
    (forall a, a ∉ Steps buildLog -> memory second !! a = heap w !! a).
Proof.
  intros Hv Hfirst.
  destruct (Core_failed _ _ _ _ Hfirst) as [env Hcfg].
  pose proof Hfirst as Hfail. rewrite (Core_sends env) in Hfail by done.
  injection Hfail as Hfail _.
  eexists _, _, _, _.
  split; [by apply (SendLogs_after_failure env _ _ e)|].
  split; [by simpl; rewrite <- (assoc_L (++))|].
  split; [done|]. split; [done|]. split; [done|].
  split; [|split].
  - intros i a s Hi Ha. exists (slimStep s).
    split; [|split; [|split; [|split; [|split]]]].
    + unfold listedSteps. cbn [log memory setSteps Steps logsRequest withHeap heap].
      rewrite list_lookup_fmap, Hi. simpl. f_equal.
      rewrite slimHeap_lookup, Ha.
      rewrite decide_True; [done|]. apply list_elem_of_lookup. eauto.
    + unfold slimStep. destruct (String.eqb (Status s) LogStatusSucceeded); [|done].
      by destruct (LogLines s).
    + apply slimStep_Status.
    + apply slimStep_NestedSteps.
    + intros Hs l rest Hl. unfold slimStep. by rewrite Hs, Hl.
    + intros Hs. unfold slimStep. apply String.eqb_neq in Hs. by rewrite Hs.
  - intros a. unfold carries.
    cbn [log memory setSteps Steps logsRequest withHeap heap].
    apply reaches_slimHeap.
  - intros a Ha. cbn [memory logsRequest withHeap heap].
    by rewrite slimHeap_lookup, decide_False.
Qed.

(** C10, amended. The second payload is built from the caller's own step
    pointers: after a failed first attempt, every step listed in the
    caller's [buildLog.Steps] that succeeded and has at least one line
    holds the marker line alone, no step is allocated to keep the lines,
    and every other step of the heap is as it was: a listed step that did
    not succeed or has no line, and every step that is not an entry of
    [buildLog.Steps], so every step that is only nested under another. *)
Theorem SendBuildJobLogEvent_overwrites_caller_steps
    (buildLog : BuildLog) (w w1 : World) (e : error) :
  validPtrs w (Steps buildLog) ->
  Core buildLog w = Returned (Some e) w1 ->
  exists result w',
    SendLogs buildLog w = Returned result w' /\
    List.length (heap w') = List.length (heap w) /\
    (forall a s l rest,
        a ∈ Steps buildLog -> heap w !! a = Some s ->
        Status s = LogStatusSucceeded -> LogLines s = l :: rest ->
        heap w' !! a = Some (setLogLines s [markerLine l])) /\
    (forall a s,
        heap w !! a = Some s ->
        a ∉ Steps buildLog \/ Status s <> LogStatusSucceeded \/ LogLines s = [] ->
        heap w' !! a = Some s).
Proof.
  intros Hv Hfirst.
  destruct (Core_failed _ _ _ _ Hfirst) as [env Hcfg].
  pose proof Hfirst as Hfail. rewrite (Core_sends env) in Hfail by done.
  injection Hfail as Hfail _.
  eexists _, _.
  split; [by apply (SendLogs_after_failure env _ _ e)|].
  cbn [withRequest withHeap heap].
  split; [apply slimHeap_length|]. split.
  - intros a s l rest Hin Ha Hs Hl.
    rewrite slimHeap_lookup, Ha, decide_True by done.
    simpl. unfold slimStep. by rewrite Hs, Hl.
  - intros a s Ha Hcase. rewrite slimHeap_lookup, Ha.
    destruct (decide (a ∈ Steps buildLog)) as [Hin|Hin]; [|done].
    simpl. f_equal. unfold slimStep.
    destruct Hcase as [Hc|[Hc|Hc]]; [done| |].
    + apply String.eqb_neq in Hc. by rewrite Hc.
    + rewrite Hc. by destruct (String.eqb (Status s) LogStatusSucceeded).
Qed.

(** *** [HandleFatal] *)

Lemma sendBuilderEvent_run buildStatus buildEventType w :
  wfConfig config ->
  exists r,
    sendBuilderEvent config podName httpDo buildStatus buildEventType w
    = Returned r (withRequests w (eventRequests config podName buildEventType buildStatus)).
Proof.
  intros ([ci Hci] & [jobName Hjn] & _).
  unfold sendBuilderEvent, eventRequests, mbind, M_bind, bind, mret, M_ret, withRequests.
  rewrite Hci, Hjn. simpl.
  destruct (nonEmpty (BuilderEventsURL ci) && nonEmpty (JWT ci) && nonEmpty jobName).
  - eexists. reflexivity.
  - exists None. unfold ret. rewrite app_nil_r. by destruct w.
Qed.

(** Under a well-formed configuration [SendBuildJobLogEvent] returns; it
    makes logs requests only, and allocates no step. *)
Lemma SendLogs_returns buildLog w :
  wfConfig config -> validPtrs w (Steps buildLog) ->
  exists r rs w',
    SendLogs buildLog w = Returned r w' /\
    requests w' = requests w ++ rs /\ Forall (isLogsRequestOf buildLog) rs /\
    List.length (heap w') = List.length (heap w) /\ ticks w' = ticks w.
Proof.
  intros ([ci Hci] & [jobName Hjn] & Hrel & Hbot) Hv.
  destruct (nonEmpty (PostLogsURL ci) && nonEmpty (JWT ci) && nonEmpty jobName) eqn:Hne.
  - assert (exists env, sendsLogs config env) as [env Hcfg].
    { destruct (ConfigJobType config) eqn:Hjt.
      - exists BuildLogEnvelope, ci, jobName. by rewrite Hjt.
      - destruct (Hrel eq_refl) as [id Hid].
        exists (ReleaseLogEnvelope id), ci, jobName. rewrite Hjt. eauto 10.
      - destruct (Hbot eq_refl) as [id Hid].
        exists (BotLogEnvelope id), ci, jobName. rewrite Hjt. eauto 10.
      - exists BuildLogEnvelope, ci, jobName. by rewrite Hjt. }
    destruct (httpDo (requests w) (logsRequest env buildLog w)) as [e|] eqn:Hdo.
    + eexists _, _, _. split; [by apply (SendLogs_after_failure env _ _ e)|].
      split; [by simpl; rewrite <- (assoc_L (++))|].
      split; [|split; [apply slimHeap_length|done]].
      repeat constructor; eexists; split; reflexivity.
    + unfold SendBuildJobLogEvent, mbind, M_bind, bind.
      rewrite (Core_sends env) by done. rewrite Hdo.
      eexists _, _, _. split; [reflexivity|]. split; [reflexivity|].
      split; [|done]. repeat constructor; eexists; split; reflexivity.
  - exists None, [], w.
    unfold SendBuildJobLogEvent, SendBuildJobLogEventCore, mbind, M_bind, bind, mret, M_ret.
    rewrite Hci, Hjn. simpl. rewrite Hne. simpl.
    split; [done|]. by rewrite app_nil_r.
Qed.

Lemma HandleFatal_unfold buildLog err message w :
  let logLines := fatalLogLines timeNow err message (ticks w) in
  let w0 := {| heap := heap w ++ [fatalStepOf logLines];
               requests := requests w;
               ticks := (ticks w + List.length logLines)%nat |} in
  let augmented := setSteps buildLog (Steps buildLog ++ [List.length (heap w)]) in
  HandleFatal runAsJob config podName httpDo timeNow buildLog err message w
  = (SendBuildFinishedEvent config podName httpDo LogStatusFailed ;;
     SendLogs augmented ;;
     SendBuildCleanEvent config podName httpDo LogStatusFailed ;;
     if runAsJob then osExit 0 else osExit 1) w0.
Proof.
  unfold HandleFatal, fatalLogLines, mbind, M_bind, bind, mret, M_ret, ret, now, alloc.
  destruct err as [e|]; destruct (nonEmpty message); cbn [heap requests ticks app List.length];
    rewrite ?Nat.add_0_r, ?Nat.add_1_r;
    rewrite ?(Nat.add_comm (ticks w) 2); reflexivity.
Qed.

(** C5. [HandleFatal] adds one step to the log, named [init], failed,
    with exit code -1, whose lines are the error text (when there is an
    error) and the message (when it is not empty) on stderr, numbered
    from 1; it then calls [SendBuildFinishedEvent] with the failed
    status, [SendBuildJobLogEvent] with the log so extended and
    [SendBuildCleanEvent] with the failed status, in this order, and ends
    the process with code 0 when run as a job and with the code of a
    fatal log otherwise. *)
Theorem HandleFatal_sequence (buildLog : BuildLog) (err : option error)
    (message : string) (w : World) :
  wfConfig config -> validPtrs w (Steps buildLog) ->
  exists logLines w0 r1 w1 r2 w2 r3 w3 logsRequests,
    let augmented := setSteps buildLog (Steps buildLog ++ [List.length (heap w)]) in
    map Text logLines
    = match err with Some e => [Error e] | None => [] end ++
      (if decide (message = "") then [] else [message]) /\
    Forall (fun l => StreamType l = "stderr") logLines /\
    map LineNumber logLines = map Z.of_nat (seq 1 (List.length logLines)) /\
    heap w0 = heap w ++ [ {| Step := "init"; Depth := 0; LogLines := logLines;
                             ExitCode := -1; Status := LogStatusFailed;
                             NestedSteps := [] |} ] /\
    requests w0 = requests w /\
    SendBuildFinishedEvent config podName httpDo LogStatusFailed w0 = Returned r1 w1 /\
    SendLogs augmented w1 = Returned r2 w2 /\
    SendBuildCleanEvent config podName httpDo LogStatusFailed w2 = Returned r3 w3 /\
    HandleFatal runAsJob config podName httpDo timeNow buildLog err message w
    = Exited (if runAsJob then 0 else 1) w3 /\
    Forall (isLogsRequestOf augmented) logsRequests /\
    requests w3
    = requests w ++ eventRequests config podName BuildEventTypeUpdateStatus LogStatusFailed
        ++ logsRequests ++ eventRequests config podName BuildEventTypeClean LogStatusFailed.
Proof.
  intros Hcfg Hv.
  pose proof (HandleFatal_unfold buildLog err message w) as Hunf. cbv zeta in Hunf.
  set (logLines := fatalLogLines timeNow err message (ticks w)) in *.
  set (w0 := {| heap := heap w ++ [fatalStepOf logLines]; requests := requests w;
                ticks := (ticks w + List.length logLines)%nat |}) in *.
  set (augmented := setSteps buildLog (Steps buildLog ++ [List.length (heap w)])) in *.
  destruct (sendBuilderEvent_run LogStatusFailed BuildEventTypeUpdateStatus w0 Hcfg)
    as [r1 H1].
  set (w1 := withRequests w0 _) in H1.
  assert (validPtrs w1 (Steps augmented)) as Hv1.
  { unfold validPtrs. cbn [w1 w0 withRequests heap augmented setSteps Steps].
    rewrite length_app. simpl. apply Forall_app. split.
    - eapply Forall_impl; [exact Hv|]. simpl. intros. lia.
    - repeat constructor. lia. }
  destruct (SendLogs_returns augmented w1 Hcfg Hv1)
    as (r2 & rs & w2 & H2 & Hreq2 & Hrs & _ & _).
  destruct (sendBuilderEvent_run LogStatusFailed BuildEventTypeClean w2 Hcfg)
    as [r3 H3].
  set (w3 := withRequests w2 _) in H3.
  exists logLines, w0, r1, w1, r2, w2, r3, w3, rs. cbv zeta.
  split; [|split; [|split; [|split; [|split; [|split; [|split; [|split; [|split; [|split]]]]]]]]].
  - unfold logLines, fatalLogLines, nonEmpty.
    destruct err as [e|]; destruct (decide (message = "")) as [->|Hm];
      try (apply String.eqb_neq in Hm; rewrite Hm); reflexivity.
  - unfold logLines, fatalLogLines.
    destruct err as [e|]; destruct (nonEmpty message); repeat constructor.
  - unfold logLines, fatalLogLines.
    destruct err as [e|]; destruct (nonEmpty message); reflexivity.
  - reflexivity.
  - reflexivity.
  - exact H1.
  - exact H2.
  - exact H3.
  - rewrite Hunf. unfold mbind, M_bind, bind.
    unfold SendBuildFinishedEvent, SendBuildCleanEvent.
    rewrite H1, H2, H3. by destruct runAsJob.
  - exact Hrs.
  - cbn [w3 withRequests requests]. rewrite Hreq2. cbn [w1 withRequests requests w0].
    by rewrite <- !(assoc_L (++)).
Qed.
End Helper.

End ReporterProofs.

(** ** A run of the reporter against a logs endpoint that is down *)

Module ReporterExamples.
Import Envvar Reporter Examples ReporterProofs.

Lemma exampleLog_valid : validPtrs exampleWorld (Steps exampleLog).
Proof. repeat constructor; simpl; lia. Defined.

Lemma exampleConfig_wf : wfConfig exampleConfig.
Proof. repeat split; try done; simpl; eauto. Defined.

Lemma nestedLog_valid : validPtrs nestedWorld (Steps nestedLog).
Proof. repeat constructor; simpl; lia. Defined.

(** C1, as stated, fails on a nested step: the step [lint] succeeded, holds
    three lines and is part of the second payload, where it still holds its
    three lines and no marker line. *)
Lemma SendBuildJobLogEvent_slim_fallback_counterexample :
  (exists e w1, SendBuildJobLogEventCore exampleConfig logsEndpointDown nestedLog nestedWorld
                = Returned (Some e) w1) /\
  exists first second result w',
    SendBuildJobLogEvent exampleConfig logsEndpointDown nestedLog nestedWorld
    = Returned result w' /\
    requests w' = [PostLogs first; PostLogs second] /\
    carries second 1%nat /\
    heap nestedWorld !! 1%nat = Some childStep /\
    Status childStep = LogStatusSucceeded /\
    List.length (LogLines childStep) = 3%nat /\
    memory second !! 1%nat = Some childStep /\
    ~ exists l, LogLines childStep = [l] /\ Text l = truncationMarker.
Proof.
  split; [eexists _, _; cbv; reflexivity|].
  eexists _, _, _, _. split; [cbv; reflexivity|]. split; [reflexivity|].
  split.
  { apply (reaches_nested _ _ 0%nat (setLogLines parentStep [markerLine (line 1 "running 1 nested step")])
             1%nat).
    - apply reaches_listed. apply list_elem_of_here.
    - reflexivity.
    - apply list_elem_of_here. }
  split; [reflexivity|]. split; [reflexivity|]. split; [reflexivity|].
  split; [reflexivity|].
  intros (l & Hl & _). discriminate Hl.
Qed.

Lemma SendBuildJobLogEvent_slim_fallback_witness :
  (exists second result w' s0 s1,
    SendBuildJobLogEvent exampleConfig logsEndpointDown exampleLog exampleWorld
    = Returned result w' /\
    List.last (requests w') DeleteJob = PostLogs second /\
    listedSteps second !! 0%nat = Some (Some s0) /\
    LogLines s0 = [ {| LineNumber := 1; Timestamp := 1001; StreamType := "stdout";
                       Text := truncationMarker |} ] /\
    listedSteps second !! 1%nat = Some (Some s1) /\ s1 = testStep) /\
  (exists second result w' s0,
    SendBuildJobLogEvent exampleConfig logsEndpointDown nestedLog nestedWorld
    = Returned result w' /\
    List.last (requests w') DeleteJob = PostLogs second /\
    listedSteps second !! 0%nat = Some (Some s0) /\
    LogLines s0 = [ {| LineNumber := 1; Timestamp := 1001; StreamType := "stdout";
                       Text := truncationMarker |} ] /\
    NestedSteps s0 = [1%nat] /\
    memory second !! 1%nat = Some childStep).
Proof.
  split.
  - destruct (SendBuildJobLogEvent_slim_fallback exampleConfig logsEndpointDown
                exampleLog exampleWorld _ (ErrorString "context deadline exceeded")
                exampleLog_valid eq_refl)
      as (first & second & result & w' & Hrun & Hreq & _ & _ & _ & Hsteps & _).
    destruct (Hsteps 0%nat 0%nat buildStep eq_refl eq_refl)
      as (s0 & Hs0 & _ & _ & _ & Hslim & _).
    destruct (Hsteps 1%nat 1%nat testStep eq_refl eq_refl)
      as (s1 & Hs1 & _ & _ & _ & _ & Hkeep).
    exists second, result, w', s0, s1.
    split; [exact Hrun|]. split; [by rewrite Hreq|]. split; [exact Hs0|].
    split; [exact (Hslim eq_refl (line 1 "go build") [line 2 "ok"] eq_refl)|].
    split; [exact Hs1|]. by apply Hkeep.
  - destruct (SendBuildJobLogEvent_slim_fallback exampleConfig logsEndpointDown
                nestedLog nestedWorld _ (ErrorString "context deadline exceeded")
                nestedLog_valid eq_refl)
      as (first & second & result & w' & Hrun & Hreq & _ & _ & _ & Hsteps & _ & Hrest).
    destruct (Hsteps 0%nat 0%nat parentStep eq_refl eq_refl)
      as (s0 & Hs0 & _ & _ & Hnested & Hslim & _).
    exists second, result, w', s0.
    split; [exact Hrun|]. split; [by rewrite Hreq|]. split; [exact Hs0|].
    split; [exact (Hslim eq_refl (line 1 "running 1 nested step") [] eq_refl)|].
    split; [exact Hnested|].
    rewrite (Hrest 1%nat); [reflexivity|].
    intros Hin. apply list_elem_of_singleton in Hin. discriminate Hin.
Defined.

(** C10, as stated, fails on a succeeded step without lines: it is left
    empty, and holds no marker line.  It fails on a succeeded step that is
    nested under another one too: the step [lint] of the caller's log keeps
    its three lines, because the loop visits the entries of [Steps] only. *)
Lemma SendBuildJobLogEvent_overwrites_counterexample :
  ((exists e w1, SendBuildJobLogEventCore exampleConfig logsEndpointDown exampleLog exampleWorld
                 = Returned (Some e) w1) /\
   exists result w',
     SendBuildJobLogEvent exampleConfig logsEndpointDown exampleLog exampleWorld
     = Returned result w' /\
     heap w' !! 2%nat = Some quietStep /\
     Status quietStep = LogStatusSucceeded /\
     ~ exists l, LogLines quietStep = [l] /\ Text l = truncationMarker) /\
  ((exists e w1, SendBuildJobLogEventCore exampleConfig logsEndpointDown nestedLog nestedWorld
                 = Returned (Some e) w1) /\
   exists result w',
     SendBuildJobLogEvent exampleConfig logsEndpointDown nestedLog nestedWorld
     = Returned result w' /\
     reaches (heap nestedWorld) (Steps nestedLog) 1%nat /\
     reaches (heap w') (Steps nestedLog) 1%nat /\
     heap nestedWorld !! 1%nat = Some childStep /\
     heap w' !! 1%nat = Some childStep /\
     Status childStep = LogStatusSucceeded /\
     List.length (LogLines childStep) = 3%nat /\
     ~ exists l, LogLines childStep = [l] /\ Text l = truncationMarker).
Proof.
  split.
  - split; [eexists _, _; cbv; reflexivity|].
    eexists _, _. split; [cbv; reflexivity|]. split; [reflexivity|]. split; [reflexivity|].
    intros (l & Hl & _). discriminate Hl.
  - split; [eexists _, _; cbv; reflexivity|].
    eexists _, _. split; [cbv; reflexivity|].
    split.
    { apply (reaches_nested _ _ 0%nat parentStep 1%nat).
      - apply reaches_listed. apply list_elem_of_here.
      - reflexivity.
      - apply list_elem_of_here. }
    split.
    { apply (reaches_nested _ _ 0%nat
               (setLogLines parentStep [markerLine (line 1 "running 1 nested step")]) 1%nat).
      - apply reaches_listed. apply list_elem_of_here.
      - reflexivity.
      - apply list_elem_of_here. }
    split; [reflexivity|]. split; [reflexivity|]. split; [reflexivity|].
    split; [reflexivity|].
    intros (l & Hl & _). discriminate Hl.
Qed.

Lemma SendBuildJobLogEvent_overwrites_caller_steps_witness :
  exists result w',
    SendBuildJobLogEvent exampleConfig logsEndpointDown exampleLog exampleWorld
    = Returned result w' /\
    heap w' !! 0%nat = Some (setLogLines buildStep [markerLine (line 1 "go build")]) /\
    heap w' !! 1%nat = Some testStep /\
    heap w' !! 2%nat = Some quietStep /\
    List.length (heap w') = 3%nat.
Proof.
  destruct (SendBuildJobLogEvent_overwrites_caller_steps exampleConfig logsEndpointDown
              exampleLog exampleWorld _ (ErrorString "context deadline exceeded")
              exampleLog_valid eq_refl)
    as (result & w' & Hrun & Hlen & Hslim & Hkeep).
  exists result, w'. split; [exact Hrun|].
  split; [|split; [|split]].
  - apply (Hslim 0%nat buildStep (line 1 "go build") [line 2 "ok"]);
      [| reflexivity..]. apply list_elem_of_here.
  - apply (Hkeep 1%nat testStep); [reflexivity|]. right. left. discriminate.
  - apply (Hkeep 2%nat quietStep); [reflexivity|]. right. right. reflexivity.
  - exact Hlen.
Defined.

Lemma HandleFatal_sequence_witness :
  exists w3,
    HandleFatal true exampleConfig "pod-1" logsEndpointDown exampleClock exampleLog
      (Some (ErrorString "dial unix /var/run/docker.sock")) "Error starting docker daemon"
      exampleWorld
    = Exited 0 w3 /\
    heap w3 !! 3%nat
    = Some {| Step := "init"; Depth := 0;
              LogLines := [ {| LineNumber := 1; Timestamp := 5000; StreamType := "stderr";
                               Text := "dial unix /var/run/docker.sock" |};
                            {| LineNumber := 2; Timestamp := 5001; StreamType := "stderr";
                               Text := "Error starting docker daemon" |} ];
              ExitCode := -1; Status := LogStatusFailed; NestedSteps := [] |} /\
    exists first second,
      requests w3
      = [ PostEvent BuildEventTypeUpdateStatus LogStatusFailed
            "build-ziplinee-ci-builder" "pod-1";
          PostLogs first; PostLogs second;
          PostEvent BuildEventTypeClean LogStatusFailed
            "build-ziplinee-ci-builder" "pod-1" ] /\
      Steps (log first) = [0; 1; 2; 3]%nat /\ Steps (log second) = [0; 1; 2; 3]%nat.
Proof.
  destruct (HandleFatal_sequence true exampleConfig "pod-1" logsEndpointDown exampleClock
              exampleLog (Some (ErrorString "dial unix /var/run/docker.sock"))
              "Error starting docker daemon" exampleWorld
              exampleConfig_wf exampleLog_valid)
    as (logLines & w0 & r1 & w1 & r2 & w2 & r3 & w3 & rs & _ & _ & _ & _ & _ & _ & _ & _
        & Hrun & _ & _).
  exists w3. split; [exact Hrun|].
  vm_compute in Hrun. injection Hrun as <-.
  split; [reflexivity|]. eexists _, _. split; [reflexivity|]. split; reflexivity.
Defined.

End ReporterExamples.

(** ** The cancellation timer and the docker-client guard *)

Module CIBuilderProofs.
Import CIBuilder.

Lemma cancelTimerDuration_eq (jwtExpiry now : Time) :
  cancelTimerDuration jwtExpiry now = Sub jwtExpiry now.
Proof. reflexivity. Qed.

(** Away from the ends of [Duration], the timer is armed fifteen minutes
    longer than intended. *)
Lemma cancelTimerDuration_late (jwtExpiry now : Time) :
  minDuration + 15 * Minute <= jwtExpiry - now <= maxDuration ->
  cancelTimerDuration jwtExpiry now = intendedTimerDuration jwtExpiry now + 15 * Minute.
Proof.
  unfold cancelTimerDuration, intendedTimerDuration, Sub, Add, minDuration, maxDuration, Minute.
  lia.
Qed.

(** C2. The timer is armed with the time left until the token expires: the
    fifteen minutes are computed and dropped.  With an hour left it is
    armed with sixty minutes, where the claim asks for forty-five. *)
Theorem cancelTimerDuration_drops_margin :
  (forall jwtExpiry now, cancelTimerDuration jwtExpiry now = Sub jwtExpiry now) /\
  let now := 1793491200 * 1000000000 in
  let jwtExpiry := now + 60 * Minute in
  cancelTimerDuration jwtExpiry now = 60 * Minute /\
  Sub (Add jwtExpiry (-15 * Minute)) now = 45 * Minute.
Proof. split; [reflexivity|]. split; reflexivity. Qed.

(** C4. The guard as written: with a manifest it is true whatever the
    builder type, so the docker client is created for Kubernetes too; with
    a nil manifest the first operand is false and the second dereferences
    nil. *)
Theorem createDockerClientGuard_defect :
  (forall m, createDockerClientGuard (Some m) = Some true) /\
  createDockerClientGuard (Some kubernetesManifest) = Some true /\
  intendedGuard (Some kubernetesManifest) = Some false /\
  createDockerClientGuard None = None /\
  intendedGuard None = Some false.
Proof. repeat split; reflexivity. Qed.

End CIBuilderProofs.

(** ** [makeDNSLabelSafe] twice *)

Module DNSIdempotence.
Import GoStrings Envvar.

(** C3. A run of three hyphens is cut to two, not to one, so a second
    application changes the result again. *)
Theorem makeDNSLabelSafe_not_idempotent (unicodeLower : bytes -> bytes) :
  makeDNSLabelSafe unicodeLower "a---b" = "a--b" /\
  makeDNSLabelSafe unicodeLower (makeDNSLabelSafe unicodeLower "a---b") = "a-b" /\
  makeDNSLabelSafe unicodeLower (makeDNSLabelSafe unicodeLower "a---b")
  <> makeDNSLabelSafe unicodeLower "a---b".
Proof. repeat split; try reflexivity. discriminate. Qed.

End DNSIdempotence.

(** ** Parsing the remote origin *)

Module OriginProofs.
Import GoStrings Origin StringProofs.

Example origin_tests :
  getSourceFromOrigin "https://github.com/ziplineeci/ziplinee-gcloud-mig-scaler.git" = "github.com" /\
  getSourceFromOrigin "git@github.com:ziplineeci/ziplinee-ci-builder.git" = "github.com" /\
  getOwnerFromOrigin "https://github.com/ziplineeci/ziplinee-gcloud-mig-scaler.git" = "ziplineeci" /\
  getOwnerFromOrigin "git@github.com:ziplineeci/ziplinee-ci-builder.git" = "ziplineeci" /\
  getNameFromOrigin "https://github.com/ziplineeci/ziplinee-gcloud-mig-scaler.git"
  = "ziplinee-gcloud-mig-scaler" /\
  getNameFromOrigin "git@github.com:ziplineeci/ziplinee-ci-builder.git" = "ziplinee-ci-builder".
Proof. repeat split; reflexivity. Qed.

Lemma span_spec p s taken rest :
  span p s = (taken, rest) ->
  s = taken ++ rest /\ forallb p taken = true /\
  match rest with [] => True | c :: _ => p c = false end.
Proof.
  revert taken rest. induction s as [|c t IH]; intros taken rest; simpl.
  - by intros [= <- <-].
  - destruct (p c) eqn:Hc.
    + destruct (span p t) as [taken' rest'].
      intros [= <- <-]. destruct (IH _ _ eq_refl) as (-> & Ht & Hr).
      simpl. by rewrite Hc, Ht.
    + intros [= <- <-]. simpl. by rewrite Hc.
Qed.

Lemma span_stop p (a rest : bytes) :
  forallb p a = true ->
  match rest with [] => True | c :: _ => p c = false end ->
  span p (a ++ rest) = (a, rest).
Proof.
  intros Ha Hr. induction a as [|c a IH]; simpl.
  - destruct rest as [|x rest]; [done|]. simpl. by rewrite Hr.
  - simpl in Ha. apply andb_true_iff in Ha as [Hc Ha].
    by rewrite Hc, (IH Ha).
Qed.

Lemma splitLastDotGit_last (name : bytes) :
  name <> [] -> splitLastDotGit (name ++ dotGit) = Some name.
Proof.
  induction name as [|c t IH]; [done|]. intros _.
  cbn [app splitLastDotGit].
  destruct t as [|c' t'].
  - reflexivity.
  - by rewrite IH.
Qed.

Lemma splitLastDotGit_sound (r name : bytes) :
  splitLastDotGit r = Some name ->
  name <> [] /\ exists rest, r = name ++ dotGit ++ rest.
Proof.
  revert name. induction r as [|c t IH]; intros name; [done|].
  cbn [splitLastDotGit].
  destruct (splitLastDotGit t) as [name'|].
  - intros [= <-]. destruct (IH _ eq_refl) as (_ & rest & ->).
    split; [done|]. by exists rest.
  - destruct (HasPrefix t dotGit) eqn:Hp; [|done].
    intros [= <-]. split; [done|].
    apply HasPrefix_true in Hp. exists (drop (List.length dotGit) t).
    simpl. f_equal. exact Hp.
Qed.

Lemma forallb_app_l {A} (p : A -> bool) (a b : list A) :
  forallb p (a ++ b) = true -> forallb p a = true.
Proof. rewrite forallb_app. by intros [? _]%andb_true_iff. Qed.

(** What a successful match says of the text: it is the five groups in a
    row, then [.git], then anything. *)
Lemma FindOriginSubmatch_sound (origin : bytes) groups :
  FindOriginSubmatch origin = Some groups ->
  exists scheme host sep owner name rest,
    groups = [scheme; host; [sep]; owner; name] /\
    origin = scheme ++ host ++ sep :: owner ++ "/"%char :: name ++ dotGit ++ rest /\
    (scheme = of_string "git@" \/ scheme = of_string "https://") /\
    (sep = ":"%char \/ sep = "/"%char) /\
    host <> [] /\ owner <> [] /\ name <> [] /\
    forallb notColonSlash host = true /\
    forallb notSlash owner = true /\
    forallb notSlash name = true.
Proof.
  unfold FindOriginSubmatch.
  destruct (matchScheme origin) as [[scheme rest0]|] eqn:Hs; [|done].
  assert (origin = scheme ++ rest0 /\
          (scheme = of_string "git@" \/ scheme = of_string "https://")) as [-> Hscheme].
  { unfold matchScheme in Hs.
    destruct (HasPrefix origin (of_string "git@")) eqn:H1.
    - injection Hs as <- <-. split; [|by left]. by apply HasPrefix_true in H1.
    - destruct (HasPrefix origin (of_string "https://")) eqn:H2; [|done].
      injection Hs as <- <-. split; [|by right]. by apply HasPrefix_true in H2. }
  destruct (span notColonSlash rest0) as [host rest1] eqn:Hh.
  apply span_spec in Hh as (-> & Hhost & _).
  destruct host as [|h host']; [done|].
  destruct rest1 as [|sep rest1]; [done|].
  destruct (isColon sep || isSlash sep) eqn:Hsep; [|done].
  destruct (span notSlash rest1) as [owner rest2] eqn:Ho.
  apply span_spec in Ho as (-> & Howner & _).
  destruct owner as [|o owner']; [done|].
  destruct rest2 as [|slash rest2]; [done|].
  destruct (isSlash slash) eqn:Hslash; [|done].
  destruct (span notSlash rest2) as [run rest3] eqn:Hr.
  apply span_spec in Hr as (-> & Hrun & _).
  destruct (splitLastDotGit run) as [name|] eqn:Hn; [|done].
  intros [= <-].
  apply splitLastDotGit_sound in Hn as (Hne & rest4 & ->).
  apply Ascii.eqb_eq in Hslash as ->.
  exists scheme, (h :: host'), sep, (o :: owner'), name, (rest4 ++ rest3).
  repeat split; try done.
  - by rewrite <- !app_assoc.
  - apply orb_true_iff in Hsep as [H|H]; apply Ascii.eqb_eq in H; auto.
  - by apply forallb_app_l in Hrun.
Qed.

(** A text of the shape the pattern describes is matched, and gives back
    its own parts. *)
Lemma FindOriginSubmatch_complete (scheme host owner name tail : bytes) sep :
  scheme = of_string "git@" \/ scheme = of_string "https://" ->
  sep = ":"%char \/ sep = "/"%char ->
  host <> [] -> owner <> [] -> name <> [] ->
  forallb notColonSlash host = true ->
  forallb notSlash owner = true ->
  forallb notSlash name = true ->
  match tail with [] => True | c :: _ => c = "/"%char end ->
  FindOriginSubmatch (scheme ++ host ++ sep :: owner ++ "/"%char :: name ++ dotGit ++ tail)
  = Some [scheme; host; [sep]; owner; name].
Proof.
  intros Hscheme Hsep Hh Ho Hn Hhost Howner Hname Htail.
  unfold FindOriginSubmatch.
  assert (matchScheme (scheme ++ host ++ sep :: owner ++ "/"%char :: name ++ dotGit ++ tail)
          = Some (scheme, host ++ sep :: owner ++ "/"%char :: name ++ dotGit ++ tail)) as ->.
  { destruct Hscheme as [-> | ->]; reflexivity. }
  rewrite (span_stop notColonSlash host) by (done || by destruct Hsep as [-> | ->]).
  destruct host as [|h host']; [done|].
  replace (isColon sep || isSlash sep) with true by (by destruct Hsep as [-> | ->]).
  rewrite (span_stop notSlash owner) by done.
  destruct owner as [|o owner']; [done|].
  change (isSlash "/") with true. cbv iota.
  rewrite (app_assoc name dotGit tail).
  rewrite (span_stop notSlash (name ++ dotGit) tail).
  - by rewrite splitLastDotGit_last.
  - rewrite forallb_app, Hname. reflexivity.
  - destruct tail as [|c tail]; [done|]. by rewrite Htail.
Qed.

Example origin_edges :
  getNameFromOrigin "git@github.com:owner/name.git.git" = "name.git" /\
  getSourceFromOrigin "https://example.com:8443/owner/name.git" = "" /\
  getSourceFromOrigin "http://github.com/owner/name.git" = "" /\
  getNameFromOrigin "https://github.com/owner/.git" = "" /\
  getNameFromOrigin "https://github.com/owner/name.git/info/refs" = "name".
Proof. repeat split; reflexivity. Qed.

End OriginProofs.

Module OriginTheorems.
Import GoStrings Origin StringProofs OriginProofs.

(** X1. An origin made of a scheme ([git@] or [https://]), a host without
    colon or slash, a colon or a slash, an owner without slash, a slash, a
    name without slash and [.git], at the end of the text or before a
    slash, is taken apart into its own host, owner and name. *)
Theorem origin_round_trip (scheme host sep owner name tail : string) :
  scheme = "git@" \/ scheme = "https://" ->
  sep = ":" \/ sep = "/" ->
  host <> "" -> owner <> "" -> name <> "" ->
  forallb notColonSlash (of_string host) = true ->
  forallb notSlash (of_string owner) = true ->
  forallb notSlash (of_string name) = true ->
  tail = "" \/ HasPrefix (of_string tail) (of_string "/") = true ->
  let origin := scheme +:+ host +:+ sep +:+ owner +:+ "/" +:+ name +:+ ".git" +:+ tail in
  getSourceFromOrigin origin = host /\
  getOwnerFromOrigin origin = owner /\
  getNameFromOrigin origin = name.
Proof.
  intros Hscheme Hsep Hh Ho Hn Hhost Howner Hname Htail origin.
  assert (exists c, of_string sep = [c] /\ (c = ":"%char \/ c = "/"%char)) as (c & Hc & Hc').
  { destruct Hsep as [-> | ->]; eexists; split; eauto. }
  assert (FindOriginSubmatch (of_string origin)
          = Some [of_string scheme; of_string host; [c]; of_string owner; of_string name]) as Hm.
  { unfold origin. rewrite !of_string_app, Hc.
    apply (FindOriginSubmatch_complete (of_string scheme) (of_string host)
             (of_string owner) (of_string name) (of_string tail) c); try done.
    - destruct Hscheme as [-> | ->]; auto.
    - intros E. apply Hh. apply of_string_inj. by rewrite E.
    - intros E. apply Ho. apply of_string_inj. by rewrite E.
    - intros E. apply Hn. apply of_string_inj. by rewrite E.
    - destruct Htail as [-> | Ht]; [done|].
      destruct (of_string tail) as [|x t]; [done|].
      simpl in Ht. rewrite andb_true_r in Ht. by apply Ascii.eqb_eq in Ht. }
  unfold getSourceFromOrigin, getOwnerFromOrigin, getNameFromOrigin, originGroup.
  rewrite Hm. simpl. by rewrite !to_of_string.
Qed.

Lemma origin_round_trip_witness :
  getSourceFromOrigin "git@github.com:ziplineeci/ziplinee-ci-builder.git" = "github.com" /\
  getOwnerFromOrigin "git@github.com:ziplineeci/ziplinee-ci-builder.git" = "ziplineeci" /\
  getNameFromOrigin "git@github.com:ziplineeci/ziplinee-ci-builder.git" = "ziplinee-ci-builder".
Proof.
  apply (origin_round_trip "git@" "github.com" ":" "ziplineeci" "ziplinee-ci-builder" "").
  - by left.
  - by left.
  - discriminate.
  - discriminate.
  - discriminate.
  - reflexivity.
  - reflexivity.
  - reflexivity.
  - by left.
Defined.

(** X2. The three parts of an origin are found together or not at all:
    when one of the three functions returns a non-empty string, the origin
    is the scheme, the source, a colon or slash, the owner, a slash, the
    name, [.git] and a rest, and neither the source (which has no colon
    either), the owner nor the name has a slash in it. *)
Theorem origin_parts_sound (origin : string) :
  getSourceFromOrigin origin <> "" \/ getOwnerFromOrigin origin <> "" \/
  getNameFromOrigin origin <> "" ->
  let source := getSourceFromOrigin origin in
  let owner := getOwnerFromOrigin origin in
  let name := getNameFromOrigin origin in
  source <> "" /\ owner <> "" /\ name <> "" /\
  forallb notColonSlash (of_string source) = true /\
  forallb notSlash (of_string owner) = true /\
  forallb notSlash (of_string name) = true /\
  exists scheme sep rest,
    (scheme = "git@" \/ scheme = "https://") /\ (sep = ":" \/ sep = "/") /\
    origin = scheme +:+ source +:+ sep +:+ owner +:+ "/" +:+ name +:+ ".git" +:+ rest.
Proof.
  unfold getSourceFromOrigin, getOwnerFromOrigin, getNameFromOrigin, originGroup.
  destruct (FindOriginSubmatch (of_string origin)) as [groups|] eqn:Hm.
  2:{ intros [H|[H|H]]; by destruct H. }
  intros _.
  apply FindOriginSubmatch_sound in Hm
    as (scheme & host & sep & owner & name & rest & -> & Ho & Hscheme & Hsep &
        Hh & Hw & Hn & Hhost & Howner & Hname).
  cbn [nth Nat.sub]. rewrite !of_to_string.
  assert (forall b : bytes, b <> [] -> to_string b <> "") as Hne.
  { intros b Hb E. apply Hb. by rewrite <- (of_to_string b), E. }
  repeat (split; [by auto|]).
  exists (to_string scheme), (to_string [sep]), (to_string rest).
  repeat split.
  - destruct Hscheme as [-> | ->]; auto.
  - destruct Hsep as [-> | ->]; auto.
  - apply of_string_inj. rewrite !of_string_app, !of_to_string. exact Ho.
Qed.

Lemma origin_parts_sound_witness :
  let origin := "https://github.com/ziplineeci/ziplinee-ci-builder.git/info" in
  exists scheme sep rest,
    (scheme = "git@" \/ scheme = "https://") /\ (sep = ":" \/ sep = "/") /\
    origin = scheme +:+ getSourceFromOrigin origin +:+ sep +:+ getOwnerFromOrigin origin
             +:+ "/" +:+ getNameFromOrigin origin +:+ ".git" +:+ rest.
Proof.
  intros origin.
  apply (origin_parts_sound origin).
  left. discriminate.
Defined.

End OriginTheorems.

(** ** Setting, reading, collecting and unsetting scoped variables *)

Module EnvvarHelperProofs.
Import GoStrings Envvar EnvvarHelper StringProofs EventProofs.

Section Scoped.
Variable prefix : string.

(** A key that starts with [ZIPLINEE_] is mapped to a name that starts with
    the prefix. *)
Lemma getZiplineeEnvvarName_scoped (rest : string) :
  getZiplineeEnvvarName prefix ("ZIPLINEE_" +:+ rest)
  = prefix +:+ getZiplineeEnvvarName prefix rest.
Proof.
  unfold getZiplineeEnvvarName. rewrite of_string_app.
  rewrite Replace_prefix by done.
  by rewrite to_string_app, to_of_string.
Qed.

Lemma HasPrefix_scoped (rest : string) :
  HasPrefix (of_string (prefix +:+ rest)) (of_string prefix) = true.
Proof. rewrite of_string_app. apply HasPrefix_app. Qed.

Lemma getZiplineeEnv_scoped (env : Environ) (rest : string) :
  getZiplineeEnv prefix env ("ZIPLINEE_" +:+ rest)
  = Getenv env (getZiplineeEnvvarName prefix ("ZIPLINEE_" +:+ rest)).
Proof.
  unfold getZiplineeEnv. cbv zeta.
  pose proof (getZiplineeEnvvarName_scoped rest) as Hk.
  set (k := getZiplineeEnvvarName prefix ("ZIPLINEE_" +:+ rest)) in *.
  by rewrite Hk, HasPrefix_scoped.
Qed.

Lemma getZiplineeEnv_frame (env env' : Environ) (key : string) :
  env' !! getZiplineeEnvvarName prefix key = env !! getZiplineeEnvvarName prefix key ->
  getZiplineeEnv prefix env' key = getZiplineeEnv prefix env key.
Proof.
  unfold getZiplineeEnv, Getenv. cbv zeta.
  set (k := getZiplineeEnvvarName prefix key). by intros ->.
Qed.

Lemma setZiplineeEnv_inv key value (env env' : Environ) err :
  setZiplineeEnv prefix key value env = (env', err) ->
  (err = None /\ env' = <[getZiplineeEnvvarName prefix key := value]> env /\
   setenvValid (getZiplineeEnvvarName prefix key) value = true) \/
  (err = Some EINVAL /\ env' = env /\
   setenvValid (getZiplineeEnvvarName prefix key) value = false).
Proof.
  unfold setZiplineeEnv, Setenv. cbv zeta.
  set (k := getZiplineeEnvvarName prefix key).
  destruct (setenvValid k value); intros [= <- <-]; auto.
Qed.

(** *** What [os.Environ] lists, split again *)

Lemma SplitN2_entry (k v : string) :
  hasByte "=" k = false ->
  SplitN2 (of_string (k +:+ "=" +:+ v)) "=" = [of_string k; of_string v].
Proof.
  intros Hk. unfold SplitN2. rewrite !of_string_app.
  change (of_string "=" ++ of_string v) with ("="%char :: of_string v).
  rewrite IndexByte_first by (by apply existsb_eqb_false).
  f_equal; [by rewrite take_app_length|].
  f_equal.
  replace (S (List.length (of_string k))) with (List.length (of_string k) + 1)%nat by lia.
  by rewrite drop_app_add.
Qed.

Abbreviation scoped := (scoped prefix).

Lemma collectEntry_entry (acc : gmap string string) (k v : string) :
  hasByte "=" k = false ->
  collectEntry prefix acc (k +:+ "=" +:+ v)
  = if scoped k then <[k := v]> acc else acc.
Proof.
  intros Hk. unfold collectEntry, scoped. cbv zeta. rewrite SplitN2_entry by done.
  by rewrite !to_of_string.
Qed.

Lemma collect_foldl (l : list (string * string)) (acc : gmap string string) :
  Forall (fun kv => hasByte "=" kv.1 = false) l ->
  foldl (collectEntry prefix) acc
    ((fun kv : string * string => kv.1 +:+ "=" +:+ kv.2) <$> l)
  = foldl (fun acc kv => if scoped kv.1 then <[kv.1 := kv.2]> acc else acc) acc l.
Proof.
  revert acc. induction l as [|[k v] l IH]; intros acc Hl; [done|].
  apply Forall_cons in Hl as [Hk Hl].
  cbn [fmap list_fmap foldl fst snd]. rewrite collectEntry_entry by done.
  by apply IH.
Qed.

Lemma scoped_foldl_lookup (l : list (string * string)) (acc : gmap string string) k :
  NoDup l.*1 ->
  foldl (fun acc kv => if scoped kv.1 then <[kv.1 := kv.2]> acc else acc) acc l !! k
  = match (list_to_map l : gmap string string) !! k with
    | Some v => if scoped k then Some v else acc !! k
    | None => acc !! k
    end.
Proof.
  revert acc. induction l as [|[k0 v0] l IH]; intros acc Hnd; [done|].
  cbn [fmap list_fmap fst] in Hnd. apply NoDup_cons in Hnd as [Hk0 Hnd].
  cbn [foldl fst snd]. rewrite IH by done. rewrite list_to_map_cons.
  destruct (decide (k0 = k)) as [->|Hne].
  - rewrite lookup_insert_eq.
    rewrite (not_elem_of_list_to_map_1 l k) by done.
    destruct (scoped k); [by rewrite lookup_insert_eq|done].
  - rewrite lookup_insert_ne by done.
    assert ((if scoped k0 then <[k0 := v0]> acc else acc) !! k = acc !! k) as ->.
    { destruct (scoped k0); [by rewrite lookup_insert_ne|done]. }
    done.
Qed.

Lemma collect_lookup (env : Environ) k :
  wfEnviron env ->
  collectZiplineeEnvvars prefix env !! k = if scoped k then env !! k else None.
Proof.
  intros Hwf. unfold collectZiplineeEnvvars, osEnviron.
  rewrite collect_foldl.
  - rewrite scoped_foldl_lookup by apply NoDup_fst_map_to_list.
    rewrite list_to_map_to_list, lookup_empty.
    destruct (env !! k), (scoped k); done.
  - apply Forall_forall. intros [k0 v0] Hin.
    apply elem_of_map_to_list in Hin. by apply (Hwf k0 v0).
Qed.

Lemma filter_scoped_lookup (b : bool) (env : Environ) k :
  filter (fun kv : string * string => scoped kv.1 = b) env !! k
  = if decide (scoped k = b) then env !! k else None.
Proof.
  apply option_eq. intros v. rewrite map_lookup_filter_Some. cbn [fst].
  destruct (decide (scoped k = b)) as [Hb|Hb].
  - split; [by intros [? _]|by intros ?].
  - split; [by intros [_ ?]|by intros ?].
Qed.

(** *** Unsetting *)

Lemma unsetLoop_lookup (visited : list (string * string)) (env : Environ) k :
  unsetLoop prefix visited env !! k
  = if decide (k ∈ getZiplineeEnvvarName prefix <$> visited.*1) then None else env !! k.
Proof.
  revert env. induction visited as [|[key v] rest IH]; intros env.
  - cbn [unsetLoop fmap list_fmap]. by rewrite decide_False by apply not_elem_of_nil.
  - cbn [unsetLoop fmap list_fmap fst]. unfold unsetZiplineeEnv, Unsetenv. cbv zeta.
    set (name := getZiplineeEnvvarName prefix key).
    rewrite IH. destruct (decide (name = k)) as [<-|Hne].
    + rewrite (decide_True (P := name ∈ name :: _)) by apply list_elem_of_here.
      rewrite lookup_delete_eq. by destruct (decide _).
    + rewrite lookup_delete_ne by done.
      destruct (decide (k ∈ getZiplineeEnvvarName prefix <$> rest.*1)) as [Hin|Hin].
      * by rewrite decide_True by (by apply list_elem_of_further).
      * rewrite decide_False; [done|]. intros [?|?]%elem_of_cons; congruence.
Qed.

(** The keys the loop of [UnsetZiplineeEnvvars] visits are the names of the
    scoped variables. *)
Lemma visited_keys (env : Environ) (visited : list (string * string)) k :
  wfEnviron env -> rangeOrder (collectZiplineeEnvvars prefix env) visited ->
  k ∈ visited.*1 <-> scoped k = true /\ is_Some (env !! k).
Proof.
  intros Hwf Hperm. unfold rangeOrder in Hperm. rewrite Hperm.
  rewrite list_elem_of_fmap. split.
  - intros ([k' v] & -> & Hin). apply elem_of_map_to_list in Hin. cbn [fst].
    rewrite collect_lookup in Hin by done.
    destruct (scoped k'); [|done]. split; [done|]. by exists v.
  - intros [Hs [v Hv]]. exists (k, v). split; [done|].
    apply elem_of_map_to_list. by rewrite collect_lookup, Hs.
Qed.

(** *** Labels *)

Variable ToUpperSnakeCase : string -> string.

Abbreviation labelVariable := (labelVariable prefix ToUpperSnakeCase).

Abbreviation labelAssignments := (labelAssignments prefix ToUpperSnakeCase).

Lemma setLabelVariable key value env :
  setZiplineeEnv prefix ("ZIPLINEE_LABEL_" +:+ ToUpperSnakeCase key) value env
  = Setenv (labelVariable key) value env.
Proof. unfold setZiplineeEnv, EnvvarHelper.labelVariable. cbv zeta. exact eq_refl. Qed.

Lemma initLabelsLoop_run (visited : list (string * string)) (env : Environ) :
  initLabelsLoop prefix ToUpperSnakeCase visited env
  = setenvAll (labelAssignments visited) env.
Proof.
  revert env. induction visited as [|[key value] rest IH]; intros env; [done|].
  cbn [initLabelsLoop]. cbv zeta. rewrite setLabelVariable.
  unfold EnvvarHelper.labelAssignments. cbn [fmap list_fmap setenvAll fst snd].
  destruct (Setenv (labelVariable key) value env) as [env1 [e1|]]; [done|].
  apply IH.
Qed.

Lemma initLabels_run (m : ZiplineeManifest) (visited : list (string * string))
    (env : Environ) :
  rangeOrder (Labels m) visited ->
  initLabels prefix ToUpperSnakeCase m visited env
  = setenvAll (labelAssignments visited) env.
Proof.
  intros Hvisited. unfold initLabels.
  destruct (Nat.eqb (size (Labels m)) 0) eqn:Hsize; [|apply initLabelsLoop_run].
  apply Nat.eqb_eq, map_size_empty_iff in Hsize.
  unfold rangeOrder in Hvisited. rewrite Hsize, map_to_list_empty in Hvisited.
  by apply Permutation_nil_r in Hvisited as ->.
Qed.

Lemma labelVariable_scoped key : scoped (labelVariable key) = true.
Proof.
  unfold EnvvarHelper.labelVariable, EnvvarHelper.scoped.
  change (getZiplineeEnvvarName prefix ("ZIPLINEE_LABEL_" +:+ ToUpperSnakeCase key))
    with (getZiplineeEnvvarName prefix
            ("ZIPLINEE_" +:+ ("LABEL_" +:+ ToUpperSnakeCase key))).
  rewrite getZiplineeEnvvarName_scoped. apply HasPrefix_scoped.
Qed.

Lemma foldl_assign_wf (l : list (string * string)) (env : Environ) :
  Forall validAssignment l -> wfEnviron env -> wfEnviron (foldl assign env l).
Proof.
  revert env. induction l as [|[k v] l IH]; intros env Hl Hwf; [done|].
  apply Forall_cons in Hl as [Hkv Hl]. cbn [foldl]. apply IH; [done|].
  intros k0 v0. unfold assign. cbn [fst snd].
  intros [[<- _]|[_ Hk0]]%lookup_insert_Some; [|by apply (Hwf k0 v0)].
  unfold validAssignment, setenvValid in Hkv. cbn [fst snd] in Hkv.
  apply andb_true_iff in Hkv as [Hkv _]. apply andb_true_iff in Hkv as [Hkv _].
  apply andb_true_iff in Hkv as [_ Hkv]. by apply negb_true_iff in Hkv.
Qed.

End Scoped.

End EnvvarHelperProofs.

Module SecretProofs.
Import Envvar.

Lemma foldr_alter_insert_map (d : string -> string) dst (l : list (string * string))
    (h : MapHeap) :
  foldr (fun kv h0 => alter (fun m => <[kv.1 := d kv.2]> m) dst h0) h l
  = alter (fun m => list_to_map (prod_map id d <$> l) ∪ m) dst h.
Proof.
  rewrite <- OverrideProofs.foldr_alter_insert.
  induction l as [|[k v] l IH]; [done|].
  cbn [foldr fmap list_fmap prod_map fst snd]. by rewrite IH.
Qed.

End SecretProofs.

Module EnvvarHelperTheorems.
Import GoStrings Envvar EnvvarHelper StringProofs EventProofs EnvvarHelperProofs.
Import SecretProofs.

(** X3. What [setZiplineeEnv] stores under a key that starts with
    [ZIPLINEE_], [getZiplineeEnv] reads back under that key, for every
    prefix; the keys that are mapped to another variable read what they
    read before. *)
Theorem setZiplineeEnv_getZiplineeEnv (prefix rest value : string) (env env' : Environ) :
  setZiplineeEnv prefix ("ZIPLINEE_" +:+ rest) value env = (env', None) ->
  getZiplineeEnv prefix env' ("ZIPLINEE_" +:+ rest) = value /\
  forall other,
    getZiplineeEnvvarName prefix other
    <> getZiplineeEnvvarName prefix ("ZIPLINEE_" +:+ rest) ->
    getZiplineeEnv prefix env' other = getZiplineeEnv prefix env other.
Proof.
  intros Hset.
  apply setZiplineeEnv_inv in Hset as [(_ & -> & _)|(Herr & _)]; [|discriminate Herr].
  split.
  - rewrite getZiplineeEnv_scoped. unfold Getenv.
    by rewrite lookup_insert_eq.
  - intros other Hne. apply getZiplineeEnv_frame.
    by rewrite lookup_insert_ne.
Qed.

Lemma setZiplineeEnv_getZiplineeEnv_witness :
  let env := {[ "TESTPREFIX_GIT_BRANCH" := "main" ]} : Environ in
  let env' := (setZiplineeEnv "TESTPREFIX_" "ZIPLINEE_VERSION" "1.0.3" env).1 in
  getZiplineeEnv "TESTPREFIX_" env' "ZIPLINEE_VERSION" = "1.0.3" /\
  getZiplineeEnv "TESTPREFIX_" env' "ZIPLINEE_GIT_BRANCH" = "main".
Proof.
  intros env env'.
  destruct (setZiplineeEnv_getZiplineeEnv "TESTPREFIX_" "VERSION" "1.0.3" env env')
    as [Hget Hframe].
  - vm_compute. reflexivity.
  - split; [exact Hget|].
    rewrite (Hframe "ZIPLINEE_GIT_BRANCH"); [vm_compute; reflexivity|].
    vm_compute. discriminate.
Defined.

(** X4. In an environment whose names have no equals sign,
    [collectZiplineeEnvvars] returns exactly the variables whose name
    starts with the prefix, each with its whole value, equals signs in the
    value included. *)
Theorem collectZiplineeEnvvars_filter (prefix : string) (env : Environ) :
  wfEnviron env ->
  collectZiplineeEnvvars prefix env
  = filter (fun kv : string * string => scoped prefix kv.1 = true) env.
Proof.
  intros Hwf. apply map_eq. intros k.
  rewrite collect_lookup by done. rewrite filter_scoped_lookup.
  destruct (scoped prefix k); [by rewrite decide_True|by rewrite decide_False].
Qed.

Lemma collectZiplineeEnvvars_filter_witness :
  collectZiplineeEnvvars "ZIPLINEE_"
    {[ "ZIPLINEE_VERSION" := "1.0.3"; "ZIPLINEE_FLAGS" := "a=b=c"; "HOME" := "/root" ]}
  = {[ "ZIPLINEE_VERSION" := "1.0.3"; "ZIPLINEE_FLAGS" := "a=b=c" ]}.
Proof.
  rewrite (collectZiplineeEnvvars_filter "ZIPLINEE_").
  - vm_compute. reflexivity.
  - intros k v Hk.
    apply lookup_insert_Some in Hk as [[<- _]|[_ Hk]]; [reflexivity|].
    apply lookup_insert_Some in Hk as [[<- _]|[_ Hk]]; [reflexivity|].
    apply lookup_singleton_Some in Hk as [<- _]. reflexivity.
Defined.

(** X5. [UnsetZiplineeEnvvars] removes exactly the variables whose name
    starts with the prefix and leaves every other variable as it is, in
    whatever order the keys are visited, and nothing is left for
    [collectZiplineeEnvvars] to find.  This is so under the prefix
    [ZIPLINEE_], and under another prefix when no scoped variable has a
    name that the name mapping changes (a name with [ZIPLINEE_] in it). *)
Theorem UnsetZiplineeEnvvars_scoped (prefix : string) (env : Environ)
    (visited : list (string * string)) :
  wfEnviron env ->
  rangeOrder (collectZiplineeEnvvars prefix env) visited ->
  prefix = "ZIPLINEE_" \/
  (forall k v, env !! k = Some v -> scoped prefix k = true ->
               getZiplineeEnvvarName prefix k = k) ->
  let env' := UnsetZiplineeEnvvars prefix visited env in
  env' = filter (fun kv : string * string => scoped prefix kv.1 = false) env /\
  collectZiplineeEnvvars prefix env' = ∅.
Proof.
  intros Hwf Hvisited Hfix env'.
  assert (forall k v, env !! k = Some v -> scoped prefix k = true ->
                      getZiplineeEnvvarName prefix k = k) as Hsame.
  { destruct Hfix as [-> | Hfix]; [|exact Hfix].
    intros k v _ _. unfold getZiplineeEnvvarName.
    rewrite Replace_same by done. apply to_of_string. }
  assert (getZiplineeEnvvarName prefix <$> visited.*1 = visited.*1) as Hnames.
  { transitivity (id <$> visited.*1); [|apply list_fmap_id].
    apply Forall_fmap_ext. apply Forall_forall. intros k Hk.
    apply (visited_keys prefix env visited k Hwf Hvisited) in Hk as [Hs [v Hv]].
    by apply (Hsame k v). }
  assert (forall k, env' !! k = if scoped prefix k then None else env !! k) as Hlookup.
  { intros k. unfold env', UnsetZiplineeEnvvars. rewrite unsetLoop_lookup, Hnames.
    destruct (decide (k ∈ visited.*1)) as [Hin|Hin].
    - apply (visited_keys prefix env visited k Hwf Hvisited) in Hin as [-> _]. done.
    - destruct (scoped prefix k) eqn:Hs; [|done].
      destruct (env !! k) as [v|] eqn:Hv; [|done].
      exfalso. apply Hin. apply (visited_keys prefix env visited k Hwf Hvisited).
      split; [done|]. by exists v. }
  assert (env' = filter (fun kv : string * string => scoped prefix kv.1 = false) env) as Henv.
  { apply map_eq. intros k. rewrite Hlookup, filter_scoped_lookup.
    destruct (scoped prefix k); [by rewrite decide_False|by rewrite decide_True]. }
  split; [exact Henv|].
  apply map_eq. intros k. rewrite collect_lookup, lookup_empty.
  - rewrite Hlookup. by destruct (scoped prefix k).
  - intros k0 v0 Hk0. rewrite Hlookup in Hk0.
    destruct (scoped prefix k0); [done|]. by apply (Hwf k0 v0).
Qed.

Lemma UnsetZiplineeEnvvars_scoped_witness :
  let env := {[ "TESTPREFIX_VERSION" := "1.0.3"; "TESTPREFIX_GIT_BRANCH" := "main";
                "HOME" := "/root" ]} : Environ in
  UnsetZiplineeEnvvars "TESTPREFIX_"
    (map_to_list (collectZiplineeEnvvars "TESTPREFIX_" env)) env
  = {[ "HOME" := "/root" ]}.
Proof.
  intros env.
  assert (forall k v, env !! k = Some v ->
            k = "TESTPREFIX_VERSION" \/ k = "TESTPREFIX_GIT_BRANCH" \/ k = "HOME") as Hkeys.
  { intros k v Hk.
    apply lookup_insert_Some in Hk as [[<- _]|[_ Hk]]; [auto|].
    apply lookup_insert_Some in Hk as [[<- _]|[_ Hk]]; [auto|].
    apply lookup_singleton_Some in Hk as [<- _]. auto. }
  destruct (UnsetZiplineeEnvvars_scoped "TESTPREFIX_" env
              (map_to_list (collectZiplineeEnvvars "TESTPREFIX_" env))) as [Heq _].
  - intros k v Hk. destruct (Hkeys k v Hk) as [->|[->| ->]]; reflexivity.
  - unfold rangeOrder. reflexivity.
  - right. intros k v Hk Hs.
    destruct (Hkeys k v Hk) as [->|[->| ->]]; reflexivity.
  - rewrite Heq. vm_compute. reflexivity.
Defined.

(** X6. When [os.Setenv] accepts every label and no two labels share a
    variable name, [CollectZiplineeEnvvarsAndLabels] returns no error and,
    in whatever order the labels are visited, the scoped variables of the
    environment it leaves behind: every label [k: v] of the manifest is in
    the environment and in the map returned as the variable that
    [ZIPLINEE_LABEL_<UPPER_SNAKE(k)>] is mapped to, with the value [v], and
    no other variable of the environment changes. *)
Theorem CollectZiplineeEnvvarsAndLabels_labels (prefix : string) (U : string -> string)
    (m : ZiplineeManifest) (visited : list (string * string)) (env : Environ) :
  wfEnviron env ->
  rangeOrder (Labels m) visited ->
  (forall k v, Labels m !! k = Some v ->
               setenvValid (labelVariable prefix U k) v = true) ->
  (forall k1 k2, is_Some (Labels m !! k1) -> is_Some (Labels m !! k2) ->
                 labelVariable prefix U k1 = labelVariable prefix U k2 -> k1 = k2) ->
  exists env' envvars,
    CollectZiplineeEnvvarsAndLabels prefix U m visited env = (env', Some envvars, None) /\
    envvars = filter (fun kv : string * string => scoped prefix kv.1 = true) env' /\
    (forall k v, Labels m !! k = Some v ->
                 env' !! labelVariable prefix U k = Some v /\
                 envvars !! labelVariable prefix U k = Some v) /\
    (forall var, (forall k, is_Some (Labels m !! k) -> var <> labelVariable prefix U k) ->
                 env' !! var = env !! var).
Proof.
  intros Hwf Hvisited Hvalid Hinj.
  assert (forall k v, (k, v) ∈ visited <-> Labels m !! k = Some v) as Hin.
  { intros k v. unfold rangeOrder in Hvisited. rewrite Hvisited.
    apply elem_of_map_to_list. }
  assert (NoDup visited.*1) as Hnd.
  { unfold rangeOrder in Hvisited. rewrite Hvisited. apply NoDup_fst_map_to_list. }
  assert (Forall validAssignment (labelAssignments prefix U visited)) as Hacc.
  { unfold labelAssignments. apply Forall_fmap, Forall_forall. intros [k v] Hkv.
    apply Hin in Hkv. by apply Hvalid. }
  set (env' := foldl assign env (labelAssignments prefix U visited)).
  assert (wfEnviron env') as Hwf' by (by apply foldl_assign_wf).
  assert (forall k v, Labels m !! k = Some v ->
                      env' !! labelVariable prefix U k = Some v) as Hlabel.
  { intros k v Hk. apply Hin in Hk as Hkv.
    apply list_elem_of_split in Hkv as (l1 & l2 & Hsplit).
    unfold env', labelAssignments. rewrite Hsplit, fmap_app, fmap_cons. cbn [fst snd].
    apply foldl_assign_last. rewrite in_map_iff.
    intros ([name v2] & Hname & Hmem). cbn [fst] in Hname. subst name.
    apply list_elem_of_In, list_elem_of_fmap in Hmem as ([k2 v2'] & Heq & Hmem).
    cbn [fst snd] in Heq. injection Heq as Hk2 _.
    assert (k2 = k) as ->.
    { apply Hinj; [| |done].
      - exists v2'. apply Hin. rewrite Hsplit. apply elem_of_app. right.
        by apply list_elem_of_further.
      - by exists v. }
    rewrite Hsplit, fmap_app, fmap_cons in Hnd. cbn [fst] in Hnd.
    apply NoDup_app in Hnd as (_ & _ & Hnd). apply NoDup_cons in Hnd as [Hnd _].
    apply Hnd. apply list_elem_of_fmap. by exists (k, v2'). }
  exists env', (collectZiplineeEnvvars prefix env').
  split; [|split; [|split]].
  - unfold CollectZiplineeEnvvarsAndLabels.
    rewrite (initLabels_run prefix U m visited env Hvisited).
    by rewrite setenvAll_accepted.
  - apply map_eq. intros k.
    rewrite collect_lookup by done. rewrite filter_scoped_lookup.
    destruct (scoped prefix k); [by rewrite decide_True|by rewrite decide_False].
  - intros k v Hk. split; [by apply Hlabel|].
    rewrite collect_lookup by done. rewrite labelVariable_scoped. by apply Hlabel.
  - intros var Hvar. apply foldl_assign_frame. rewrite in_map_iff.
    intros ([name v] & Hname & Hmem). cbn [fst] in Hname. subst name.
    apply list_elem_of_In, list_elem_of_fmap in Hmem as ([k v'] & Heq & Hmem).
    cbn [fst snd] in Heq. injection Heq as Hname _.
    apply (Hvar k); [|done]. exists v'. by apply Hin.
Qed.

Lemma CollectZiplineeEnvvarsAndLabels_labels_witness :
  let m := {| Labels := {[ "APP" := "ziplinee-ci-builder"; "TEAM" := "ziplinee" ]} |} in
  let env := {[ "HOME" := "/root"; "ZIPLINEE_BUILD_STATUS" := "succeeded" ]} : Environ in
  exists env' envvars,
    CollectZiplineeEnvvarsAndLabels "ZIPLINEE_" id m (map_to_list (Labels m)) env
    = (env', Some envvars, None) /\
    envvars !! "ZIPLINEE_LABEL_APP" = Some "ziplinee-ci-builder" /\
    envvars !! "ZIPLINEE_LABEL_TEAM" = Some "ziplinee" /\
    env' !! "HOME" = Some "/root".
Proof.
  intros m env.
  assert (forall k v, Labels m !! k = Some v -> k = "APP" \/ k = "TEAM") as Hkeys.
  { intros k v Hk. unfold m in Hk. cbn [Labels] in Hk.
    apply lookup_insert_Some in Hk as [[<- _]|[_ Hk]]; [auto|].
    apply lookup_singleton_Some in Hk as [<- _]. auto. }
  destruct (CollectZiplineeEnvvarsAndLabels_labels "ZIPLINEE_" id m
              (map_to_list (Labels m)) env)
    as (env' & envvars & Hrun & _ & Hlabels & Hframe).
  - intros k v Hk.
    apply lookup_insert_Some in Hk as [[<- _]|[_ Hk]]; [reflexivity|].
    apply lookup_singleton_Some in Hk as [<- _]. reflexivity.
  - unfold rangeOrder. reflexivity.
  - intros k v Hk. unfold m in Hk. cbn [Labels] in Hk.
    apply lookup_insert_Some in Hk as [[<- <-]|[_ Hk]]; [reflexivity|].
    apply lookup_singleton_Some in Hk as [<- <-]. reflexivity.
  - intros k1 k2 [v1 H1] [v2 H2] Hname.
    destruct (Hkeys k1 v1 H1) as [-> | ->], (Hkeys k2 v2 H2) as [-> | ->];
      try reflexivity; vm_compute in Hname; discriminate Hname.
  - exists env', envvars. split; [exact Hrun|].
    split; [exact (proj2 (Hlabels "APP" "ziplinee-ci-builder" eq_refl))|].
    split; [exact (proj2 (Hlabels "TEAM" "ziplinee" eq_refl))|].
    rewrite (Hframe "HOME"); [reflexivity|].
    intros k [v Hk]. destruct (Hkeys k v Hk) as [-> | ->]; vm_compute; discriminate.
Defined.

(** X7. [decryptSecrets] returns a map with the keys of its argument, each
    value replaced by its decryption, or left as it is when decryption
    fails.  It writes no map that existed before the call: a non-empty
    argument gives a map made afresh, and an empty or nil argument comes
    back itself (nil stays nil). *)
Theorem decryptSecrets_pointwise (Decrypt : string -> string -> string * option error)
    (encryptedEnvvars : MapRef) (pipeline : string) (h : MapHeap) :
  validRef h encryptedEnvvars ->
  let res := decryptSecrets Decrypt encryptedEnvvars pipeline h in
  readMap res.2 res.1
  = (fun v => decryptSecret Decrypt v pipeline) <$> readMap h encryptedEnvvars /\
  (forall v, decryptSecret Decrypt v pipeline
             = match Decrypt v pipeline with
               | (decrypted, None) => decrypted
               | (_, Some _) => v
               end) /\
  (forall a, (a < List.length h)%nat -> res.2 !! a = h !! a) /\
  (readMap h encryptedEnvvars = ∅ -> res = (encryptedEnvvars, h)) /\
  (readMap h encryptedEnvvars <> ∅ ->
   res.1 = Some (List.length h) /\ List.length res.2 = S (List.length h)).
Proof.
  intros Hvalid res. unfold res, decryptSecrets.
  set (src := readMap h encryptedEnvvars).
  set (d := fun v => decryptSecret Decrypt v pipeline).
  assert (foldr (fun kv h0 => alter (fun m => <[kv.1 := decryptSecret Decrypt kv.2 pipeline]> m)
                                (List.length h) h0)
                (h ++ [∅]) (map_to_list src)
          = alter (fun m => (d <$> src) ∪ m) (List.length h) (h ++ [∅])) as Hloop.
  { rewrite (foldr_alter_insert_map d).
    by rewrite list_to_map_fmap, list_to_map_to_list. }
  split; [|split; [|split; [|split]]].
  - destruct (Nat.eqb (size src) 0) eqn:Hsize; cbn [fst snd].
    + apply Nat.eqb_eq, map_size_empty_iff in Hsize. fold src.
      by rewrite Hsize, fmap_empty.
    + rewrite Hloop. cbn [readMap].
      rewrite list_lookup_alter_eq, lookup_app_r, Nat.sub_diag by lia.
      cbn. by rewrite (right_id_L ∅ (∪)).
  - intros v. unfold decryptSecret. by destruct (Decrypt v pipeline) as [? [?|]].
  - intros a Ha. destruct (Nat.eqb (size src) 0); cbn [snd]; [done|].
    rewrite Hloop, list_lookup_alter_ne by lia. by rewrite lookup_app_l.
  - intros Hempty. fold src in Hempty. by rewrite Hempty, map_size_empty.
  - intros Hne. fold src in Hne.
    destruct (Nat.eqb (size src) 0) eqn:Hsize.
    + by apply Nat.eqb_eq, map_size_empty_iff in Hsize.
    + cbn [fst snd]. split; [done|].
      rewrite Hloop, length_alter, length_app. simpl. lia.
Qed.

Lemma decryptSecrets_pointwise_witness :
  let decrypt (v pipeline : string) :=
    if String.eqb v "ziplinee.secret(abc)" then ("s3cr3t", None)
    else if String.eqb v "ziplinee.secret(broken)" then ("", Some (ErrorString "bad envelope"))
    else (v, None) in
  let h := [ {[ "TOKEN" := "ziplinee.secret(abc)"; "KEY" := "ziplinee.secret(broken)";
                "PLAIN" := "text" ]} ] : MapHeap in
  let res := decryptSecrets decrypt (Some 0%nat) "github.com/ziplineeci/ziplinee-ci-builder" h in
  readMap res.2 res.1
  = {[ "TOKEN" := "s3cr3t"; "KEY" := "ziplinee.secret(broken)"; "PLAIN" := "text" ]} /\
  res.2 !! 0%nat = h !! 0%nat /\ res.1 = Some 1%nat.
Proof.
  intros decrypt h res.
  destruct (decryptSecrets_pointwise decrypt (Some 0%nat)
              "github.com/ziplineeci/ziplinee-ci-builder" h)
    as (Hread & _ & Hkeep & _ & Hfresh).
  - simpl. lia.
  - fold res in Hread, Hkeep, Hfresh.
    split; [rewrite Hread; vm_compute; reflexivity|].
    split; [apply Hkeep; simpl; lia|].
    apply Hfresh. vm_compute. discriminate.
Defined.

End EnvvarHelperTheorems.

(** ** The reporter: requests made, steps rewritten, panics *)

Module ReporterLaws.
Import Envvar Reporter ReporterProofs.

Lemma slimHeap_idem h steps : slimHeap (slimHeap h steps) steps = slimHeap h steps.
Proof.
  apply list_eq. intros a. rewrite !slimHeap_lookup.
  destruct (decide (a ∈ steps)); [|done].
  destruct (h !! a) as [s|]; [|done]. simpl. by rewrite slimStep_idem.
Qed.

Lemma validPtrs_length w w' steps :
  List.length (heap w') = List.length (heap w) -> validPtrs w steps -> validPtrs w' steps.
Proof. unfold validPtrs. by intros ->. Qed.

Section Helper.
Variable runAsJob : bool.
Variable config : BuilderConfig.
Variable podName : string.
Variable httpDo : list Request -> Request -> option error.
Variable timeNow : nat -> Time.

Abbreviation SendLogs := (SendBuildJobLogEvent config httpDo).



(** The loop stops with a panic at the first nil pointer; it has made no
    request by then. *)
Lemma slimLoop_nil steps acc w :
  ~ validPtrs w steps ->
  exists w', slimLoop steps acc w = Panicked w' /\ requests w' = requests w /\
             List.length (heap w') = List.length (heap w).
Proof.
  revert acc w. induction steps as [|a steps IH]; intros acc w Hv.
  - destruct Hv. constructor.
  - cbn [slimLoop]. unfold mbind, M_bind, bind, load.
    destruct (heap w !! a) as [s|] eqn:Hs.
    + assert (~ validPtrs w steps) as Hrest.
      { intros Hrest. apply Hv. constructor; [|done]. by eapply lookup_lt_Some. }
      assert (forall w1, requests w1 = requests w ->
                List.length (heap w1) = List.length (heap w) ->
                exists w', slimLoop steps (acc ++ [a]) w1 = Panicked w' /\
                           requests w' = requests w /\
                           List.length (heap w') = List.length (heap w)) as Hnext.
      { intros w1 Hr Hl.
        destruct (IH (acc ++ [a]) w1) as (w' & Hrun & Hr' & Hl').
        - intros Hv1. apply Hrest. by apply (validPtrs_length w1 w).
        - exists w'. by rewrite Hrun, Hr', Hl', Hr, Hl. }
      destruct (String.eqb (Status s) LogStatusSucceeded).
      * destruct (LogLines s) as [|first rest]; simpl.
        -- by apply Hnext.
        -- apply Hnext; [done|]. simpl. by rewrite length_insert.
      * simpl. by apply Hnext.
    + by exists w.
Qed.

(** *** Which calls can end the process *)

Lemma neverExits_bind {A B} (m : M A) (k : A -> M B) :
  neverExits m -> (forall a, neverExits (k a)) -> neverExits (bind m k).
Proof.
  intros Hm Hk w code w'. unfold bind.
  destruct (m w) as [a w1|w1|c w1] eqn:Hrun; [apply Hk|done|].
  by destruct (Hm w c w1).
Qed.

Lemma neverExits_ret {A} (a : A) : neverExits (ret a).
Proof. by intros w code w'. Qed.

Lemma neverExits_deref {A} (p : option A) : neverExits (deref p).
Proof. intros w code w'. by destruct p. Qed.

Lemma neverExits_perform r : neverExits (perform httpDo r).
Proof. by intros w code w'. Qed.

Lemma neverExits_sendBuilderEvent buildStatus buildEventType :
  neverExits (sendBuilderEvent config podName httpDo buildStatus buildEventType).
Proof.
  unfold sendBuilderEvent.
  apply neverExits_bind; [apply neverExits_deref|]. intros ci.
  apply neverExits_bind; [apply neverExits_deref|]. intros jobName.
  destruct (_ && _); [apply neverExits_perform|apply neverExits_ret].
Qed.

Lemma neverExits_Core buildLog : neverExits (SendBuildJobLogEventCore config httpDo buildLog).
Proof.
  unfold SendBuildJobLogEventCore.
  apply neverExits_bind; [apply neverExits_deref|]. intros ci.
  apply neverExits_bind; [apply neverExits_deref|]. intros jobName.
  destruct (_ && _); [|apply neverExits_ret].
  apply neverExits_bind.
  - destruct (ConfigJobType config); try apply neverExits_ret;
      (apply neverExits_bind; [apply neverExits_deref|intros id; apply neverExits_ret]).
  - intros env. apply neverExits_bind; [by intros w code w'|].
    intros mem. apply neverExits_perform.
Qed.

Lemma neverExits_slimLoop steps acc : neverExits (slimLoop steps acc).
Proof.
  revert acc. induction steps as [|a steps IH]; intros acc; [apply neverExits_ret|].
  cbn [slimLoop]. apply neverExits_bind.
  - intros w code w'. unfold load. by destruct (heap w !! a).
  - intros s. apply neverExits_bind; [|intros _; apply IH].
    destruct (String.eqb (Status s) LogStatusSucceeded); [|apply neverExits_ret].
    destruct (LogLines s); [apply neverExits_ret|by intros w code w'].
Qed.

Lemma neverExits_SendLogs buildLog : neverExits (SendLogs buildLog).
Proof.
  unfold SendBuildJobLogEvent.
  apply neverExits_bind; [apply neverExits_Core|]. intros [e|]; [|apply neverExits_ret].
  apply neverExits_bind; [apply neverExits_slimLoop|]. intros steps. apply neverExits_Core.
Qed.

Lemma neverReturns_bind {A B} (m : M A) (k : A -> M B) :
  (forall a, neverReturns (k a)) -> neverReturns (bind m k).
Proof.
  intros Hk w b w'. unfold bind.
  destruct (m w) as [a w1|w1|c w1]; [apply Hk|done|done].
Qed.

(** The outcome of a call that ends with an exit, when nothing before the
    exit can end the process. *)
Lemma exit_code_bind {A B} (m : M A) (k : A -> M B) (codes : Z -> Prop) :
  neverExits m ->
  (forall a w code w', k a w = Exited code w' -> codes code) ->
  forall w code w', bind m k w = Exited code w' -> codes code.
Proof.
  intros Hm Hk w code w'. unfold bind.
  destruct (m w) as [a w1|w1|c w1] eqn:Hrun; [apply Hk|done|].
  by destruct (Hm w c w1).
Qed.

End Helper.

End ReporterLaws.

Module ReporterLawsTheorems.
Import Envvar Reporter ReporterProofs ReporterLaws Examples.



(** X9. Once the fallback has rewritten the steps, sending the same log
    again changes no step, whether its first attempt fails or not: the
    rewriting is idempotent. *)
Theorem SendBuildJobLogEvent_fallback_idempotent (config : BuilderConfig)
    (httpDo : list Request -> Request -> option error) (buildLog : BuildLog)
    (w w0 : World) (e : error) :
  wfConfig config -> validPtrs w (Steps buildLog) ->
  SendBuildJobLogEventCore config httpDo buildLog w = Returned (Some e) w0 ->
  exists r1 w1 r2 w2,
    SendBuildJobLogEvent config httpDo buildLog w = Returned r1 w1 /\
    SendBuildJobLogEvent config httpDo buildLog w1 = Returned r2 w2 /\
    heap w1 = slimHeap (heap w) (Steps buildLog) /\
    heap w2 = heap w1.
Proof.
  intros Hwf Hv Hfirst.
  destruct (Core_failed config httpDo _ _ _ _ Hfirst) as [env Hcfg].
  pose proof Hfirst as Hfail. rewrite (Core_sends config httpDo env) in Hfail by done.
  injection Hfail as Hfail _.
  pose proof (SendLogs_after_failure config httpDo env buildLog w e Hcfg Hv Hfail) as Hrun1.
  cbv zeta in Hrun1.
  set (wa := withRequest w (logsRequest env buildLog w)) in Hrun1.
  set (wb := withHeap wa (slimHeap (heap w) (Steps buildLog))) in Hrun1.
  set (second := logsRequest env (setSteps buildLog (Steps buildLog)) wb) in Hrun1.
  set (w1 := withRequest wb second) in Hrun1.
  assert (heap w1 = slimHeap (heap w) (Steps buildLog)) as Hh1 by reflexivity.
  assert (validPtrs w1 (Steps buildLog)) as Hv1.
  { apply (validPtrs_length w); [|done]. rewrite Hh1. apply slimHeap_length. }
  destruct (httpDo (requests w1) (logsRequest env buildLog w1)) as [e2|] eqn:Hdo.
  - eexists _, w1, _, _. split; [exact Hrun1|].
    split; [by apply (SendLogs_after_failure config httpDo env _ _ e2)|].
    split; [exact Hh1|]. cbn [withRequest withHeap heap].
    rewrite Hh1. apply slimHeap_idem.
  - eexists _, w1, _, _. split; [exact Hrun1|].
    split; [by apply (SendLogs_after_success config httpDo env)|].
    split; [exact Hh1|]. reflexivity.
Qed.

Lemma SendBuildJobLogEvent_fallback_idempotent_witness :
  exists r1 w1 r2 w2,
    SendBuildJobLogEvent exampleConfig logsEndpointDown exampleLog exampleWorld
    = Returned r1 w1 /\
    SendBuildJobLogEvent exampleConfig logsEndpointDown exampleLog w1 = Returned r2 w2 /\
    List.length (requests w2) = 4%nat /\
    heap w2 = heap w1.
Proof.
  assert (wfConfig exampleConfig) as Hwf by (repeat split; try done; simpl; eauto).
  assert (validPtrs exampleWorld (Steps exampleLog)) as Hv
    by (repeat constructor; simpl; lia).
  destruct (SendBuildJobLogEvent_fallback_idempotent exampleConfig logsEndpointDown
              exampleLog exampleWorld _ (ErrorString "context deadline exceeded")
              Hwf Hv eq_refl)
    as (r1 & w1 & r2 & w2 & Hrun1 & Hrun2 & _ & Hheap).
  - exists r1, w1, r2, w2. split; [exact Hrun1|]. split; [exact Hrun2|].
    split; [|exact Hheap].
    pose proof Hrun1 as H1. vm_compute in H1. injection H1 as _ Hw1.
    rewrite <- Hw1 in Hrun2. vm_compute in Hrun2. injection Hrun2 as _ Hw2.
    by rewrite <- Hw2.
Defined.

(** X10. A nil step pointer in the log is harmless as long as the first
    attempt goes through, and makes the fallback panic: when the first
    attempt fails, [SendBuildJobLogEvent] panics in its loop, after the one
    request and before any second one. *)
Theorem SendBuildJobLogEvent_nil_step (config : BuilderConfig)
    (httpDo : list Request -> Request -> option error) (env : LogEnvelope)
    (buildLog : BuildLog) (w : World) :
  sendsLogs config env -> ~ validPtrs w (Steps buildLog) ->
  let first := logsRequest env buildLog w in
  (httpDo (requests w) first = None ->
   SendBuildJobLogEvent config httpDo buildLog w = Returned None (withRequest w first)) /\
  (httpDo (requests w) first <> None ->
   exists w', SendBuildJobLogEvent config httpDo buildLog w = Panicked w' /\
              requests w' = requests w ++ [first]).
Proof.
  intros Hcfg Hnil first. split.
  - intros Hok. by apply (SendLogs_after_success config httpDo env).
  - intros Hfail. destruct (httpDo (requests w) first) as [e|] eqn:Hdo; [|done].
    unfold SendBuildJobLogEvent, mbind, M_bind, bind.
    rewrite (Core_sends config httpDo env) by done. fold first. rewrite Hdo.
    destruct (slimLoop_nil (Steps buildLog) [] (withRequest w first))
      as (w' & Hrun & Hreq & _); [exact Hnil|].
    exists w'. by rewrite Hrun.
Qed.

Lemma SendBuildJobLogEvent_nil_step_witness :
  let buildLog := setSteps exampleLog [0%nat; 7%nat; 1%nat] in
  exists w', SendBuildJobLogEvent exampleConfig logsEndpointDown buildLog exampleWorld
             = Panicked w' /\
             List.length (requests w') = 1%nat.
Proof.
  intros buildLog.
  destruct (SendBuildJobLogEvent_nil_step exampleConfig logsEndpointDown BuildLogEnvelope
              buildLog exampleWorld) as [_ Hpanic].
  - eexists _, _. repeat split; reflexivity.
  - intros Hv. apply Forall_cons in Hv as [_ Hv]. apply Forall_cons in Hv as [Hv _].
    simpl in Hv. lia.
  - destruct Hpanic as (w' & Hrun & Hreq); [discriminate|].
    exists w'. split; [exact Hrun|]. by rewrite Hreq.
Defined.



(** X12. [HandleFatal] never returns to its caller, whatever the
    configuration, the log and the network: it ends the process, with the
    exit code 0 when run as a job and 1 otherwise, unless a nil pointer
    makes it panic.  Nothing it calls before ends the process earlier. *)
Theorem HandleFatal_never_returns (runAsJob : bool) (config : BuilderConfig)
    (podName : string) (httpDo : list Request -> Request -> option error)
    (timeNow : nat -> Time) (buildLog : BuildLog) (err : option error) (message : string) :
  neverReturns (HandleFatal runAsJob config podName httpDo timeNow buildLog err message) /\
  forall w code w',
    HandleFatal runAsJob config podName httpDo timeNow buildLog err message w
    = Exited code w' ->
    code = if runAsJob then 0 else 1.
Proof.
  assert (forall A (m : M A) B (k : A -> M B), (a ← m; k a) = bind m k) as Hbind by done.
  assert (forall A (m : M A) B (k : M B), (m ;; k) = bind m (fun _ => k)) as Hseq by done.
  assert (neverExits (now timeNow)) as Hnow by (by intros w code w').
  split.
  - unfold HandleFatal. cbv zeta.
    apply neverReturns_bind. intros [logLines lineNumber].
    apply neverReturns_bind. intros logLines'.
    apply neverReturns_bind. intros fatalStep.
    apply neverReturns_bind. intros r1.
    apply neverReturns_bind. intros r2.
    apply neverReturns_bind. intros r3.
    destruct runAsJob; by intros w a w'.
  - unfold HandleFatal. cbv zeta.
    apply exit_code_bind.
    { destruct err; [|apply neverExits_ret].
      apply neverExits_bind; [exact Hnow|]. intros t. apply neverExits_ret. }
    intros [logLines lineNumber]. apply exit_code_bind.
    { destruct (nonEmpty message); [|apply neverExits_ret].
      apply neverExits_bind; [exact Hnow|]. intros t. apply neverExits_ret. }
    intros logLines'. apply exit_code_bind; [by intros w code w'|].
    intros fatalStep. apply exit_code_bind; [apply neverExits_sendBuilderEvent|].
    intros r1. apply exit_code_bind; [apply neverExits_SendLogs|].
    intros r2. apply exit_code_bind; [apply neverExits_sendBuilderEvent|].
    intros r3 w code w'. destruct runAsJob; by intros [= <- _].
Qed.

Lemma HandleFatal_never_returns_witness :
  match HandleFatal false exampleConfig "pod-1" logsEndpointDown exampleClock exampleLog
          None "no manifest" exampleWorld with
  | Exited code _ => code = 1
  | _ => False
  end.
Proof.
  destruct (HandleFatal_never_returns false exampleConfig "pod-1" logsEndpointDown
              exampleClock exampleLog None "no manifest") as [Hnever Hcode].
  destruct (HandleFatal false exampleConfig "pod-1" logsEndpointDown exampleClock exampleLog
              None "no manifest" exampleWorld) as [a w'|w'|code w'] eqn:Hrun.
  - exact (Hnever _ _ _ Hrun).
  - vm_compute in Hrun. discriminate Hrun.
  - exact (Hcode _ _ _ Hrun).
Defined.

End ReporterLawsTheorems.

(** ** Unbraced references, the parameters of a when clause, DNS labels and
    the stages of a local build *)

Module WhenLaws.
Import GoStrings Envvar When WhenParameters StringProofs EnvvarHelperProofs.

Lemma scanAlphaNum_name (name rest : bytes) :
  forallb isAlphaNum name = true ->
  match rest with [] => True | c :: _ => isAlphaNum c = false end ->
  scanAlphaNum (name ++ rest) = name.
Proof.
  intros Hname Hrest. induction name as [|c name IH]; cbn [app scanAlphaNum].
  - destruct rest as [|c rest]; [done|]. cbn [scanAlphaNum]. by rewrite Hrest.
  - cbn [forallb] in Hname. apply andb_true_iff in Hname as [Hc Hname].
    by rewrite Hc, IH.
Qed.

Lemma isAlphaNum_not_brace c : isAlphaNum c = true -> Ascii.eqb c "{" = false.
Proof.
  intros Hc. destruct (Ascii.eqb c "{") eqn:E; [|done].
  apply Ascii.eqb_eq in E. subst c. discriminate Hc.
Qed.

Lemma getShellName_plain (c : ascii) (name rest : bytes) :
  isShellSpecialVar c = false -> forallb isAlphaNum (c :: name) = true ->
  match rest with [] => True | x :: _ => isAlphaNum x = false end ->
  getShellName ((c :: name) ++ rest) = (c :: name, S (List.length name)).
Proof.
  intros Hspecial Hname Hrest. unfold getShellName. cbn [app].
  pose proof Hname as Hc. cbn [forallb] in Hc. apply andb_true_iff in Hc as [Hc _].
  rewrite (isAlphaNum_not_brace c Hc), Hspecial.
  change (c :: name ++ rest) with ((c :: name) ++ rest).
  by rewrite scanAlphaNum_name.
Qed.

Lemma Expand_go_plain f (c : ascii) (name rest : bytes) :
  isShellSpecialVar c = false -> forallb isAlphaNum (c :: name) = true ->
  match rest with [] => True | x :: _ => isAlphaNum x = false end ->
  Expand_go f O ("$"%char :: (c :: name) ++ rest) = f (c :: name) ++ Expand_go f O rest.
Proof.
  intros Hspecial Hname Hrest.
  rewrite Expand_go_dollar by done.
  rewrite getShellName_plain by done. f_equal.
  rewrite Expand_go_skip. f_equal.
  change (S (List.length name)) with (List.length (c :: name)).
  apply drop_app_length.
Qed.

End WhenLaws.

Module WhenLawsTheorems.
Import GoStrings Envvar When WhenParameters StringProofs EventProofs EnvvarHelperProofs.
Import WhenLaws.

(** X13. [Evaluate] expands a reference without braces as well: in an
    expression that goes on, behind text without a dollar sign, with
    [$NAME], where [NAME] is made of letters, digits and underscores, does
    not start with a digit and ends where the expression ends or another
    kind of byte follows, [$NAME] is replaced by what [getZiplineeEnv]
    returns for [NAME], and the rest is expanded in turn. *)
Theorem expandInput_unbraced (prefix : string) (env : Environ) (lit name rest : string) :
  hasByte "$" lit = false ->
  forallb isAlphaNum (of_string name) = true ->
  match of_string name with
  | [] => False
  | c :: _ => isShellSpecialVar c = false
  end ->
  match of_string rest with
  | [] => True
  | c :: _ => isAlphaNum c = false
  end ->
  expandInput prefix env (lit +:+ "$" +:+ name +:+ rest)
  = lit +:+ getZiplineeEnv prefix env name +:+ expandInput prefix env rest.
Proof.
  intros Hlit Hname Hfirst Hrest. unfold expandInput, Expand.
  rewrite !of_string_app.
  rewrite Expand_go_literal by (by apply existsb_eqb_false).
  change (of_string "$" ++ of_string name ++ of_string rest)
    with ("$"%char :: of_string name ++ of_string rest).
  destruct (of_string name) as [|c name'] eqn:E; [done|].
  rewrite Expand_go_plain by done.
  rewrite <- E, !to_string_app, !to_of_string. reflexivity.
Qed.

Lemma expandInput_unbraced_witness :
  expandInput "ZIPLINEE_" {[ "ZIPLINEE_GIT_BRANCH" := "main" ]}
    "branch == '$ZIPLINEE_GIT_BRANCH' && home == '$HOME'"
  = "branch == 'main' && home == '${HOME}'".
Proof.
  rewrite (expandInput_unbraced "ZIPLINEE_" {[ "ZIPLINEE_GIT_BRANCH" := "main" ]}
             "branch == '" "ZIPLINEE_GIT_BRANCH" "' && home == '$HOME'");
    [|reflexivity..].
  rewrite (expandInput_unbraced "ZIPLINEE_" {[ "ZIPLINEE_GIT_BRANCH" := "main" ]}
             "' && home == '" "HOME" "'");
    [|reflexivity..].
  vm_compute. reflexivity.
Defined.

(** X14. For every prefix, [GetParameters] returns the five parameters
    [branch], [trigger], [status], [action] and [server] and no other; the
    first four are the values of the variables [GIT_BRANCH], [TRIGGER],
    [BUILD_STATUS] and [RELEASE_ACTION] under the prefix, the empty string
    when the variable is unset and never a placeholder, and [server] is the
    [ciServer] of the helper. *)
Theorem GetParameters_scoped (prefix : string) (env : Environ) (ciServer : string) :
  let parameters := GetParameters prefix env ciServer in
  parameters !! "branch" = Some (VString (Getenv env (prefix +:+ "GIT_BRANCH"))) /\
  parameters !! "trigger" = Some (VString (Getenv env (prefix +:+ "TRIGGER"))) /\
  parameters !! "status" = Some (VString (Getenv env (prefix +:+ "BUILD_STATUS"))) /\
  parameters !! "action" = Some (VString (Getenv env (prefix +:+ "RELEASE_ACTION"))) /\
  parameters !! "server" = Some (VString ciServer) /\
  forall k, is_Some (parameters !! k) ->
            k ∈ ["branch"; "trigger"; "status"; "action"; "server"].
Proof.
  intros parameters.
  assert (forall rest,
            getZiplineeEnvvarName prefix rest = rest ->
            getZiplineeEnv prefix env ("ZIPLINEE_" +:+ rest)
            = Getenv env (prefix +:+ rest)) as Hget.
  { intros rest Hrest. rewrite getZiplineeEnv_scoped, getZiplineeEnvvarName_scoped.
    by rewrite Hrest. }
  assert (forall rest, Replace (of_string rest) (of_string "ZIPLINEE_") (of_string prefix)
                       = of_string rest ->
                       getZiplineeEnvvarName prefix rest = rest) as Hname.
  { intros rest Hrest. unfold getZiplineeEnvvarName. by rewrite Hrest, to_of_string. }
  unfold parameters, GetParameters. cbv zeta.
  change "ZIPLINEE_GIT_BRANCH" with ("ZIPLINEE_" +:+ "GIT_BRANCH").
  change "ZIPLINEE_TRIGGER" with ("ZIPLINEE_" +:+ "TRIGGER").
  change "ZIPLINEE_BUILD_STATUS" with ("ZIPLINEE_" +:+ "BUILD_STATUS").
  change "ZIPLINEE_RELEASE_ACTION" with ("ZIPLINEE_" +:+ "RELEASE_ACTION").
  rewrite !Hget by (apply Hname; reflexivity).
  split; [by simplify_map_eq|]. split; [by simplify_map_eq|].
  split; [by simplify_map_eq|]. split; [by simplify_map_eq|].
  split; [by simplify_map_eq|].
  intros k [v Hk].
  repeat (apply lookup_insert_Some in Hk as [[<- _]|[_ Hk]];
          [repeat (apply list_elem_of_here || apply list_elem_of_further)|]).
  by rewrite lookup_empty in Hk.
Qed.

End WhenLawsTheorems.

Module DNSLaws.
Import GoStrings Envvar StringProofs DNSProofs.

(** X16. [makeDNSLabelSafe] repeats itself on every input whose label has
    no two adjacent hyphens left: applied to such a label it returns the
    label. *)
Theorem makeDNSLabelSafe_idempotent_without_double_hyphen
    (unicodeLower : bytes -> bytes) (value : string) :
  let label := makeDNSLabelSafe unicodeLower value in
  Replace (of_string label) ["-"; "-"]%char ["-"]%char = of_string label ->
  makeDNSLabelSafe unicodeLower label = label.
Proof.
  intros label Hrep. unfold label, makeDNSLabelSafe in *.
  rewrite of_to_string in Hrep |- *. f_equal.
  by apply makeDNSLabelSafeBytes_idempotent_without_double_hyphen.
Qed.

Lemma makeDNSLabelSafe_idempotent_without_double_hyphen_witness :
  makeDNSLabelSafe id (makeDNSLabelSafe id "Feature/JIRA-123_fix--me")
  = makeDNSLabelSafe id "Feature/JIRA-123_fix--me" /\
  makeDNSLabelSafe id "Feature/JIRA-123_fix--me" = "feature-jira-123-fix-me".
Proof.
  split; [|vm_compute; reflexivity].
  apply (makeDNSLabelSafe_idempotent_without_double_hyphen id "Feature/JIRA-123_fix--me").
  vm_compute. reflexivity.
Defined.

End DNSLaws.

Module LocalBuildLaws.
Import Envvar LocalBuild.

Section Stages.
Variable Stage : Type.
Variable StageName : Stage -> string.
Variable StringArrayContains : list string -> string -> bool.

Abbreviation wanted := (fun stagesToRun (s : Stage) =>
                          StringArrayContains stagesToRun (StageName s)).

Lemma selectStage_foldl stagesToRun (mftStages : list Stage) stages stageNames :
  foldl (selectStage Stage StageName StringArrayContains stagesToRun)
        (stages, stageNames) mftStages
  = (stages ++ List.filter (wanted stagesToRun) mftStages,
     stageNames ++ (StageName <$> mftStages)).
Proof.
  revert stages stageNames.
  induction mftStages as [|s rest IH]; intros stages stageNames.
  - cbn [foldl List.filter fmap list_fmap]. by rewrite !app_nil_r.
  - cbn [foldl selectStage List.filter fmap list_fmap].
    destruct (StringArrayContains stagesToRun (StageName s)); rewrite IH.
    + by rewrite <- !(assoc_L (++)).
    + by rewrite <- (assoc_L (++)).
Qed.

End Stages.

End LocalBuildLaws.

Module LocalBuildTheorems.
Import Envvar LocalBuild LocalBuildLaws.

(** X17. The stages a local build runs are the stages of the manifest whose
    name [StringArrayContains] finds among the stages asked for, in the
    order of the manifest; when there is none the build stops with an
    error that lists the names of all the stages of the manifest,
    separated by commas.  So, when [StringArrayContains] is membership, a
    name asked for that the manifest does not have is ignored as long as
    another one is found, and neither the order of the names asked for nor
    a name repeated among them makes a difference. *)
Theorem selectStages_filter (Stage : Type) (StageName : Stage -> string)
    (StringArrayContains : list string -> string -> bool)
    (mftStages : list Stage) (stagesToRun : list string) :
  let stages := List.filter (fun s => StringArrayContains stagesToRun (StageName s))
                            mftStages in
  selectStages Stage StageName StringArrayContains mftStages stagesToRun
  = match stages with
    | [] => inr (ErrorString ("Choose one of the following stages: "
                              +:+ Join (StageName <$> mftStages) ","))
    | _ :: _ => inl stages
    end /\
  ((forall l x, StringArrayContains l x = true <-> x ∈ l) ->
   (forall s, s ∈ stages <-> s ∈ mftStages /\ StageName s ∈ stagesToRun) /\
   forall other,
     (forall x, x ∈ other <-> x ∈ stagesToRun) ->
     selectStages Stage StageName StringArrayContains mftStages other
     = selectStages Stage StageName StringArrayContains mftStages stagesToRun).
Proof.
  intros stages.
  assert (forall run,
            selectStages Stage StageName StringArrayContains mftStages run
            = match List.filter (fun s => StringArrayContains run (StageName s))
                                mftStages with
              | [] => inr (ErrorString ("Choose one of the following stages: "
                                        +:+ Join (StageName <$> mftStages) ","))
              | _ :: _ => inl (List.filter (fun s => StringArrayContains run (StageName s))
                                           mftStages)
              end) as Hrun.
  { intros run. unfold selectStages. rewrite selectStage_foldl. cbn [app].
    destruct (List.filter (fun s => StringArrayContains run (StageName s)) mftStages)
      as [|s l]; reflexivity. }
  split; [apply Hrun|].
  intros Hcontains. split.
  - intros s. unfold stages. rewrite list_elem_of_In, filter_In, <- list_elem_of_In.
    by rewrite Hcontains.
  - intros other Hsame. rewrite !Hrun.
    assert (List.filter (fun s => StringArrayContains other (StageName s)) mftStages
            = List.filter (fun s => StringArrayContains stagesToRun (StageName s)) mftStages)
      as ->; [|done].
    apply filter_ext. intros s.
    destruct (StringArrayContains stagesToRun (StageName s)) eqn:E.
    + apply Hcontains, Hsame. by apply Hcontains.
    + destruct (StringArrayContains other (StageName s)) eqn:E'; [|done].
      apply Hcontains, Hsame, Hcontains in E'. congruence.
Qed.

Lemma selectStages_filter_witness :
  let contains (l : list string) (x : string) := bool_decide (x ∈ l) in
  selectStages string id contains ["build"; "test"; "push"] ["push"; "typo"; "build"; "push"]
  = inl ["build"; "push"] /\
  selectStages string id contains ["build"; "test"; "push"] ["typo"]
  = inr (ErrorString "Choose one of the following stages: build,test,push").
Proof.
  intros contains.
  destruct (selectStages_filter string id contains ["build"; "test"; "push"]
              ["push"; "typo"; "build"; "push"]) as [Hrun Hmember].
  destruct Hmember as [_ Hsame].
  { intros l x. unfold contains. apply bool_decide_eq_true. }
  split; [rewrite Hrun; vm_compute; reflexivity|].
  rewrite (proj1 (selectStages_filter string id contains ["build"; "test"; "push"] ["typo"])).
  vm_compute. reflexivity.
Defined.

End LocalBuildTheorems.

(** ** Global variables, the pipeline name and the variables of a builder
    configuration *)

Module EnvvarRunProofs.
Import GoStrings Envvar Origin EnvvarRun StringProofs EventProofs EnvvarHelperProofs.

Lemma string_app_inj (p a b : string) : p +:+ a = p +:+ b -> a = b.
Proof. induction p as [|c p IH]; [done|]. intros [= H]. by apply IH. Qed.

Lemma bind_run {A B} (m : E A) (k : A -> E B) (s : Sys) :
  (m ≫= k) s
  = match m s with
    | Ok a s' => k a s'
    | Err e s' => Err e s'
    | NilPanic s' => NilPanic s'
    | Fatal s' => Fatal s'
    end.
Proof. reflexivity. Qed.

Section Helper.
Variable prefix : string.
Variable ToUpperSnakeCase : string -> string.

(** The variable of a key [ZIPLINEE_<rest>] when [rest] has no [ZIPLINEE_]
    in it. *)
Lemma scoped_name (rest : string) :
  Replace (of_string rest) (of_string "ZIPLINEE_") (of_string prefix) = of_string rest ->
  getZiplineeEnvvarName prefix ("ZIPLINEE_" +:+ rest) = prefix +:+ rest.
Proof.
  intros Hrest. rewrite getZiplineeEnvvarName_scoped. f_equal.
  unfold getZiplineeEnvvarName. by rewrite Hrest, to_of_string.
Qed.

Lemma getEnv_run (rest : string) (s : Sys) :
  Replace (of_string rest) (of_string "ZIPLINEE_") (of_string prefix) = of_string rest ->
  getEnv prefix ("ZIPLINEE_" +:+ rest) s = Ok (Getenv (environ s) (prefix +:+ rest)) s.
Proof.
  intros Hrest. unfold getEnv. by rewrite getZiplineeEnv_scoped, scoped_name.
Qed.

Lemma setEnv_run (rest value : string) (s : Sys) :
  Replace (of_string rest) (of_string "ZIPLINEE_") (of_string prefix) = of_string rest ->
  setEnv prefix ("ZIPLINEE_" +:+ rest) value s
  = if setenvValid (prefix +:+ rest) value
    then Ok tt (withEnviron s (<[prefix +:+ rest := value]> (environ s)))
    else Err EINVAL (withEnviron s (environ s)).
Proof.
  intros Hrest. unfold setEnv, setZiplineeEnv, Setenv. cbv zeta.
  rewrite scoped_name by done.
  by destruct (setenvValid (prefix +:+ rest) value).
Qed.

Lemma withEnviron_same (s : Sys) : withEnviron s (environ s) = s.
Proof. by destruct s. Qed.

Lemma Getenv_insert_ne (env : Environ) (a b value : string) :
  a <> b -> Getenv (<[prefix +:+ a := value]> env) (prefix +:+ b) = Getenv env (prefix +:+ b).
Proof.
  intros Hne. unfold Getenv. rewrite lookup_insert_ne; [done|].
  intros H. by apply string_app_inj in H.
Qed.

End Helper.

End EnvvarRunProofs.
